(** * go-smtp: pooled SMTP delivery engine

    A shallow embedding of the Go packages [config], [domain], [retry],
    [infrastructure] and [application] of the production-ready SMTP client
    and of functions of the stand-alone programs of the repository,
    followed by the properties of the specification and by further
    properties of the code.

    Conventions.
    - A Go [string] is a sequence of bytes: [list ascii].  Literals are
      written [str "..."].
    - A Go [[]byte] is [list byte].
    - A Go [int], [int64] or [time.Duration] is a [Z]; where the source can
      overflow, the 64-bit wrap-around is written out with [wrap64].
    - A Go [error] is [option error] ([None] is [nil]); the [error] type
      below mirrors the two shapes [fmt.Errorf] builds.
    - Calls that reach the outside world (the clock, the network, the
      context) take their outcome from an explicit environment argument and
      leave an event in a trace. *)

From Stdlib Require Import Ascii String DecimalString DecimalPos DecimalZ.
From Stdlib Require Import List NArith ZArith Lia Bool.
From Stdlib Require Import SpecFloat QArith Qround Qminmax Qpower.
Import ListNotations.

Set Implicit Arguments.

Open Scope Z_scope.
Open Scope list_scope.

(* ================================================================== *)
(** * Strings *)

Module gostr.

Definition gostring := list ascii.

(** A literal. *)
Definition str (s : string) : gostring := list_ascii_of_string s.

Definition CR : ascii := ascii_of_nat 13.
Definition LF : ascii := ascii_of_nat 10.
Definition CRLF : gostring := [CR; LF].
(** The double quote. *)
Definition DQUOTE : gostring := [ascii_of_nat 34].

(** [s == t] on Go strings. *)
Fixpoint eqb (s t : gostring) : bool :=
match s, t with
| [], [] => true
| a :: s', b :: t' => Ascii.eqb a b && eqb s' t'
| _, _ => false
end.

(** [len(s)] *)
Definition len (s : gostring) : Z := Z.of_nat (length s).

(** [s[i:j]] for [0 <= i <= j <= len(s)]. *)
Definition slice (s : gostring) (i j : Z) : gostring :=
firstn (Z.to_nat (j - i)) (skipn (Z.to_nat i) s).

(** [strings.Join(l, sep)] *)
Fixpoint Join (l : list gostring) (sep : gostring) : gostring :=
match l with
| [] => []
| [x] => x
| x :: rest => x ++ sep ++ Join rest sep
end.

(** The [%d] verb of [fmt] at an integer. *)
Definition itoa (z : Z) : gostring := str (NilZero.string_of_int (Z.to_int z)).

(** 64-bit two's complement wrap-around of Go's [int] and [int64]. *)
Definition wrap64 (z : Z) : Z := (z + 2 ^ 63) mod 2 ^ 64 - 2 ^ 63.

End gostr.
Import gostr.

(* ================================================================== *)
(** * Errors *)

Module errors.

(** [errorString] is what [errors.New] and a [fmt.Errorf] without [%w]
    return; [wrapError] is what [fmt.Errorf] returns for a format with one
    [%w] whose operand is a non-nil error: [msg] is the whole formatted
    text and [err] the wrapped error. *)
Inductive error : Type :=
| errorString (s : gostring)
| wrapError (msg : gostring) (err : error).

(** [err.Error()] *)
Definition Error (e : error) : gostring :=
match e with
| errorString s => s
| wrapError msg _ => msg
end.

(** [errors.Unwrap(err)] *)
Definition Unwrap (e : error) : option error :=
match e with
| errorString _ => None
| wrapError _ err => Some err
end.

(** [fmt.Errorf(prefix + "%w", err)] for a possibly nil operand.  With a
    nil operand [fmt] prints the bad-verb text and wraps nothing. *)
Definition Errorf_w (prefix : gostring) (err : option error) : error :=
match err with
| Some e => wrapError (prefix ++ Error e) e
| None => errorString (prefix ++ str "%!w(<nil>)")
end.

End errors.
Import errors.

(* ================================================================== *)
(** * [strconv.Atoi] *)

Module strconv.

(** [NumError.Err]: what [Atoi] can fail with. *)
Inductive NumError : Type :=
| ErrSyntax
| ErrRange.

(** The decimal digits of [s] read onto [n] from the left; [None] at a
    byte that is not a digit. *)
Fixpoint parse_digits (n : Z) (s : gostring) : option Z :=
match s with
| [] => Some n
| ch :: s' =>
    let d := (Z.of_nat (nat_of_ascii ch) - 48)%Z in
    if (0 <=? d)%Z && (d <=? 9)%Z then parse_digits (n * 10 + d) s' else None
end.

(** [Atoi(s)]: an optional sign and decimal digits.  On a syntax error the
    value is [0]; on a number that does not fit in 64 bits it is the
    nearest [int] and the error is [ErrRange]. *)
Definition Atoi (s : gostring) : Z * option NumError :=
let '(neg, digits) :=
  match s with
  | "-"%char :: rest => (true, rest)
  | "+"%char :: rest => (false, rest)
  | _ => (false, s)
  end in
match digits with
| [] => (0, Some ErrSyntax)
| _ =>
    match parse_digits 0 digits with
    | None => (0, Some ErrSyntax)
    | Some un =>
        if negb neg && (2 ^ 63 <=? un)%Z then (2 ^ 63 - 1, Some ErrRange)
        else if neg && (2 ^ 63 <? un)%Z then (- 2 ^ 63, Some ErrRange)
        else (if neg then - un else un, None)
    end
end.

End strconv.

(* ================================================================== *)
(** * Package [config] (config/config.go) *)

Module config.

Record SMTPConfig : Type := mkSMTPConfig {
  Host : gostring;
  Port : gostring;
  Username : gostring;
  Password : gostring;
  PoolSize : Z
}.

Record Config : Type := mkConfig {
  SMTP : SMTPConfig
}.

(** The environment: [os.Getenv], which is empty at a variable that is
    not set. *)
Definition Environ := gostring -> gostring.

Definition getEnv (env : Environ) (key defaultValue : gostring) : gostring :=
let value := env key in
if negb (gostr.eqb value []) then value else defaultValue.

Definition Validate (c : Config) : option error :=
if gostr.eqb (Host (SMTP c)) []
then Some (errorString (str "SMTP_HOST is required"))
else if gostr.eqb (Username (SMTP c)) []
then Some (errorString (str "SMTP_FROM is required"))
else if gostr.eqb (Password (SMTP c)) []
then Some (errorString (str "SMTP_PASSWORD is required"))
else None.

Definition Load (env : Environ) : Config + error :=
let '(poolSize, _) := strconv.Atoi (getEnv env (str "SMTP_POOL_SIZE") (str "5")) in
let config :=
  mkConfig (mkSMTPConfig (getEnv env (str "SMTP_HOST") [])
                         (getEnv env (str "SMTP_PORT") (str "587"))
                         (getEnv env (str "SMTP_FROM") [])
                         (getEnv env (str "SMTP_PASSWORD") [])
                         poolSize) in
match Validate config with
| Some err => inr err
| None => inl config
end.

End config.

(* ================================================================== *)
(** * Regular expressions

    The fragment of Go's [regexp] syntax that the address pattern uses:
    character classes, concatenation, [+] and [{2,}], matched against the
    whole text (the pattern is anchored by [^] and [$], and without the
    [m] flag [$] matches only at the end of the text).  Matching is by
    Brzozowski derivatives. *)

Module regexp.

Inductive regex : Type :=
| Void
| Eps
| Class (p : ascii -> bool)
| Cat (r1 r2 : regex)
| Alt (r1 r2 : regex)
| Star (r : regex).

Fixpoint nullable (r : regex) : bool :=
match r with
| Void => false
| Eps => true
| Class _ => false
| Cat r1 r2 => nullable r1 && nullable r2
| Alt r1 r2 => nullable r1 || nullable r2
| Star _ => true
end.

Fixpoint deriv (c : ascii) (r : regex) : regex :=
match r with
| Void => Void
| Eps => Void
| Class p => if p c then Eps else Void
| Cat r1 r2 =>
    if nullable r1 then Alt (Cat (deriv c r1) r2) (deriv c r2)
    else Cat (deriv c r1) r2
| Alt r1 r2 => Alt (deriv c r1) (deriv c r2)
| Star r1 => Cat (deriv c r1) (Star r1)
end.

(** [^r$] against the text [s]. *)
Fixpoint MatchString (r : regex) (s : gostring) : bool :=
match s with
| [] => nullable r
| c :: s' => MatchString (deriv c r) s'
end.

(** [r+] *)
Definition Plus (r : regex) : regex := Cat r (Star r).

(** [r{2,}] *)
Definition AtLeast2 (r : regex) : regex := Cat r (Cat r (Star r)).

(** A literal character. *)
Definition Char (c : ascii) : regex := Class (Ascii.eqb c).

Definition in_range (lo hi : nat) (c : ascii) : bool :=
(lo <=? nat_of_ascii c)%nat && (nat_of_ascii c <=? hi)%nat.

(** [a-z], [A-Z], [0-9] *)
Definition lower (c : ascii) : bool := in_range 97 122 c.
Definition upper (c : ascii) : bool := in_range 65 90 c.
Definition digit (c : ascii) : bool := in_range 48 57 c.

Definition one_of (s : string) (c : ascii) : bool :=
existsb (Ascii.eqb c) (list_ascii_of_string s).

End regexp.

(* ================================================================== *)
(** * Package [domain] (domain/email.go) *)

Module domain.
Import regexp.

Record Attachment : Type := mkAttachment {
  Filename : gostring;
  ContentType : gostring;
  Data : list Byte.byte
}.

Inductive Priority : Type :=
| PriorityLow
| PriorityNormal
| PriorityHigh.

Inductive EmailStatus : Type :=
| StatusPending
| StatusSending
| StatusSent
| StatusFailed
| StatusRetrying.

(** [Headers] is a Go map; it is kept as the list of its entries in the
    order in which a [range] over it visits them.  The field [Priority] is
    named [Priority_] and [Status] is named [Status_]: the source's names
    are taken by the types and by the builder's methods. *)
Record Email : Type := mkEmail {
  ID : gostring;
  From : gostring;
  To : list gostring;
  Cc : list gostring;
  Bcc : list gostring;
  Subject : gostring;
  TextBody : gostring;
  HTMLBody : gostring;
  Attachments : list Attachment;
  Headers : list (gostring * gostring);
  Priority_ : Priority;
  CreatedAt : Z;
  Status_ : EmailStatus;
  Attempts : Z;
  LastError : gostring
}.

(** [[a-zA-Z0-9._%+\-]] *)
Definition local_char (c : ascii) : bool :=
lower c || upper c || digit c || one_of "._%+-" c.

(** [[a-zA-Z0-9.\-]] *)
Definition domain_char (c : ascii) : bool :=
lower c || upper c || digit c || one_of ".-" c.

(** [[a-zA-Z]] *)
Definition alpha_char (c : ascii) : bool := lower c || upper c.

(** [^[a-zA-Z0-9._%+\-]+@[a-zA-Z0-9.\-]+\.[a-zA-Z]{2,}$] *)
Definition pattern : regex :=
Cat (Plus (Class local_char))
 (Cat (Char "@")
  (Cat (Plus (Class domain_char))
   (Cat (Char ".")
        (AtLeast2 (Class alpha_char))))).

Definition isValidEmail (email : gostring) : bool := MatchString pattern email.

(** The loop [for _, addr := range e.To] of [Validate]: the error of the
    first address that does not match, if any. *)
Fixpoint validate_to (to : list gostring) : option error :=
match to with
| [] => None
| addr :: rest =>
    if negb (isValidEmail addr)
    then Some (errorString (str "invalid to address: " ++ addr))
    else validate_to rest
end.

Definition Validate (e : Email) : option error :=
if gostr.eqb (From e) []
then Some (errorString (str "from address is required"))
else if negb (isValidEmail (From e))
then Some (errorString (str "invalid from address: " ++ From e))
else if (Z.of_nat (length (To e)) =? 0)%Z
then Some (errorString (str "at least one recipient is required"))
else match validate_to (To e) with
| Some err => Some err
| None =>
    if gostr.eqb (Subject e) []
    then Some (errorString (str "subject is required"))
    else if gostr.eqb (TextBody e) [] && gostr.eqb (HTMLBody e) []
    then Some (errorString (str "at least one body (text or HTML) is required"))
    else None
end.

(** ** The builder.  [now] is the reading of [time.Now()]. *)

Record EmailBuilder : Type := mkBuilder { email : Email }.

Definition NewEmailBuilder (now : Z) : EmailBuilder :=
mkBuilder (mkEmail [] [] [] [] [] [] [] [] [] [] PriorityNormal now StatusPending 0 []).

Definition set_From (e : Email) (v : gostring) : Email :=
mkEmail (ID e) v (To e) (Cc e) (Bcc e) (Subject e) (TextBody e) (HTMLBody e)
  (Attachments e) (Headers e) (Priority_ e) (CreatedAt e) (Status_ e) (Attempts e) (LastError e).

Definition set_To (e : Email) (v : list gostring) : Email :=
mkEmail (ID e) (From e) v (Cc e) (Bcc e) (Subject e) (TextBody e) (HTMLBody e)
  (Attachments e) (Headers e) (Priority_ e) (CreatedAt e) (Status_ e) (Attempts e) (LastError e).

Definition set_Cc (e : Email) (v : list gostring) : Email :=
mkEmail (ID e) (From e) (To e) v (Bcc e) (Subject e) (TextBody e) (HTMLBody e)
  (Attachments e) (Headers e) (Priority_ e) (CreatedAt e) (Status_ e) (Attempts e) (LastError e).

Definition set_Bcc (e : Email) (v : list gostring) : Email :=
mkEmail (ID e) (From e) (To e) (Cc e) v (Subject e) (TextBody e) (HTMLBody e)
  (Attachments e) (Headers e) (Priority_ e) (CreatedAt e) (Status_ e) (Attempts e) (LastError e).

Definition set_Subject (e : Email) (v : gostring) : Email :=
mkEmail (ID e) (From e) (To e) (Cc e) (Bcc e) v (TextBody e) (HTMLBody e)
  (Attachments e) (Headers e) (Priority_ e) (CreatedAt e) (Status_ e) (Attempts e) (LastError e).

Definition set_TextBody (e : Email) (v : gostring) : Email :=
mkEmail (ID e) (From e) (To e) (Cc e) (Bcc e) (Subject e) v (HTMLBody e)
  (Attachments e) (Headers e) (Priority_ e) (CreatedAt e) (Status_ e) (Attempts e) (LastError e).

Definition set_HTMLBody (e : Email) (v : gostring) : Email :=
mkEmail (ID e) (From e) (To e) (Cc e) (Bcc e) (Subject e) (TextBody e) v
  (Attachments e) (Headers e) (Priority_ e) (CreatedAt e) (Status_ e) (Attempts e) (LastError e).

Definition set_Attachments (e : Email) (v : list Attachment) : Email :=
mkEmail (ID e) (From e) (To e) (Cc e) (Bcc e) (Subject e) (TextBody e) (HTMLBody e)
  v (Headers e) (Priority_ e) (CreatedAt e) (Status_ e) (Attempts e) (LastError e).

Definition set_Priority (e : Email) (v : Priority) : Email :=
mkEmail (ID e) (From e) (To e) (Cc e) (Bcc e) (Subject e) (TextBody e) (HTMLBody e)
  (Attachments e) (Headers e) v (CreatedAt e) (Status_ e) (Attempts e) (LastError e).

Definition set_Status (e : Email) (v : EmailStatus) : Email :=
mkEmail (ID e) (From e) (To e) (Cc e) (Bcc e) (Subject e) (TextBody e) (HTMLBody e)
  (Attachments e) (Headers e) (Priority_ e) (CreatedAt e) v (Attempts e) (LastError e).

Definition set_Attempts (e : Email) (v : Z) : Email :=
mkEmail (ID e) (From e) (To e) (Cc e) (Bcc e) (Subject e) (TextBody e) (HTMLBody e)
  (Attachments e) (Headers e) (Priority_ e) (CreatedAt e) (Status_ e) v (LastError e).

Definition set_LastError (e : Email) (v : gostring) : Email :=
mkEmail (ID e) (From e) (To e) (Cc e) (Bcc e) (Subject e) (TextBody e) (HTMLBody e)
  (Attachments e) (Headers e) (Priority_ e) (CreatedAt e) (Status_ e) (Attempts e) v.

Definition builder_From (b : EmailBuilder) (from : gostring) : EmailBuilder :=
mkBuilder (set_From (email b) from).

Definition builder_To (b : EmailBuilder) (to : list gostring) : EmailBuilder :=
mkBuilder (set_To (email b) (To (email b) ++ to)).

Definition builder_Cc (b : EmailBuilder) (cc : list gostring) : EmailBuilder :=
mkBuilder (set_Cc (email b) (Cc (email b) ++ cc)).

Definition builder_Bcc (b : EmailBuilder) (bcc : list gostring) : EmailBuilder :=
mkBuilder (set_Bcc (email b) (Bcc (email b) ++ bcc)).

Definition builder_Subject (b : EmailBuilder) (subject : gostring) : EmailBuilder :=
mkBuilder (set_Subject (email b) subject).

Definition builder_TextBody (b : EmailBuilder) (body : gostring) : EmailBuilder :=
mkBuilder (set_TextBody (email b) body).

Definition builder_HTMLBody (b : EmailBuilder) (body : gostring) : EmailBuilder :=
mkBuilder (set_HTMLBody (email b) body).

Definition builder_Attach (b : EmailBuilder) (filename contentType : gostring)
  (data : list Byte.byte) : EmailBuilder :=
mkBuilder (set_Attachments (email b)
  (Attachments (email b) ++ [mkAttachment filename contentType data])).

Definition builder_Priority (b : EmailBuilder) (priority : Priority) : EmailBuilder :=
mkBuilder (set_Priority (email b) priority).

(** [Build] returns the pointer to the email or the validation error. *)
Definition Build (b : EmailBuilder) : Email + error :=
match Validate (email b) with
| Some err => inr err
| None => inl (email b)
end.

End domain.

(* ================================================================== *)
(** * IEEE 754 binary64 ([float64])

    [float64] values and operations are those of the Standard Library's
    executable specification of binary floating point ([SpecFloat]) at
    precision 53 and maximal exponent 1024, rounding to nearest even. *)

Module f64.

Definition float64 := spec_float.

Definition prec : Z := 53.
Definition emax : Z := 1024.

Definition NaN : float64 := S754_nan.
Definition Inf (neg : bool) : float64 := S754_infinity neg.
Definition zero : float64 := S754_zero false.
Definition one : float64 := SFone prec emax.
(** [0.5] *)
Definition half : float64 := S754_finite false (2 ^ 52) (-53).

Definition mul : float64 -> float64 -> float64 := SFmul prec emax.
Definition add : float64 -> float64 -> float64 := SFadd prec emax.
Definition div : float64 -> float64 -> float64 := SFdiv prec emax.
Definition eqb : float64 -> float64 -> bool := SFeqb.
Definition ltb : float64 -> float64 -> bool := SFltb.
(** [x > y] *)
Definition gtb (x y : float64) : bool := SFltb y x.

(** The conversion [float64(n)] of an integer: the nearest float. *)
Definition of_int (n : Z) : float64 := binary_normalize prec emax n 0 false.

Definition IsNaN (x : float64) : bool :=
match x with S754_nan => true | _ => false end.

Definition IsInf (x : float64) : bool :=
match x with S754_infinity _ => true | _ => false end.

Definition Signbit (x : float64) : bool :=
match x with
| S754_zero s | S754_infinity s | S754_finite s _ _ => s
| S754_nan => false
end.

(** The value of a finite float as a rational; [0] for the others. *)
Definition to_Q (x : float64) : Q :=
match x with
| S754_finite s m e =>
    let v := if (0 <=? e)%Z then inject_Z (Z.pos m * 2 ^ e)
             else Z.pos m # Pos.pow 2 (Z.to_pos (- e)) in
    if s then Qopp v else v
| _ => 0%Q
end.

(** The integer part of a float (the fraction is discarded), for a finite
    float. *)
Definition trunc (x : float64) : option Z :=
match x with
| S754_zero _ => Some 0
| S754_finite s m e =>
    let a := if (0 <=? e)%Z then Z.pos m * 2 ^ e else Z.pos m / 2 ^ (- e) in
    Some (if s then - a else a)
| _ => None
end.

(** The conversion [int64(x)] (also [time.Duration(x)]): the fraction is
    discarded; when the integer part does not fit in 64 bits (or [x] is an
    infinity or not a number) the language leaves the result to the
    implementation, which is [None] here. *)
Definition to_int64 (x : float64) : option Z :=
match trunc x with
| Some z => if (- 2 ^ 63 <=? z)%Z && (z <? 2 ^ 63)%Z then Some z else None
| None => None
end.

(** [math.Frexp]: [x = frac * 2^exp] with [1/2 <= |frac| < 1]. *)
Definition Frexp (x : float64) : float64 * Z :=
match x with
| S754_finite _ _ _ => SFfrexp prec emax x
| _ => (x, 0)
end.

(** [math.Ldexp]: [frac * 2^exp], rounded. *)
Definition Ldexp (frac : float64) (exp : Z) : float64 := SFldexp prec emax frac exp.

(** The loop of [math.Pow] that multiplies the powers [x^(2^k)] selected by
    the bits of the integer exponent [i], mantissa and exponent apart. *)
Fixpoint pow_loop (i : positive) (a1 : float64) (ae : Z) (x1 : float64) (xe : Z)
  : float64 * Z :=
if (xe <? - 4096)%Z || (4096 <? xe)%Z then (a1, ae + xe)
else
  let '(a1, ae) :=
    match i with
    | xH | xI _ => (mul a1 x1, ae + xe)
    | xO _ => (a1, ae)
    end in
  let x1 := mul x1 x1 in
  let xe := 2 * xe in
  let '(x1, xe) := if ltb x1 half then (add x1 x1, xe - 1) else (x1, xe) in
  match i with
  | xH => (a1, ae)
  | xO i' | xI i' => pow_loop i' a1 ae x1 xe
  end.

(** [math.Pow(x, float64(n))] of Go's standard library (math/pow.go, the
    portable implementation), for the exponents [calculateBackoff] passes:
    the conversion of an integer.  Such an exponent is finite and has no
    fractional part, so the cases of the library function for an infinite
    exponent, for the exponents [0.5] and [-0.5] and for a fractional
    exponent do not arise and are not written. *)
Definition Pow_int (x : float64) (n : Z) : float64 :=
let y := of_int n in
let yi := match trunc y with Some z => Z.abs z | None => 0 end in
let isOddInt := (yi <? 2 ^ 53)%Z && Z.odd yi in
if eqb y zero || eqb x one then one
else if eqb y one then x
else if IsNaN x then NaN
else if eqb x zero then
  if ltb y zero
  then (if Signbit x && isOddInt then Inf true else Inf false)
  else (if Signbit x && isOddInt then x else zero)
else if IsInf x then
  if Signbit x
  then (if ltb zero y
        then (if isOddInt then Inf true else Inf false)
        else (if isOddInt then S754_zero true else zero))
  else (if ltb y zero then zero else Inf false)
else if (2 ^ 63 <=? yi)%Z then
  if eqb x (SFopp one) then one
  else if Bool.eqb (ltb (SFabs x) one) (ltb zero y) then zero
  else Inf false
else
  let '(x1, xe) := Frexp x in
  let '(a1, ae) :=
    match yi with
    | Z.pos i => pow_loop i one 0 x1 xe
    | _ => (one, 0)
    end in
  if ltb y zero then Ldexp (div one a1) (- ae) else Ldexp a1 ae.

End f64.

(* ================================================================== *)
(** * Package [retry] (pkg/retry) *)

Module retry.
Import f64.

(** [InitialDelay] and [MaxDelay] are [time.Duration]s: nanoseconds. *)
Record Config : Type := mkConfig {
  MaxAttempts : Z;
  InitialDelay : Z;
  MaxDelay : Z;
  Multiplier : float64
}.

Definition Second : Z := 1000000000.

Definition DefaultConfig : Config :=
mkConfig 5 (1 * Second) (30 * Second) (of_int 2).

(** [calculateBackoff]; the result is [None] where the final conversion to
    [time.Duration] is left to the implementation. *)
Definition calculateBackoff (attempt : Z) (config : Config) : option Z :=
let delay := mul (of_int (InitialDelay config))
                 (Pow_int (Multiplier config) (attempt - 1)) in
let delay := if gtb delay (of_int (MaxDelay config))
             then of_int (MaxDelay config) else delay in
to_int64 delay.

(** The loop of [containsSubstring], from index [i]. *)
Fixpoint containsSubstring_loop (fuel : nat) (i : Z) (s substr : gostring) : bool :=
match fuel with
| O => false
| S fuel' =>
    if (i <=? len s - len substr)%Z
    then if gostr.eqb (slice s i (i + len substr)) substr then true
         else containsSubstring_loop fuel' (i + 1) s substr
    else false
end.

Definition containsSubstring (s substr : gostring) : bool :=
containsSubstring_loop (S (length s)) 0 s substr.

Definition contains (s substr : gostring) : bool :=
(len substr <=? len s)%Z &&
(gostr.eqb s substr || ((len substr <? len s)%Z && containsSubstring s substr)).

Definition temporaryErrors : list gostring :=
map str ["421"; "450"; "451"; "452"; "timeout"; "connection refused";
         "connection reset"; "temporary failure"]%string.

Definition permanentErrors : list gostring :=
map str ["550"; "551"; "552"; "553"; "554"]%string.

Definition IsRetryable (err : error) : bool :=
let errStr := Error err in
if existsb (contains errStr) temporaryErrors then true
else if existsb (contains errStr) permanentErrors then false
else true.

(** What [Do] does to the outside, in order: the calls of the operation
    with what they returned, the retry notices it prints, and the waits
    with whether the context ended them. *)
Inductive Event : Type :=
| EvCall (attempt : Z) (result : option error)
| EvPrintf (attempt : Z) (err : error) (delay : option Z)
| EvWait (delay : option Z) (cancelled : bool).

Section Do.

(** The state the operation works on. *)
Variable St : Type.

(** The operation [fn(ctx)]. *)
Variable fn : St -> option error * St.

(** The [select] between [time.After(delay)] and [ctx.Done()]: [None] when
    the timer fires first, [Some err] when the context is done first, [err]
    being [ctx.Err()]. *)
Variable wait : option Z -> St -> option error * St.

Definition permanent (attempt : Z) (config : Config) (err : error) : error :=
wrapError (str "permanent error (attempt " ++ itoa attempt ++ str "/"
           ++ itoa (MaxAttempts config) ++ str "): " ++ Error err) err.

Definition cancelled (ctxErr : error) : error :=
wrapError (str "retry cancelled: " ++ Error ctxErr) ctxErr.

Definition exhausted (config : Config) (lastErr : option error) : error :=
Errorf_w (str "max attempts reached (" ++ itoa (MaxAttempts config) ++ str "): ")
         lastErr.

(** The [for] loop of [Do] from [attempt] on, and the return after it. *)
Fixpoint Do_loop (fuel : nat) (config : Config) (attempt : Z)
  (lastErr : option error) (st : St) (tr : list Event)
  : option (option error * St * list Event) :=
match fuel with
| O => None
| S fuel' =>
    if (attempt <=? MaxAttempts config)%Z then
      let '(err, st) := fn st in
      let tr := tr ++ [EvCall attempt err] in
      match err with
      | None => Some (None, st, tr)
      | Some e =>
          if negb (IsRetryable e)
          then Some (Some (permanent attempt config e), st, tr)
          else if (attempt =? MaxAttempts config)%Z
          then Some (Some (exhausted config (Some e)), st, tr)
          else
            let delay := calculateBackoff attempt config in
            let tr := tr ++ [EvPrintf attempt e delay] in
            match wait delay st with
            | (Some ctxErr, st) =>
                Some (Some (cancelled ctxErr), st, tr ++ [EvWait delay true])
            | (None, st) =>
                Do_loop fuel' config (attempt + 1) (Some e) st
                        (tr ++ [EvWait delay false])
            end
      end
    else Some (Some (exhausted config lastErr), st, tr)
end.

(** [Do(ctx, config, fn)]: the error returned, the final state and the
    trace.  The loop runs at most [MaxAttempts] times. *)
Definition Do (config : Config) (st : St)
  : option (option error * St * list Event) :=
Do_loop (S (Z.to_nat (MaxAttempts config))) config 1 None st [].

End Do.

(** The number of calls of the operation in a trace. *)
Definition calls (tr : list Event) : nat :=
length (filter (fun ev => match ev with EvCall _ _ => true | _ => false end) tr).

(** The number of waits in a trace. *)
Definition waits (tr : list Event) : nat :=
length (filter (fun ev => match ev with EvWait _ _ => true | _ => false end) tr).

End retry.

(* ================================================================== *)
(** * [encoding/base64]

    [base64.StdEncoding] of Go's standard library: the alphabet of
    RFC 4648 with [=] padding.  Three bytes make a 24-bit value whose four
    6-bit digits index the alphabet. *)

Module base64.

Definition alphabet : gostring :=
str "ABCDEFGHIJKLMNOPQRSTUVWXYZabcdefghijklmnopqrstuvwxyz0123456789+/".

Definition padChar : ascii := "="%char.

(** [enc.encode[i]] *)
Definition encodeChar (i : N) : ascii := nth (N.to_nat i) alphabet padChar.

(** [EncodeToString] *)
Fixpoint EncodeToString (src : list Byte.byte) : gostring :=
match src with
| [] => []
| [a] =>
    let val := (Byte.to_N a * 65536)%N in
    [encodeChar (val / 262144 mod 64); encodeChar (val / 4096 mod 64);
     padChar; padChar]
| [a; b] =>
    let val := (Byte.to_N a * 65536 + Byte.to_N b * 256)%N in
    [encodeChar (val / 262144 mod 64); encodeChar (val / 4096 mod 64);
     encodeChar (val / 64 mod 64); padChar]
| a :: b :: c :: rest =>
    let val := (Byte.to_N a * 65536 + Byte.to_N b * 256 + Byte.to_N c)%N in
    encodeChar (val / 262144 mod 64) :: encodeChar (val / 4096 mod 64)
    :: encodeChar (val / 64 mod 64) :: encodeChar (val mod 64)
    :: EncodeToString rest
end.

(** The position of a character in the alphabet. *)
Fixpoint index_of (c : ascii) (l : gostring) (i : N) : option N :=
match l with
| [] => None
| x :: l' => if Ascii.eqb x c then Some i else index_of c l' (i + 1)%N
end.

Definition decodeChar (c : ascii) : option N := index_of c alphabet 0%N.

Definition byte_of (n : N) : Byte.byte :=
match Byte.of_N (n mod 256) with
| Some b => b
| None => Byte.x00
end.

(** [DecodeString]: quadruples of alphabet characters, the last one
    possibly padded. *)
Fixpoint DecodeString (s : gostring) : option (list Byte.byte) :=
match s with
| [] => Some []
| c0 :: c1 :: c2 :: c3 :: rest =>
    match decodeChar c0, decodeChar c1 with
    | Some i0, Some i1 =>
        if Ascii.eqb c3 padChar && match rest with [] => true | _ => false end
        then
          if Ascii.eqb c2 padChar
          then Some [byte_of ((i0 * 262144 + i1 * 4096) / 65536)]
          else match decodeChar c2 with
               | Some i2 =>
                   let val := (i0 * 262144 + i1 * 4096 + i2 * 64)%N in
                   Some [byte_of (val / 65536); byte_of (val / 256)]
               | None => None
               end
        else match decodeChar c2, decodeChar c3, DecodeString rest with
             | Some i2, Some i3, Some out =>
                 let val := (i0 * 262144 + i1 * 4096 + i2 * 64 + i3)%N in
                 Some (byte_of (val / 65536) :: byte_of (val / 256)
                       :: byte_of val :: out)
             | _, _, _ => None
             end
    | _, _ => None
    end
| _ => None
end.

End base64.

(* ================================================================== *)
(** * Package [infrastructure] (connection pool and SMTP client) *)

Module infrastructure.
Import domain.

Record SMTPConfig : Type := mkSMTPConfig {
  Host : gostring;
  Port : gostring;
  Username : gostring;
  Password : gostring;
  PoolSize : Z
}.

(** A connection is the identity of an [*smtp.Client]. *)
Definition Conn := nat.

(** What the pool and the client do to the network and to each other, in
    order. *)
Inductive Event : Type :=
| EvDial (c : Conn)
| EvConnClose (c : Conn)
| EvQuit (c : Conn)
| EvNoop (c : Conn)
| EvSelect
| EvMail (c : Conn) (from : gostring)
| EvRcpt (c : Conn) (addr : gostring)
| EvData (c : Conn)
| EvWrite (c : Conn) (message : gostring)
| EvDataClose (c : Conn)
| EvReset (c : Conn)
| EvPut (c : Conn).

(** The outcome of one attempt to open a connection: the error, if any,
    of each network step, and the client the dial yields. *)
Record DialEnv : Type := mkDialEnv {
  client : Conn;
  tlsDialErr : option error;
  newClientErr : option error;
  dialErr : option error;
  helloErr : option error;
  startTLSErr : option error;
  authErr : option error
}.

Definition wrap (prefix : string) (e : error) : error :=
wrapError (str prefix ++ Error e) e.

Definition createConnection (config : SMTPConfig) (env : DialEnv)
  : (Conn + error) * list Event :=
if gostr.eqb (Port config) (str "465") then
  match tlsDialErr env with
  | Some e => (inr (wrap "tls dial failed: " e), [])
  | None =>
      match newClientErr env with
      | Some e => (inr (wrap "smtp client failed: " e), [])
      | None =>
          match authErr env with
          | Some e => (inr (wrap "auth failed: " e),
                       [EvDial (client env); EvConnClose (client env)])
          | None => (inl (client env), [EvDial (client env)])
          end
      end
  end
else
  match dialErr env with
  | Some e => (inr (wrap "dial failed: " e), [])
  | None =>
      match helloErr env with
      | Some e => (inr (wrap "hello failed: " e),
                   [EvDial (client env); EvConnClose (client env)])
      | None =>
          match startTLSErr env with
          | Some e => (inr (wrap "starttls failed: " e),
                       [EvDial (client env); EvConnClose (client env)])
          | None =>
              match authErr env with
              | Some e => (inr (wrap "auth failed: " e),
                           [EvDial (client env); EvConnClose (client env)])
              | None => (inl (client env), [EvDial (client env)])
              end
          end
      end
  end.

(** [connections] is the buffered channel: its capacity and the
    connections it holds, oldest first. *)
Record ConnectionPool : Type := mkPool {
  config : SMTPConfig;
  capacity : nat;
  connections : list Conn;
  closed : bool
}.

Definition set_connections (p : ConnectionPool) (l : list Conn) : ConnectionPool :=
mkPool (config p) (capacity p) l (closed p).

(** [Close]: marks the pool closed, closes the channel and quits and
    closes every connection it still holds. *)
Definition Close (p : ConnectionPool) : option error * ConnectionPool * list Event :=
if closed p then (None, p, [])
else (None, mkPool (config p) (capacity p) [] true,
      flat_map (fun c => [EvQuit c; EvConnClose c]) (connections p)).

(** The loop of [NewConnectionPool] that fills the pool, from the [i]th
    connection on; [dials i] is the outcome of the [i]th dial. *)
Fixpoint populate (n i : nat) (dials : nat -> DialEnv) (p : ConnectionPool)
  (tr : list Event) : (ConnectionPool + error) * list Event :=
match n with
| O => (inl p, tr)
| S n' =>
    match createConnection (config p) (dials i) with
    | (inr e, ev) =>
        let '(_, _, ev') := Close p in
        (inr (wrap "failed to create connection: " e), tr ++ ev ++ ev')
    | (inl conn, ev) =>
        populate n' (S i) dials (set_connections p (connections p ++ [conn]))
                 (tr ++ ev)
    end
end.

(** The limits of [make(chan *smtp.Client, size)] in the run-time system
    (runtime/chan.go, [makechan]), on linux/amd64: the buffer of [size]
    pointers of 8 bytes must fit in [maxAlloc] bytes, the 48 bits of the
    addresses of the heap, beside the header of the channel.  The header
    takes 96 bytes up to Go 1.22; the versions after it add a word or
    two, which lowers the limit by as many connections. *)
Definition maxAlloc : Z := 2 ^ 48.
Definition hchanSize : Z := 96.

(** [NewConnectionPool]; [None] is the panic of [make] on a size that is
    negative or out of range ("makechan: size out of range").  For a
    size in range the buffer is taken to be allocated. *)
Definition NewConnectionPool (config : SMTPConfig) (size : Z)
  (dials : nat -> DialEnv) : option ((ConnectionPool + error) * list Event) :=
if (size <? 0)%Z || (maxAlloc - hchanSize <? 8 * size)%Z then None
else Some (populate (Z.to_nat size) 0 dials
                    (mkPool config (Z.to_nat size) [] false) []).

(** The outside of one [Get]: whether the context is done when the
    [select] is decided ([Some err], [err] being [ctx.Err()]); which case
    the [select] takes when the context is done and the channel holds a
    connection, as it chooses among the cases that are ready ([true]: the
    context's); the result of the probe; and the outcome of the dial that
    replaces a dead connection. *)
Record GetEnv : Type := mkGetEnv {
  ctxDone : option error;
  noopErr : option error;
  redial : DialEnv;
  ctxFirst : bool
}.

(** The case [conn := <-p.connections] of the [select] in [Get]: [conn]
    is the connection received and [rest] what the channel still
    holds. *)
Definition received (env : GetEnv) (p : ConnectionPool) (conn : Conn)
  (rest : list Conn) : (Conn + error) * ConnectionPool * list Event :=
let p := set_connections p rest in
match noopErr env with
| Some _ =>
    match createConnection (config p) (redial env) with
    | (inr e, ev) =>
        (inr (wrap "failed to recreate connection: " e), p,
         [EvSelect; EvNoop conn; EvConnClose conn] ++ ev)
    | (inl newConn, ev) =>
        (inl newConn, p, [EvSelect; EvNoop conn; EvConnClose conn] ++ ev)
    end
| None => (inl conn, p, [EvSelect; EvNoop conn])
end.

(** [Get].  The [select] takes a case that is ready: the channel's when
    it holds a connection, the context's when the context is done, either
    of the two when both are, and the timer's after 30 seconds when
    neither is. *)
Definition Get (env : GetEnv) (p : ConnectionPool)
  : (Conn + error) * ConnectionPool * list Event :=
if closed p then (inr (errorString (str "pool is closed")), p, [])
else
  match ctxDone env with
  | Some e =>
      match connections p with
      | conn :: rest =>
          if ctxFirst env then (inr e, p, [EvSelect])
          else received env p conn rest
      | [] => (inr e, p, [EvSelect])
      end
  | None =>
      match connections p with
      | conn :: rest => received env p conn rest
      | [] => (inr (errorString (str "timeout waiting for connection")), p, [EvSelect])
      end
  end.

(** [Put]: back into the channel when the pool is open and the channel has
    room, closed otherwise. *)
Definition Put (conn : Conn) (p : ConnectionPool)
  : option error * ConnectionPool * list Event :=
if closed p then (None, p, [EvPut conn; EvConnClose conn])
else if (length (connections p) <? capacity p)%nat
then (None, set_connections p (connections p ++ [conn]), [EvPut conn])
else (None, p, [EvPut conn; EvConnClose conn]).

(** ** The client *)

Record SMTPClient : Type := mkClient {
  cconfig : SMTPConfig;
  pool : ConnectionPool
}.

(** The readings of the clock in [buildMessage], in the order of the
    calls: [time.Now().UnixNano()] for the two boundaries, the formatted
    date, and [UnixNano()] for the message id. *)
Record Clock : Type := mkClock {
  nowOuter : Z;
  nowInner : Z;
  nowDate : gostring;
  nowMessageID : Z
}.

Section Builder.

(** [mime.BEncoding.Encode("UTF-8", s)] of the standard library. *)
Variable BEncode : gostring -> gostring.

(** [buf.WriteString(s)] *)
Definition WriteString (buf s : gostring) : gostring := buf ++ s.

(** The loop that writes the base64 text in lines of 76 characters, from
    index [i]. *)
Fixpoint write_lines (fuel : nat) (i : Z) (encoded buf : gostring) : gostring :=
match fuel with
| O => buf
| S fuel' =>
    if (i <? len encoded)%Z then
      let end_ := (i + 76)%Z in
      let end_ := if (end_ >? len encoded)%Z then len encoded else end_ in
      let buf := WriteString buf (slice encoded i end_) in
      let buf := WriteString buf CRLF in
      write_lines fuel' (i + 76) encoded buf
    else buf
end.

(** The body of the loop over the attachments. *)
Definition write_attachment (outerBoundary : gostring) (buf : gostring)
  (att : Attachment) : gostring :=
let buf := WriteString buf (str "--" ++ outerBoundary ++ CRLF) in
let buf := WriteString buf (str "Content-Type: " ++ ContentType att
             ++ str "; name=" ++ DQUOTE ++ Filename att ++ DQUOTE ++ CRLF) in
let buf := WriteString buf (str "Content-Transfer-Encoding: base64" ++ CRLF) in
let buf := WriteString buf (str "Content-Disposition: attachment; filename=" ++ DQUOTE
             ++ Filename att ++ DQUOTE ++ CRLF) in
let buf := WriteString buf CRLF in
let encoded := base64.EncodeToString (Data att) in
let buf := write_lines (length encoded) 0 encoded buf in
WriteString buf CRLF.

(** The text part and the HTML part, each written when its body is not
    empty. *)
Definition write_bodies (innerBoundary : gostring) (email : Email)
  (buf : gostring) : gostring :=
let buf :=
  if negb (gostr.eqb (TextBody email) []) then
    let buf := WriteString buf (str "--" ++ innerBoundary ++ CRLF) in
    let buf := WriteString buf (str "Content-Type: text/plain; charset=UTF-8" ++ CRLF) in
    let buf := WriteString buf CRLF in
    let buf := WriteString buf (TextBody email) in
    WriteString buf (CRLF ++ CRLF)
  else buf in
if negb (gostr.eqb (HTMLBody email) []) then
  let buf := WriteString buf (str "--" ++ innerBoundary ++ CRLF) in
  let buf := WriteString buf (str "Content-Type: text/html; charset=UTF-8" ++ CRLF) in
  let buf := WriteString buf CRLF in
  let buf := WriteString buf (HTMLBody email) in
  WriteString buf (CRLF ++ CRLF)
else buf.

(** The header lines, up to and including [MIME-Version]. *)
Definition write_headers (host : gostring) (clock : Clock) (email : Email)
  (buf : gostring) : gostring :=
let buf := WriteString buf (str "From: " ++ From email ++ CRLF) in
let buf := WriteString buf (str "To: " ++ Join (To email) (str ", ") ++ CRLF) in
let buf :=
  if (0 <? Z.of_nat (length (Cc email)))%Z
  then WriteString buf (str "Cc: " ++ Join (Cc email) (str ", ") ++ CRLF)
  else buf in
let buf := WriteString buf (str "Subject: " ++ BEncode (Subject email) ++ CRLF) in
let buf := WriteString buf (str "Date: " ++ nowDate clock ++ CRLF) in
let buf := WriteString buf (str "Message-ID: <" ++ itoa (nowMessageID clock)
             ++ str "@" ++ host ++ str ">" ++ CRLF) in
let buf :=
  fold_left (fun buf kv => WriteString buf (fst kv ++ str ": " ++ snd kv ++ CRLF))
            (Headers email) buf in
let buf :=
  match Priority_ email with
  | PriorityHigh =>
      let buf := WriteString buf (str "X-Priority: 1" ++ CRLF) in
      WriteString buf (str "Importance: high" ++ CRLF)
  | PriorityLow =>
      let buf := WriteString buf (str "X-Priority: 5" ++ CRLF) in
      WriteString buf (str "Importance: low" ++ CRLF)
  | PriorityNormal => buf
  end in
WriteString buf (str "MIME-Version: 1.0" ++ CRLF).

Definition outerBoundary (clock : Clock) : gostring :=
str "outer_" ++ itoa (nowOuter clock).

Definition innerBoundary (clock : Clock) : gostring :=
str "inner_" ++ itoa (wrap64 (nowInner clock + 1)).

Definition buildMessage (host : gostring) (clock : Clock) (email : Email)
  : gostring * option error :=
let buf := [] in
let outerBoundary := outerBoundary clock in
let innerBoundary := innerBoundary clock in
let buf := write_headers host clock email buf in
let buf :=
  if (0 <? Z.of_nat (length (Attachments email)))%Z then
    let buf := WriteString buf (str "Content-Type: multipart/mixed; boundary=" ++ DQUOTE
                 ++ outerBoundary ++ DQUOTE ++ CRLF) in
    let buf := WriteString buf CRLF in
    let buf := WriteString buf (str "--" ++ outerBoundary ++ CRLF) in
    let buf := WriteString buf (str "Content-Type: multipart/alternative; boundary=" ++ DQUOTE
                 ++ innerBoundary ++ DQUOTE ++ CRLF) in
    let buf := WriteString buf CRLF in
    let buf := write_bodies innerBoundary email buf in
    let buf := WriteString buf (str "--" ++ innerBoundary ++ str "--" ++ CRLF) in
    let buf := WriteString buf CRLF in
    let buf := fold_left (write_attachment outerBoundary) (Attachments email) buf in
    WriteString buf (str "--" ++ outerBoundary ++ str "--" ++ CRLF)
  else
    let buf := WriteString buf (str "Content-Type: multipart/alternative; boundary=" ++ DQUOTE
                 ++ innerBoundary ++ DQUOTE ++ CRLF) in
    let buf := WriteString buf CRLF in
    let buf := write_bodies innerBoundary email buf in
    WriteString buf (str "--" ++ innerBoundary ++ str "--" ++ CRLF) in
(buf, None).

(** The outside of one [Send]: the pool's [Get], the clock, and the error,
    if any, of each protocol command ([rcptErr i] for the [i]th
    recipient). *)
Record SendEnv : Type := mkSendEnv {
  getEnv : GetEnv;
  clock : Clock;
  mailErr : option error;
  rcptErr : nat -> option error;
  dataErr : option error;
  writeErr : option error;
  closeErr : option error;
  resetErr : option error
}.

(** The loop over the recipients, from the [i]th on. *)
Fixpoint rcpt_loop (env : SendEnv) (conn : Conn) (i : nat) (addrs : list gostring)
  (tr : list Event) : option error * list Event :=
match addrs with
| [] => (None, tr)
| addr :: rest =>
    let tr := tr ++ [EvRcpt conn addr] in
    match rcptErr env i with
    | Some e =>
        (Some (wrapError (str "RCPT TO " ++ addr ++ str " failed: " ++ Error e) e), tr)
    | None => rcpt_loop env conn (S i) rest tr
    end
end.

Definition sendWithConnection (env : SendEnv) (conn : Conn) (email : Email)
  (message : gostring) : option error * list Event :=
let tr := [EvMail conn (From email)] in
match mailErr env with
| Some e => (Some (wrap "MAIL FROM failed: " e), tr)
| None =>
    let allRecipients := (To email ++ Cc email) ++ Bcc email in
    match rcpt_loop env conn 0 allRecipients tr with
    | (Some e, tr) => (Some e, tr)
    | (None, tr) =>
        let tr := tr ++ [EvData conn] in
        match dataErr env with
        | Some e => (Some (wrap "DATA failed: " e), tr)
        | None =>
            let tr := tr ++ [EvWrite conn message] in
            match writeErr env with
            | Some e => (Some (wrap "write failed: " e), tr)
            | None =>
                let tr := tr ++ [EvDataClose conn] in
                match closeErr env with
                | Some e => (Some (wrap "close failed: " e), tr)
                | None => (resetErr env, tr ++ [EvReset conn])
                end
            end
        end
    end
end.

(** [Send].  The deferred [c.pool.Put(conn)] runs when the function
    returns, whatever the path. *)
Definition Send (env : SendEnv) (c : SMTPClient) (email : Email)
  : option error * SMTPClient * list Event :=
match Get (getEnv env) (pool c) with
| (inr err, p, tr) =>
    (Some (wrap "failed to get connection: " err), mkClient (cconfig c) p, tr)
| (inl conn, p, tr) =>
    let '(result, tr) :=
      match buildMessage (Host (cconfig c)) (clock env) email with
      | (_, Some err) => (Some (wrap "failed to build message: " err), tr)
      | (message, None) =>
          match sendWithConnection env conn email message with
          | (Some err, tr') => (Some (wrap "failed to send: " err), tr ++ tr')
          | (None, tr') => (None, tr ++ tr')
          end
      end in
    let '(_, p, tr') := Put conn p in
    (result, mkClient (cconfig c) p, tr ++ tr')
end.

End Builder.

(** [NewSMTPClient]; [None] is the panic of [NewConnectionPool]. *)
Definition NewSMTPClient (config : SMTPConfig) (dials : nat -> DialEnv)
  : option ((SMTPClient + error) * list Event) :=
match NewConnectionPool config (PoolSize config) dials with
| None => None
| Some (inr err, tr) =>
    Some (inr (wrap "failed to create connection pool: " err), tr)
| Some (inl pool, tr) => Some (inl (mkClient config pool), tr)
end.

(** [SMTPClient.Close] *)
Definition SMTPClient_Close (c : SMTPClient) : option error * SMTPClient * list Event :=
let '(err, p, tr) := Close (pool c) in
(err, mkClient (cconfig c) p, tr).

End infrastructure.

(* ================================================================== *)
(** * Package [application] (application/email_service.go) *)

Module application.
Import domain.

Section EmailService.

(** The state of the sender behind the [EmailSender] interface. *)
Variable Sender : Type.

(** [s.sender.Send(ctx, email)]: the sender reads the email and does not
    change it, as [SMTPClient.Send] does. *)
Variable sender_Send : Email -> Sender -> option error * Sender.

(** The wait between two attempts of [retry.Do]. *)
Variable wait : option Z -> Sender -> option error * Sender.

Record EmailService : Type := mkService {
  retryConfig : retry.Config
}.

Definition NewEmailService : EmailService := mkService retry.DefaultConfig.

(** The closure [SendEmail] hands to [retry.Do]; it works on the email and
    on the sender. *)
Definition attempt (st : Email * Sender) : option error * (Email * Sender) :=
let '(email, sd) := st in
let email := set_Attempts email (wrap64 (Attempts email + 1)) in
let '(err, sd) := sender_Send email sd in
(err, (email, sd)).

Definition wait_st (delay : option Z) (st : Email * Sender)
  : option error * (Email * Sender) :=
let '(err, sd) := wait delay (snd st) in (err, (fst st, sd)).

(** [SendEmail]: the error returned, the email and the sender afterwards,
    and the trace of [retry.Do] (empty when validation fails).  [None] is
    never returned: see [SendEmail_total]. *)
Definition SendEmail (s : EmailService) (email : Email) (sd : Sender)
  : option (option error * Email * Sender * list retry.Event) :=
match Validate email with
| Some err =>
    Some (Some (wrapError (str "validation failed: " ++ Error err) err), email, sd, [])
| None =>
    let email := set_Status email StatusSending in
    match retry.Do attempt wait_st (retryConfig s) (email, sd) with
    | None => None
    | Some (Some err, (email, sd), tr) =>
        let email := set_Status email StatusFailed in
        let email := set_LastError email (Error err) in
        Some (Some (wrapError (str "failed to send email: " ++ Error err) err),
              email, sd, tr)
    | Some (None, (email, sd), tr) =>
        let email := set_Status email StatusSent in
        Some (None, email, sd, tr)
    end
end.

(** The emails behind the pointers of a slice [[]*domain.Email]: a
    pointer is a [nat] (never [nil]) and the heap gives the email it
    points to, so that a pointer held twice is one email. *)
Definition Heap := nat -> Email.

Definition heap_set (h : Heap) (p : nat) (e : Email) : Heap :=
fun q => if Nat.eqb q p then e else h q.

(** The loop of [SendBulkEmails] over the pointers that remain; [sent] is
    the calls of [SendEmail] so far, each with the pointer and what the
    call returned.  The lines written to the log are left out, as in
    [SendEmail]. *)
Fixpoint SendBulkEmails_loop (s : EmailService) (emails : list nat) (h : Heap)
  (sd : Sender) (successCount failCount : Z) (sent : list (nat * option error))
  : option (Z * Z * Heap * Sender * list (nat * option error)) :=
match emails with
| [] => Some (successCount, failCount, h, sd, sent)
| email :: rest =>
    match SendEmail s (h email) sd with
    | None => None
    | Some (err, e, sd, _) =>
        let h := heap_set h email e in
        let sent := sent ++ [(email, err)] in
        match err with
        | Some _ =>
            SendBulkEmails_loop s rest h sd successCount (wrap64 (failCount + 1)) sent
        | None =>
            SendBulkEmails_loop s rest h sd (wrap64 (successCount + 1)) failCount sent
        end
    end
end.

(** [SendBulkEmails]: the error returned, the heap and the sender
    afterwards, and the calls of [SendEmail]. *)
Definition SendBulkEmails (s : EmailService) (emails : list nat) (h : Heap) (sd : Sender)
  : option (option error * Heap * Sender * list (nat * option error)) :=
match SendBulkEmails_loop s emails h sd 0 0 [] with
| None => None
| Some (successCount, failCount, h, sd, sent) =>
    if (failCount >? 0)%Z
    then Some (Some (errorString (str "failed to send " ++ itoa failCount
                       ++ str " out of " ++ itoa (Z.of_nat (length emails))
                       ++ str " emails")), h, sd, sent)
    else Some (None, h, sd, sent)
end.

End EmailService.

End application.

(* ================================================================== *)
(** * The program of the production client (main.go) *)

Module production.

(** The configuration [main] hands to [NewSMTPClient]. *)
Definition smtpConfig (cfg : config.Config) : infrastructure.SMTPConfig :=
infrastructure.mkSMTPConfig (config.Host (config.SMTP cfg)) (config.Port (config.SMTP cfg))
  (config.Username (config.SMTP cfg)) (config.Password (config.SMTP cfg))
  (config.PoolSize (config.SMTP cfg)).

End production.

(* ================================================================== *)
(** * The program with attachments
      (complete-smtp-service-with-attachments/main.go) *)

Module complete.

(** [generateBoundary]; [now] is the reading of [time.Now().UnixNano()]. *)
Definition generateBoundary (now : Z) : gostring := str "boundary_" ++ itoa now.

(** The loop of [encodeAttachment] from index [i]; [result] is the
    [strings.Builder]. *)
Fixpoint encodeAttachment_loop (fuel : nat) (i : Z) (encoded result : gostring)
  : gostring :=
match fuel with
| O => result
| S fuel' =>
    if (i <? len encoded)%Z then
      let end_ := (i + 76)%Z in
      let end_ := if (end_ >? len encoded)%Z then len encoded else end_ in
      let result := result ++ slice encoded i end_ in
      let result := result ++ CRLF in
      encodeAttachment_loop fuel' (i + 76) encoded result
    else result
end.

Definition encodeAttachment (data : list Byte.byte) : gostring :=
let encoded := base64.EncodeToString data in
encodeAttachment_loop (length encoded) 0 encoded [].

End complete.

(* ================================================================== *)
(** * The program that sends one email with attachments
      ([EmailWithAttachments]) *)

Module attachments.

Record EmailAttachment : Type := mkEmailAttachment {
  Filename : gostring;
  ContentType : gostring;
  Data : list Byte.byte
}.

Record EmailWithAttachments : Type := mkEmailWithAttachments {
  From : gostring;
  To : list gostring;
  Subject : gostring;
  TextBody : gostring;
  HTMLBody : gostring;
  Attachments : list EmailAttachment
}.

Section Build.

(** [mime.BEncoding.Encode("UTF-8", s)] of the standard library. *)
Variable BEncode : gostring -> gostring.

(** The loop that writes the base64 text in lines of 76 characters, from
    index [i]. *)
Fixpoint write_lines (fuel : nat) (i : Z) (encoded buf : gostring) : gostring :=
match fuel with
| O => buf
| S fuel' =>
    if (i <? len encoded)%Z then
      let end_ := (i + 76)%Z in
      let end_ := if (end_ >? len encoded)%Z then len encoded else end_ in
      let buf := buf ++ slice encoded i end_ in
      let buf := buf ++ CRLF in
      write_lines fuel' (i + 76) encoded buf
    else buf
end.

(** The body of the loop over the attachments. *)
Definition write_attachment (outerBoundary : gostring) (buf : gostring)
  (att : EmailAttachment) : gostring :=
let buf := buf ++ (str "--" ++ outerBoundary ++ CRLF) in
let buf := buf ++ (str "Content-Type: " ++ ContentType att
             ++ str "; name=" ++ DQUOTE ++ Filename att ++ DQUOTE ++ CRLF) in
let buf := buf ++ (str "Content-Transfer-Encoding: base64" ++ CRLF) in
let buf := buf ++ (str "Content-Disposition: attachment; filename=" ++ DQUOTE
             ++ Filename att ++ DQUOTE ++ CRLF) in
let buf := buf ++ CRLF in
let encoded := base64.EncodeToString (Data att) in
let buf := write_lines (length encoded) 0 encoded buf in
buf ++ CRLF.

(** [Build]; [nowOuter] and [nowInner] are the readings of
    [time.Now().UnixNano()] for the two boundaries and [nowDate] is the
    formatted date. *)
Definition Build (nowOuter nowInner : Z) (nowDate : gostring)
  (e : EmailWithAttachments) : gostring :=
let buf : gostring := [] in
let outerBoundary := str "outer_" ++ itoa nowOuter in
let innerBoundary := str "inner_" ++ itoa (wrap64 (nowInner + 1)) in
let buf := buf ++ (str "From: " ++ From e ++ CRLF) in
let buf := buf ++ (str "To: " ++ Join (To e) (str ", ") ++ CRLF) in
let buf := buf ++ (str "Subject: " ++ BEncode (Subject e) ++ CRLF) in
let buf := buf ++ (str "Date: " ++ nowDate ++ CRLF) in
let buf := buf ++ (str "MIME-Version: 1.0" ++ CRLF) in
let buf := buf ++ (str "Content-Type: multipart/mixed; boundary=" ++ DQUOTE
             ++ outerBoundary ++ DQUOTE ++ CRLF) in
let buf := buf ++ CRLF in
let buf := buf ++ (str "--" ++ outerBoundary ++ CRLF) in
let buf := buf ++ (str "Content-Type: multipart/alternative; boundary=" ++ DQUOTE
             ++ innerBoundary ++ DQUOTE ++ CRLF) in
let buf := buf ++ CRLF in
let buf := buf ++ (str "--" ++ innerBoundary ++ CRLF) in
let buf := buf ++ (str "Content-Type: text/plain; charset=UTF-8" ++ CRLF) in
let buf := buf ++ CRLF in
let buf := buf ++ TextBody e in
let buf := buf ++ (CRLF ++ CRLF) in
let buf := buf ++ (str "--" ++ innerBoundary ++ CRLF) in
let buf := buf ++ (str "Content-Type: text/html; charset=UTF-8" ++ CRLF) in
let buf := buf ++ CRLF in
let buf := buf ++ HTMLBody e in
let buf := buf ++ (CRLF ++ CRLF) in
let buf := buf ++ (str "--" ++ innerBoundary ++ str "--" ++ CRLF) in
let buf := buf ++ CRLF in
let buf := fold_left (write_attachment outerBoundary) (Attachments e) buf in
buf ++ (str "--" ++ outerBoundary ++ str "--" ++ CRLF).

End Build.

End attachments.

(* ================================================================== *)
(** * The program that sends one HTML email (its [loadSMTPConfig]) *)

Module htmlmail.

Record SMTPConfig : Type := mkSMTPConfig {
  Host : gostring;
  Port : gostring;
  From : gostring;
  Password : gostring
}.

(** [loadSMTPConfig]; [env] is [os.Getenv] once the [.env] file was
    read. *)
Definition loadSMTPConfig (env : gostring -> gostring) : SMTPConfig + error :=
let config := mkSMTPConfig (env (str "SMTP_HOST")) (env (str "SMTP_PORT"))
                           (env (str "SMTP_FROM")) (env (str "SMTP_PASSWORD")) in
let missing : list gostring := [] in
let missing := if gostr.eqb (Host config) [] then missing ++ [str "SMTP_HOST"] else missing in
let missing := if gostr.eqb (Port config) [] then missing ++ [str "SMTP_PORT"] else missing in
let missing := if gostr.eqb (From config) [] then missing ++ [str "SMTP_FROM"] else missing in
let missing := if gostr.eqb (Password config) [] then missing ++ [str "SMTP_PASSWORD"] else missing in
if (Z.of_nat (length missing) >? 0)%Z
then inr (errorString (str "missing environment variables: " ++ Join missing (str ", ")))
else inl config.

End htmlmail.
(* ================================================================== *)
(** * Specification-level notions *)

(** [sub] occurs in [s]. *)
Definition Contains (s sub : gostring) : Prop :=
exists a b, s = a ++ sub ++ b.

(** An error text that [IsRetryable] classifies as permanent: it holds one
    of the permanent codes and none of the transient indicators. *)
Definition PermanentText (s : gostring) : Prop :=
(exists p, In p retry.permanentErrors /\ Contains s p) /\
(forall t, In t retry.temporaryErrors -> ~ Contains s t).

(** ** [SendEmail] *)

(** One more attempt, in 64-bit arithmetic. *)
Definition incr (attempts : Z) : Z := wrap64 (attempts + 1).

(** An email with its three delivery fields blanked: what [SendEmail]
    leaves alone. *)
Definition content (e : domain.Email) : domain.Email :=
domain.set_LastError (domain.set_Status (domain.set_Attempts e 0) domain.StatusPending) [].

(** ** The pool and its callers

    A state of the pool with its callers: the pool, and the connections
    that [Get] handed out and that were not passed to [Put] yet. *)
Record PoolState : Type := mkPoolState {
  the_pool : infrastructure.ConnectionPool;
  checkedOut : list infrastructure.Conn
}.

(** The operations of the callers.  [OpPut conn] is a caller returning a
    connection it holds. *)
Inductive PoolOp : Type :=
| OpGet (env : infrastructure.GetEnv)
| OpPut (conn : infrastructure.Conn)
| OpClose.

(** [l] without one occurrence of [c], when it has one. *)
Fixpoint take_out (c : infrastructure.Conn) (l : list infrastructure.Conn)
  : option (list infrastructure.Conn) :=
match l with
| [] => None
| x :: l' =>
    if Nat.eqb x c then Some l'
    else match take_out c l' with
         | Some r => Some (x :: r)
         | None => None
         end
end.

(** One operation; [None] when a caller would return a connection it does
    not hold. *)
Definition pool_step (s : PoolState) (op : PoolOp) : option PoolState :=
match op with
| OpGet env =>
    match infrastructure.Get env (the_pool s) with
    | (inl conn, p, _) => Some (mkPoolState p (conn :: checkedOut s))
    | (inr _, p, _) => Some (mkPoolState p (checkedOut s))
    end
| OpPut conn =>
    match take_out conn (checkedOut s) with
    | Some rest =>
        let '(_, p, _) := infrastructure.Put conn (the_pool s) in
        Some (mkPoolState p rest)
    | None => None
    end
| OpClose =>
    let '(_, p, _) := infrastructure.Close (the_pool s) in
    Some (mkPoolState p (checkedOut s))
end.

Fixpoint pool_run (s : PoolState) (ops : list PoolOp) : option PoolState :=
match ops with
| [] => Some s
| op :: rest =>
    match pool_step s op with
    | Some s' => pool_run s' rest
    | None => None
    end
end.

(** The connections outstanding: buffered in the pool or checked out. *)
Definition outstanding (s : PoolState) : nat :=
(length (infrastructure.connections (the_pool s)) + length (checkedOut s))%nat.

(** The events of a trace that are calls of [Put]. *)
Definition is_put (ev : infrastructure.Event) : bool :=
match ev with infrastructure.EvPut _ => true | _ => false end.

(** The events of a trace that are SMTP commands on a connection. *)
Definition is_command (ev : infrastructure.Event) : bool :=
match ev with
| infrastructure.EvMail _ _ | infrastructure.EvRcpt _ _ | infrastructure.EvData _
| infrastructure.EvWrite _ _ | infrastructure.EvDataClose _
| infrastructure.EvReset _ => true
| _ => false
end.

(** ** The MIME structure of a message

    A message body as the specification describes it: a leaf with a text
    body, an attachment, or a multipart entity with its boundary and its
    parts in order. *)
#[local] Unset Elimination Schemes.
Inductive Entity : Type :=
| TextEntity (contentType body : gostring)
| AttachmentEntity (att : domain.Attachment)
| MultipartEntity (subtype boundary : gostring) (parts : list Entity).
#[local] Set Elimination Schemes.

(** [s] cut into pieces of 76 characters, the last one possibly shorter. *)
Fixpoint lines76 (fuel : nat) (s : gostring) : list gostring :=
match fuel with
| O => []
| S fuel' =>
    match s with
    | [] => []
    | _ :: _ => firstn 76 s :: lines76 fuel' (skipn 76 s)
    end
end.

(** The base64 lines of an attachment. *)
Definition base64_lines (data : list Byte.byte) : list gostring :=
lines76 (length (base64.EncodeToString data)) (base64.EncodeToString data).

(** The header lines of an attachment part. *)
Definition attachment_headers (att : domain.Attachment) : gostring :=
str "Content-Type: " ++ domain.ContentType att ++ str "; name=" ++ DQUOTE
  ++ domain.Filename att ++ DQUOTE ++ CRLF
++ str "Content-Transfer-Encoding: base64" ++ CRLF
++ str "Content-Disposition: attachment; filename=" ++ DQUOTE
  ++ domain.Filename att ++ DQUOTE ++ CRLF.

(** The wire form of an entity: its header lines, an empty line and its
    content.  Inside a multipart entity every part stands between its
    opening delimiter line [--boundary] and an empty line, and the
    closing delimiter line [--boundary--] follows the last part. *)
Fixpoint render (e : Entity) : gostring :=
match e with
| TextEntity contentType body =>
    str "Content-Type: " ++ contentType ++ CRLF ++ CRLF ++ body ++ CRLF
| AttachmentEntity att =>
    attachment_headers att ++ CRLF
    ++ concat (map (fun l => l ++ CRLF) (base64_lines (domain.Data att)))
| MultipartEntity subtype boundary parts =>
    str "Content-Type: multipart/" ++ subtype ++ str "; boundary=" ++ DQUOTE
      ++ boundary ++ DQUOTE ++ CRLF ++ CRLF
    ++ concat (map (fun p => str "--" ++ boundary ++ CRLF ++ render p ++ CRLF) parts)
    ++ str "--" ++ boundary ++ str "--" ++ CRLF
end.

(** The text and HTML sub-parts whose body is present. *)
Definition body_parts (email : domain.Email) : list Entity :=
(if gostr.eqb (domain.TextBody email) [] then []
 else [TextEntity (str "text/plain; charset=UTF-8") (domain.TextBody email)])
++
(if gostr.eqb (domain.HTMLBody email) [] then []
 else [TextEntity (str "text/html; charset=UTF-8") (domain.HTMLBody email)]).

(** The alternative block of the text and HTML bodies. *)
Definition alternative_block (clock : infrastructure.Clock) (email : domain.Email) : Entity :=
MultipartEntity (str "alternative") (infrastructure.innerBoundary clock) (body_parts email).

(** The body the specification prescribes: the alternative block alone
    without attachments; with attachments a mixed entity whose first part
    is the alternative block and whose other parts are the attachments. *)
Definition mime_of (clock : infrastructure.Clock) (email : domain.Email) : Entity :=
match domain.Attachments email with
| [] => alternative_block clock email
| _ :: _ =>
    MultipartEntity (str "mixed") (infrastructure.outerBoundary clock)
      (alternative_block clock email :: map AttachmentEntity (domain.Attachments email))
end.

(** ** Lines of a message *)

(** Every CR of [s] is followed by LF and every LF follows a CR: the only
    line terminator of [s] is CRLF. *)
Fixpoint crlf_only (s : gostring) : bool :=
match s with
| [] => true
| c :: rest =>
    if Ascii.eqb c CR then
      match rest with
      | d :: rest' => Ascii.eqb d LF && crlf_only rest'
      | [] => false
      end
    else if Ascii.eqb c LF then false
    else crlf_only rest
end.

(** [s] holds no CR and no LF. *)
Definition single_line (s : gostring) : bool :=
forallb (fun c => negb (Ascii.eqb c CR) && negb (Ascii.eqb c LF)) s.

(** The number of lines of [s] that are equal to [d], a line being what
    stands between two LFs (or before the first one); [cur] is the part of
    the current line that was read before [s]. *)
Fixpoint count_lines (d cur s : gostring) : nat :=
match s with
| [] => 0
| c :: s' =>
    if Ascii.eqb c LF
    then ((if gostr.eqb cur d then 1 else 0) + count_lines d [] s')%nat
    else count_lines d (cur ++ [c]) s'
end.

(** The delimiter lines of a boundary, without their LF: [--boundary] and
    [--boundary--], each followed by CR. *)
Definition opening (boundary : gostring) : gostring := str "--" ++ boundary ++ [CR].
Definition closing (boundary : gostring) : gostring :=
str "--" ++ boundary ++ str "--" ++ [CR].

(** The texts that go into header lines hold no CR and no LF. *)
Definition header_texts_single_line (BEncode : gostring -> gostring)
  (host : gostring) (clock : infrastructure.Clock) (email : domain.Email) : Prop :=
single_line (domain.From email) = true /\
Forall (fun a => single_line a = true) (domain.To email) /\
Forall (fun a => single_line a = true) (domain.Cc email) /\
single_line (BEncode (domain.Subject email)) = true /\
single_line (infrastructure.nowDate clock) = true /\
single_line host = true /\
Forall (fun kv => single_line (fst kv) = true /\ single_line (snd kv) = true)
       (domain.Headers email) /\
Forall (fun att => single_line (domain.ContentType att) = true /\
                   single_line (domain.Filename att) = true)
       (domain.Attachments email).

(** The bodies end their lines with CRLF and hold neither boundary. *)
Definition bodies_clean (clock : infrastructure.Clock) (email : domain.Email) : Prop :=
Forall (fun body =>
          crlf_only body = true /\
          ~ Contains body (infrastructure.innerBoundary clock) /\
          ~ Contains body (infrastructure.outerBoundary clock))
       [domain.TextBody email; domain.HTMLBody email].

(** The message line by line. *)
Inductive Which : Type := Inner | Outer.

Inductive Item : Type :=
| Field (x : gostring)
| Blank
| Text (body : gostring)
| Base64Line (l : gostring)
| Opening (w : Which)
| Closing (w : Which).

Definition boundary_of (clock : infrastructure.Clock) (w : Which) : gostring :=
match w with
| Inner => infrastructure.innerBoundary clock
| Outer => infrastructure.outerBoundary clock
end.

Definition item_text (clock : infrastructure.Clock) (it : Item) : gostring :=
match it with
| Field x => x ++ CRLF
| Blank => CRLF
| Text body => body ++ CRLF
| Base64Line l => l ++ CRLF
| Opening w => str "--" ++ boundary_of clock w ++ CRLF
| Closing w => str "--" ++ boundary_of clock w ++ str "--" ++ CRLF
end.

Definition items_text (clock : infrastructure.Clock) (l : list Item) : gostring :=
concat (map (item_text clock) l).

Definition header_items (BEncode : gostring -> gostring) (host : gostring)
  (clock : infrastructure.Clock) (email : domain.Email) : list Item :=
[Field (str "From: " ++ domain.From email);
 Field (str "To: " ++ Join (domain.To email) (str ", "))]
++ (if (0 <? Z.of_nat (length (domain.Cc email)))%Z
    then [Field (str "Cc: " ++ Join (domain.Cc email) (str ", "))] else [])
++ [Field (str "Subject: " ++ BEncode (domain.Subject email));
    Field (str "Date: " ++ infrastructure.nowDate clock);
    Field (str "Message-ID: <" ++ itoa (infrastructure.nowMessageID clock)
           ++ str "@" ++ host ++ str ">")]
++ map (fun kv => Field (fst kv ++ str ": " ++ snd kv)) (domain.Headers email)
++ match domain.Priority_ email with
   | domain.PriorityHigh => [Field (str "X-Priority: 1"); Field (str "Importance: high")]
   | domain.PriorityLow => [Field (str "X-Priority: 5"); Field (str "Importance: low")]
   | domain.PriorityNormal => []
   end
++ [Field (str "MIME-Version: 1.0")].

Definition body_items (email : domain.Email) : list Item :=
(if gostr.eqb (domain.TextBody email) [] then []
 else [Opening Inner; Field (str "Content-Type: text/plain; charset=UTF-8"); Blank;
       Text (domain.TextBody email); Blank])
++
(if gostr.eqb (domain.HTMLBody email) [] then []
 else [Opening Inner; Field (str "Content-Type: text/html; charset=UTF-8"); Blank;
       Text (domain.HTMLBody email); Blank]).

Definition attachment_items (att : domain.Attachment) : list Item :=
[Opening Outer;
 Field (str "Content-Type: " ++ domain.ContentType att ++ str "; name=" ++ DQUOTE
        ++ domain.Filename att ++ DQUOTE);
 Field (str "Content-Transfer-Encoding: base64");
 Field (str "Content-Disposition: attachment; filename=" ++ DQUOTE
        ++ domain.Filename att ++ DQUOTE);
 Blank]
++ map Base64Line (base64_lines (domain.Data att))
++ [Blank].

Definition alternative_items (clock : infrastructure.Clock) (email : domain.Email)
  : list Item :=
[Field (str "Content-Type: multipart/alternative; boundary=" ++ DQUOTE
        ++ infrastructure.innerBoundary clock ++ DQUOTE);
 Blank]
++ body_items email
++ [Closing Inner].

Definition message_items (BEncode : gostring -> gostring) (host : gostring)
  (clock : infrastructure.Clock) (email : domain.Email) : list Item :=
header_items BEncode host clock email
++ match domain.Attachments email with
   | [] => alternative_items clock email
   | _ :: _ =>
       [Field (str "Content-Type: multipart/mixed; boundary=" ++ DQUOTE
               ++ infrastructure.outerBoundary clock ++ DQUOTE);
        Blank; Opening Outer]
       ++ alternative_items clock email
       ++ [Blank]
       ++ flat_map attachment_items (domain.Attachments email)
       ++ [Closing Outer]
   end.

(** The items that open, or close, the boundary [w]. *)
Definition opens (w : Which) (it : Item) : bool :=
match it, w with
| Opening Inner, Inner | Opening Outer, Outer => true
| _, _ => false
end.

Definition closes (w : Which) (it : Item) : bool :=
match it, w with
| Closing Inner, Inner | Closing Outer, Outer => true
| _, _ => false
end.

Definition is_space (c : ascii) : bool := Ascii.eqb c " ".
Definition is_dash (c : ascii) : bool := Ascii.eqb c "-".
Definition is_underscore (c : ascii) : bool := Ascii.eqb c "_".
Definition is_eol (c : ascii) : bool := Ascii.eqb c CR || Ascii.eqb c LF.

(** A character of a decimal numeral: a digit or the sign. *)
Definition decimal_char (c : ascii) : bool := regexp.digit c || is_dash c.

(** The characters of base64 text: the alphabet and the padding. *)
Definition base64_char (c : ascii) : bool :=
existsb (Ascii.eqb c) (base64.padChar :: base64.alphabet).

(** What the line structure asks of an item: a header line is one line
    and has a space in it, a body ends its lines with CRLF and holds no
    boundary, a line of base64 text is made of base64 characters. *)
Definition item_ok (clock : infrastructure.Clock) (it : Item) : Prop :=
match it with
| Field x => single_line x = true /\ existsb is_space x = true
| Text body =>
    crlf_only body = true /\
    ~ Contains body (infrastructure.innerBoundary clock) /\
    ~ Contains body (infrastructure.outerBoundary clock)
| Base64Line l => forallb base64_char l = true
| Blank | Opening _ | Closing _ => True
end.

Definition is_field (it : Item) : bool :=
match it with Field _ => true | _ => false end.

(** A delimiter line of the boundary [w]. *)
Definition delimiter_of (clock : infrastructure.Clock) (w : Which) (d : gostring) : Prop :=
d = opening (boundary_of clock w) \/ d = closing (boundary_of clock w).


(** ** Backoff *)

(** A zero or a finite float: not an infinity, not a NaN. *)
Definition finite (x : f64.float64) : bool :=
match x with
| S754_zero _ | S754_finite _ _ _ => true
| _ => false
end.

(** A float in canonical form, as every result of the arithmetic is. *)
Definition well_formed (x : f64.float64) : bool :=
finite x && valid_binary f64.prec f64.emax x.

(** The delay of the specification, in exact arithmetic:
    [min(initialDelay * multiplier^(n-1), maxDelay)]. *)
Definition ideal_backoff (n : Z) (config : retry.Config) : Q :=
Qmin (inject_Z (retry.InitialDelay config)
      * f64.to_Q (retry.Multiplier config) ^ (n - 1))
     (inject_Z (retry.MaxDelay config)).


(** The value of a canonical float, as a multiple of [2^-1074]. *)
Definition scaled (m : positive) (e : Z) : Z := Z.pos m * 2 ^ (e + 1074).

(** A float that is zero or positive. *)
Definition nonneg (x : f64.float64) : bool :=
match x with
| S754_zero _ | S754_finite false _ _ => true
| _ => false
end.




(** ** The language of a regular expression *)

(** The texts a regular expression denotes. *)
Fixpoint lang (r : regexp.regex) (s : gostring) : Prop :=
match r with
| regexp.Void => False
| regexp.Eps => s = []
| regexp.Class p => exists c, s = [c] /\ p c = true
| regexp.Cat r1 r2 => exists s1 s2, s = s1 ++ s2 /\ lang r1 s1 /\ lang r2 s2
| regexp.Alt r1 r2 => lang r1 s \/ lang r2 s
| regexp.Star r1 => exists l, s = concat l /\ Forall (lang r1) l
end.

(** The shape of an address the pattern of [isValidEmail] describes: a
    local part, [@], a domain part, a dot and a top-level part. *)
Definition address_shape (s : gostring) : Prop :=
exists local dom tld,
  s = local ++ str "@" ++ dom ++ str "." ++ tld /\
  local <> [] /\ forallb domain.local_char local = true /\
  dom <> [] /\ forallb domain.domain_char dom = true /\
  (2 <= length tld)%nat /\ forallb domain.alpha_char tld = true.

(** ** The runs of [retry.Do] *)

(** A failed attempt that is retried: the call, the notice, and the wait
    that the timer ends. *)
Definition retried (config : retry.Config) (attempt : Z) (e : error) : list retry.Event :=
[retry.EvCall attempt (Some e);
 retry.EvPrintf attempt e (retry.calculateBackoff attempt config);
 retry.EvWait (retry.calculateBackoff attempt config) false].

(** The retried attempts from [attempt] on, one per error. *)
Fixpoint retries (config : retry.Config) (attempt : Z) (errs : list error)
  : list retry.Event :=
match errs with
| [] => []
| e :: rest => retried config attempt e ++ retries config (attempt + 1) rest
end.

(** How a run ends at attempt [k]: the result of [Do] and the last
    events. *)
Inductive Ending (config : retry.Config) (k : Z) : option error -> list retry.Event -> Prop :=
| EndSuccess :
    Ending config k None [retry.EvCall k None]
| EndPermanent (e : error) :
    retry.IsRetryable e = false ->
    Ending config k (Some (retry.permanent k config e)) [retry.EvCall k (Some e)]
| EndExhausted (e : error) :
    retry.IsRetryable e = true ->
    k = retry.MaxAttempts config ->
    Ending config k (Some (retry.exhausted config (Some e))) [retry.EvCall k (Some e)]
| EndCancelled (e ctxErr : error) :
    retry.IsRetryable e = true ->
    k < retry.MaxAttempts config ->
    Ending config k (Some (retry.cancelled ctxErr))
      [retry.EvCall k (Some e);
       retry.EvPrintf k e (retry.calculateBackoff k config);
       retry.EvWait (retry.calculateBackoff k config) true].

(** The attempt numbers of the calls in a trace, in order. *)
Definition call_numbers (tr : list retry.Event) : list Z :=
flat_map (fun ev => match ev with retry.EvCall k _ => [k] | _ => [] end) tr.

(** [1; 2; ...; n] *)
Definition one_to (n : nat) : list Z := map (fun i => Z.of_nat (S i)) (seq 0 n).

(** ** [SendBulkEmails] *)

(** The calls of [SendEmail] that returned an error. *)
Definition failures (sent : list (nat * option error)) : list (nat * option error) :=
filter (fun x => match snd x with Some _ => true | None => false end) sent.

(** ** Connections in a trace *)

(** The clients a trace creates, closes and quits, in order. *)
Definition dialed (tr : list infrastructure.Event) : list infrastructure.Conn :=
flat_map (fun ev => match ev with infrastructure.EvDial c => [c] | _ => [] end) tr.

Definition conn_closed (tr : list infrastructure.Event) : list infrastructure.Conn :=
flat_map (fun ev => match ev with infrastructure.EvConnClose c => [c] | _ => [] end) tr.

Definition quits (tr : list infrastructure.Event) : list infrastructure.Conn :=
flat_map (fun ev => match ev with infrastructure.EvQuit c => [c] | _ => [] end) tr.

(** The outside of a [Get] that finds the connection it takes dead and
    cannot open another one. *)
Definition dead_and_unreachable (config : infrastructure.SMTPConfig)
  (env : infrastructure.GetEnv) : Prop :=
infrastructure.ctxDone env = None /\
infrastructure.noopErr env <> None /\
exists e ev, infrastructure.createConnection config (infrastructure.redial env) = (inr e, ev).

(** Calls of [Send] one after the other: the results and the client
    afterwards. *)
Fixpoint Sends (BEncode : gostring -> gostring)
  (jobs : list (infrastructure.SendEnv * domain.Email)) (c : infrastructure.SMTPClient)
  : list (option error) * infrastructure.SMTPClient :=
match jobs with
| [] => ([], c)
| (env, email) :: rest =>
    let '(r, c, _) := infrastructure.Send BEncode env c email in
    let '(rs, c) := Sends BEncode rest c in
    (r :: rs, c)
end.

(** The commands of a complete transaction on [conn], in order. *)
Definition transaction (conn : infrastructure.Conn) (email : domain.Email)
  (message : gostring) : list infrastructure.Event :=
[infrastructure.EvMail conn (domain.From email)]
++ map (infrastructure.EvRcpt conn)
       (domain.To email ++ domain.Cc email ++ domain.Bcc email)
++ [infrastructure.EvData conn; infrastructure.EvWrite conn message;
    infrastructure.EvDataClose conn; infrastructure.EvReset conn].

(** The error [Send] returns when no connection comes within the 30
    seconds of the timer. *)
Definition get_timeout : error :=
infrastructure.wrap "failed to get connection: "
  (errorString (str "timeout waiting for connection")).

(** ** Numerals and the environment *)

(** An optional sign followed by one decimal digit or more. *)
Definition numeral (s : gostring) : bool :=
let digits :=
  match s with
  | "-"%char :: rest => rest
  | "+"%char :: rest => rest
  | _ => s
  end in
negb (gostr.eqb digits []) && forallb regexp.digit digits.

(** The variables [loadSMTPConfig] requires, in the order in which it
    looks at them. *)
Definition required_variables : list gostring :=
[str "SMTP_HOST"; str "SMTP_PORT"; str "SMTP_FROM"; str "SMTP_PASSWORD"].

(** A text without its line terminators. *)
Definition without_eol (s : gostring) : gostring :=
filter (fun c => negb (is_eol c)) s.

(** ** The client as the sender of the service *)

(** [SMTPClient] behind the [EmailSender] interface: the client, the
    number of calls of [Send] so far and what they did to the network. *)
Definition ClientSender : Type :=
(infrastructure.SMTPClient * nat * list infrastructure.Event)%type.

(** [s.sender.Send(ctx, email)] when the sender is the client; [envs k] is
    the outside of the call number [k]. *)
Definition client_Send (BEncode : gostring -> gostring)
  (envs : nat -> infrastructure.SendEnv) (email : domain.Email) (sd : ClientSender)
  : option error * ClientSender :=
let '(c, k, tr) := sd in
let '(r, c, tr') := infrastructure.Send BEncode (envs k) c email in
(r, (c, S k, tr ++ tr')).

(** An outside in which the context is not done, the connection is alive
    and the server accepts every command. *)
Definition all_accepted (env : infrastructure.SendEnv) : Prop :=
infrastructure.ctxDone (infrastructure.getEnv env) = None /\
infrastructure.noopErr (infrastructure.getEnv env) = None /\
infrastructure.mailErr env = None /\
(forall i, infrastructure.rcptErr env i = None) /\
infrastructure.dataErr env = None /\
infrastructure.writeErr env = None /\
infrastructure.closeErr env = None /\
infrastructure.resetErr env = None.

(** The delays of the waits in a trace, in order. *)
Definition wait_delays (tr : list retry.Event) : list (option Z) :=
flat_map (fun ev => match ev with retry.EvWait d _ => [d] | _ => [] end) tr.

(** The error [Send] returns on a closed pool. *)
Definition get_closed : error :=
infrastructure.wrap "failed to get connection: " (errorString (str "pool is closed")).

(** ** The two builders *)

(** An email of the client as an email of the program with attachments:
    the fields both have. *)
Definition as_EmailWithAttachments (e : domain.Email) : attachments.EmailWithAttachments :=
attachments.mkEmailWithAttachments (domain.From e) (domain.To e) (domain.Subject e)
  (domain.TextBody e) (domain.HTMLBody e)
  (map (fun att => attachments.mkEmailAttachment (domain.Filename att)
                     (domain.ContentType att) (domain.Data att))
       (domain.Attachments e)).

(** ** Concrete inputs *)

Definition clock0 : infrastructure.Clock := infrastructure.mkClock 1000 2000 (str "date") 3000.

(** An email built with a malformed carbon-copy address. *)
Definition email_with_bad_cc : domain.EmailBuilder :=
domain.builder_TextBody
  (domain.builder_Subject
    (domain.builder_Bcc
      (domain.builder_Cc
        (domain.builder_To
          (domain.builder_From (domain.NewEmailBuilder 0) (str "sender@example.com"))
          [str "rcpt@example.com"])
        [str "not an address"])
      [str "also@@bad"])
    (str "subject"))
  (str "text").

(** An operation that always returns the same error and leaves the state
    alone, and a context that is never done. *)
Definition always_fails (e : error) (st : unit) : option error * unit := (Some e, st).
Definition never_done (delay : option Z) (st : unit) : option error * unit := (None, st).

(** A context that is done during the first wait. *)
Definition done_at_once (delay : option Z) (st : unit) : option error * unit :=
(Some (errorString (str "context canceled")), st).

Definition err_550_timeout : error :=
errorString (str "550 mailbox unavailable: connection timeout").

Definition err_550 : error := errorString (str "550 mailbox unavailable").

Definition err_451 : error := errorString (str "451 local error in processing").

(** A sender that fails with a 451 error on its first call and succeeds
    afterwards ([sd] counts the calls so far), and an email that still
    carries the error text of an earlier failed send. *)
Definition flaky_sender (e : domain.Email) (sd : nat) : option error * nat :=
match sd with
| O => (Some err_451, S sd)
| _ => (None, S sd)
end.

Definition never_done_nat (delay : option Z) (sd : nat) : option error * nat := (None, sd).

Definition stale_email : domain.Email :=
domain.mkEmail [] (str "sender@example.com") [str "rcpt@example.com"] [] []
  (str "subject") (str "text") [] [] [] domain.PriorityNormal 0
  domain.StatusFailed 5 (str "max attempts reached (5): 451 local error").

(** A configuration and a dial that succeeds with the connection [i]. *)
Definition smtp_config : infrastructure.SMTPConfig :=
infrastructure.mkSMTPConfig (str "smtp.example.com") (str "587") (str "user")
  (str "secret") 2.

Definition dial_ok (i : nat) : infrastructure.DialEnv :=
infrastructure.mkDialEnv i None None None None None None.

Definition get_ok : infrastructure.GetEnv :=
infrastructure.mkGetEnv None None (dial_ok 7) true.


(** An outside where the server refuses the second recipient. *)
Definition env_rcpt_refused : infrastructure.SendEnv :=
infrastructure.mkSendEnv get_ok clock0 None
  (fun i => match i with 1%nat => Some err_550 | _ => None end)
  None None None None.

Definition client0 : infrastructure.SMTPClient :=
infrastructure.mkClient smtp_config
  (infrastructure.mkPool smtp_config 2 [0%nat; 1%nat] false).

(** An email with a text body, an HTML body and one attachment. *)
Definition email_with_attachment : domain.Email :=
domain.mkEmail [] (str "sender@example.com") [str "rcpt@example.com"] [] []
  (str "subject") (str "text") (str "<p>html</p>")
  [domain.mkAttachment (str "notes.txt") (str "text/plain")
     (map byte_of_ascii (str "The quick brown fox jumps over the lazy dog, twice over: the quick brown fox jumps over the lazy dog."))]
  [] domain.PriorityNormal 0 domain.StatusPending 0 [].


(** A valid email whose text body has a bare LF and the inner boundary of
    [clock0] in it, and that has an HTML body too. *)
Definition email_with_boundary_in_body : domain.Email :=
domain.mkEmail [] (str "sender@example.com") [str "rcpt@example.com"] [] []
  (str "subject") (str "see --inner_2001" ++ [LF] ++ str "bye") (str "<p>html</p>")
  [] [] domain.PriorityNormal 0 domain.StatusPending 0 [].



(** An outside in which every command is accepted. *)
Definition env_ok : infrastructure.SendEnv :=
infrastructure.mkSendEnv get_ok clock0 None (fun _ => None) None None None None.

(** An outside in which the connection taken from the pool is dead and
    the server refuses the dial. *)
Definition dial_refused : infrastructure.DialEnv :=
infrastructure.mkDialEnv 9%nat None None
  (Some (errorString (str "dial tcp: connection refused"))) None None None.

Definition get_dead : infrastructure.GetEnv :=
infrastructure.mkGetEnv None (Some (errorString (str "EOF"))) dial_refused true.

Definition env_dead : infrastructure.SendEnv :=
infrastructure.mkSendEnv get_dead clock0 None (fun _ => None) None None None None.


(** A heap whose email at the address 1 has no sender. *)
Definition heap0 : application.Heap :=
fun p => match p with
         | 1%nat => domain.email (domain.NewEmailBuilder 0)
         | _ => stale_email
         end.

(** An environment whose pool size is not a number. *)
Definition environ_pool_five : config.Environ :=
fun key =>
  if gostr.eqb key (str "SMTP_HOST") then str "smtp.example.com"
  else if gostr.eqb key (str "SMTP_FROM") then str "sender@example.com"
  else if gostr.eqb key (str "SMTP_PASSWORD") then str "secret"
  else if gostr.eqb key (str "SMTP_POOL_SIZE") then str "five"
  else [].

#[global] Arguments str : simpl never.
#[global] Arguments itoa : simpl never.
#[global] Arguments retry.exhausted : simpl never.
#[global] Arguments retry.permanent : simpl never.
#[global] Arguments retry.cancelled : simpl never.
#[global] Arguments retry.calculateBackoff : simpl never.
#[global] Arguments CRLF : simpl never.
#[global] Arguments DQUOTE : simpl never.

(* ================================================================== *)
(** * Strings: lemmas *)

Lemma gostr_eqb_eq (s t : gostring) : gostr.eqb s t = true <-> s = t.
Proof.
revert t; induction s as [|a s IH]; destruct t as [|b t]; simpl; split;
  try congruence; try discriminate.
- intros H. apply andb_prop in H as [H1 H2].
  apply Ascii.eqb_eq in H1. apply IH in H2. congruence.
- intros H. injection H as -> ->. rewrite Ascii.eqb_refl. simpl. now apply IH.
Qed.

Lemma gostr_eqb_refl (s : gostring) : gostr.eqb s s = true.
Proof. now apply gostr_eqb_eq. Qed.

Lemma gostr_eqb_neq (s t : gostring) : gostr.eqb s t = false <-> s <> t.
Proof.
split.
- intros H E. apply gostr_eqb_eq in E. congruence.
- intros H. destruct (gostr.eqb s t) eqn:E; [|reflexivity].
  apply gostr_eqb_eq in E. contradiction.
Qed.

Lemma slice_at (s sub : gostring) (k : nat) :
  slice s (Z.of_nat k) (Z.of_nat k + len sub) = firstn (length sub) (skipn k s).
Proof.
unfold slice, len.
replace (Z.of_nat k + Z.of_nat (length sub) - Z.of_nat k) with (Z.of_nat (length sub)) by lia.
now rewrite !Nat2Z.id.
Qed.

(** An occurrence at position [k]. *)
Lemma occurrence_at (s sub : gostring) (k : nat) :
  (k + length sub <= length s)%nat ->
  firstn (length sub) (skipn k s) = sub ->
  s = firstn k s ++ sub ++ skipn (k + length sub) s.
Proof.
intros Hk H.
rewrite <- (firstn_skipn k s) at 1. f_equal.
rewrite <- (firstn_skipn (length sub) (skipn k s)) at 1.
rewrite H. f_equal. rewrite skipn_skipn. f_equal. lia.
Qed.

Lemma occurrence_in (a sub b : gostring) :
  firstn (length sub) (skipn (length a) (a ++ sub ++ b)) = sub.
Proof.
rewrite skipn_app, skipn_all, Nat.sub_diag. simpl.
rewrite firstn_app, firstn_all, Nat.sub_diag. simpl. now rewrite app_nil_r.
Qed.

(** The loop finds an occurrence iff there is one at or after [i] within
    reach of the fuel. *)
Lemma containsSubstring_loop_spec (s sub : gostring) (fuel i : nat) :
  retry.containsSubstring_loop fuel (Z.of_nat i) s sub = true <->
  exists k, (i <= k < i + fuel)%nat /\ (k + length sub <= length s)%nat /\
            firstn (length sub) (skipn k s) = sub.
Proof.
revert i. induction fuel as [|fuel IH]; intros i; simpl.
- split; [discriminate|]. intros (k & Hk & _). lia.
- unfold len. destruct (Z.leb_spec (Z.of_nat i)
    (Z.of_nat (length s) - Z.of_nat (length sub))) as [Hle|Hgt].
  + fold (len sub). rewrite slice_at.
    destruct (gostr.eqb (firstn (length sub) (skipn i s)) sub) eqn:E.
    * apply gostr_eqb_eq in E. split; [intros _|reflexivity].
      exists i. repeat split; try lia. exact E.
    * replace (Z.of_nat i + 1) with (Z.of_nat (S i)) by lia.
      rewrite IH. apply gostr_eqb_neq in E. split.
      -- intros (k & Hk & Hl & Hs). exists k. repeat split; try lia. exact Hs.
      -- intros (k & Hk & Hl & Hs). exists k. repeat split; try lia; try exact Hs.
         destruct (Nat.eq_dec k i) as [->|]; [contradiction|lia].
  + split; [discriminate|]. intros (k & Hk & Hl & _). lia.
Qed.

(** [contains] decides whether the text holds the indicator. *)
Lemma contains_spec (s sub : gostring) :
  retry.contains s sub = true <-> Contains s sub.
Proof.
unfold retry.contains, retry.containsSubstring, Contains, len. split.
- intros H. apply andb_prop in H as [Hlen H].
  apply orb_prop in H as [H|H].
  + apply gostr_eqb_eq in H. subst. exists [], []. now rewrite app_nil_r.
  + apply andb_prop in H as [_ H].
    change 0 with (Z.of_nat 0) in H.
    apply containsSubstring_loop_spec in H as (k & _ & Hl & Hs).
    exists (firstn k s), (skipn (k + length sub) s).
    apply occurrence_at; assumption.
- intros (a & b & ->).
  assert (Hlen : length (a ++ sub ++ b) = (length a + length sub + length b)%nat)
    by (rewrite !length_app; lia).
  apply andb_true_intro. split; [apply Z.leb_le; lia|].
  destruct (gostr.eqb (a ++ sub ++ b) sub) eqn:E; [reflexivity|].
  rewrite Bool.orb_false_l. apply gostr_eqb_neq in E.
  assert (Hpos : (0 < length a + length b)%nat).
  { destruct a; destruct b; simpl; try lia.
    exfalso. apply E. simpl. apply app_nil_r. }
  apply andb_true_intro. split; [apply Z.ltb_lt; lia|].
  change 0 with (Z.of_nat 0). apply containsSubstring_loop_spec.
  exists (length a). repeat split; try lia. apply occurrence_in.
Qed.

Lemma contains_false (s sub : gostring) :
  retry.contains s sub = false <-> ~ Contains s sub.
Proof.
rewrite <- contains_spec. destruct (retry.contains s sub); split; congruence.
Qed.

(** [IsRetryable] refuses exactly the permanent texts. *)
Lemma IsRetryable_false_iff (e : error) :
  retry.IsRetryable e = false <-> PermanentText (Error e).
Proof.
unfold retry.IsRetryable, PermanentText.
destruct (existsb (retry.contains (Error e)) retry.temporaryErrors) eqn:Et.
- split; [discriminate|]. intros [_ H].
  apply existsb_exists in Et as (t & Hin & Hc).
  apply contains_spec in Hc. now apply H in Hin.
- destruct (existsb (retry.contains (Error e)) retry.permanentErrors) eqn:Ep.
  + split; [intros _|reflexivity]. split.
    * apply existsb_exists in Ep as (p & Hin & Hc).
      exists p. split; [exact Hin|]. now apply contains_spec.
    * intros t Hin Hc. apply contains_spec in Hc.
      assert (existsb (retry.contains (Error e)) retry.temporaryErrors = true)
        by (apply existsb_exists; eauto).
      congruence.
  + split; [discriminate|]. intros [(p & Hin & Hc) _].
    apply contains_spec in Hc.
    assert (existsb (retry.contains (Error e)) retry.permanentErrors = true)
      by (apply existsb_exists; eauto).
    congruence.
Qed.
(* ================================================================== *)
(** * Package [domain]: validation *)

Lemma gostr_eqb_spec (s t : gostring) : reflect (s = t) (gostr.eqb s t).
Proof.
destruct (gostr.eqb s t) eqn:E; constructor.
- now apply gostr_eqb_eq.
- now apply gostr_eqb_neq.
Qed.

Lemma validate_to_None (l : list gostring) :
  domain.validate_to l = None <->
  Forall (fun addr => domain.isValidEmail addr = true) l.
Proof.
induction l as [|a l IH]; simpl.
- split; auto.
- destruct (domain.isValidEmail a) eqn:E; simpl.
  + rewrite IH. split; intros H; [constructor; auto|now inversion H].
  + split; [discriminate|]. intros H. inversion H. congruence.
Qed.

(** What [Validate] checks: the sender, the addresses of [To], the subject
    and the bodies. *)
Lemma Validate_None_iff (e : domain.Email) :
  domain.Validate e = None <->
  domain.isValidEmail (domain.From e) = true /\
  domain.To e <> [] /\
  Forall (fun addr => domain.isValidEmail addr = true) (domain.To e) /\
  domain.Subject e <> [] /\
  (domain.TextBody e <> [] \/ domain.HTMLBody e <> []).
Proof.
unfold domain.Validate.
destruct (gostr_eqb_spec (domain.From e) []) as [Ef|Ef].
{ rewrite Ef. split; [discriminate|].
  intros [H _]. vm_compute in H. discriminate H. }
destruct (domain.isValidEmail (domain.From e)) eqn:Ev; simpl;
  [|split; [discriminate|intros [H _]; congruence]].
destruct (Z.eqb_spec (Z.of_nat (length (domain.To e))) 0) as [E0|E0].
{ split; [discriminate|]. intros (_ & H & _).
  destruct (domain.To e); [now contradiction H|discriminate E0]. }
assert (Hne : domain.To e <> []) by (intros E; rewrite E in E0; now apply E0).
destruct (domain.validate_to (domain.To e)) eqn:Eto.
{ split; [discriminate|]. intros (_ & _ & H & _).
  apply validate_to_None in H. congruence. }
apply validate_to_None in Eto.
destruct (gostr_eqb_spec (domain.Subject e) []) as [Es|Es].
{ split; [discriminate|]. intros (_ & _ & _ & H & _). contradiction. }
destruct (gostr_eqb_spec (domain.TextBody e) []) as [Ett|Ett];
destruct (gostr_eqb_spec (domain.HTMLBody e) []) as [Eh|Eh]; simpl.
- split; [discriminate|]. intros (_ & _ & _ & _ & [H|H]); contradiction.
- split; [intros _|reflexivity]. repeat split; auto.
- split; [intros _|reflexivity]. repeat split; auto.
- split; [intros _|reflexivity]. repeat split; auto.
Qed.

(** [Build] hands out exactly the emails [Validate] accepts. *)
Lemma Build_inl_iff (b : domain.EmailBuilder) (e : domain.Email) :
  domain.Build b = inl e <-> domain.Validate (domain.email b) = None /\ e = domain.email b.
Proof.
unfold domain.Build. destruct (domain.Validate (domain.email b)); split.
- discriminate.
- intros [H _]. discriminate.
- intros H. injection H as <-. auto.
- intros [_ ->]. reflexivity.
Qed.


(** C1 (the code departs from the claim): [Validate], and so [Build],
    accepts an email whose Cc and Bcc addresses do not match the address
    pattern: only the sender and the addresses of [To] are matched. *)
Theorem Build_accepts_malformed_Cc_Bcc :
  domain.isValidEmail (str "not an address") = false /\
  domain.isValidEmail (str "also@@bad") = false /\
  domain.Validate (domain.email email_with_bad_cc) = None /\
  exists e, domain.Build email_with_bad_cc = inl e /\
            domain.Cc e = [str "not an address"] /\
            domain.Bcc e = [str "also@@bad"].
Proof.
repeat split; try reflexivity.
eexists. repeat split; reflexivity.
Qed.

(* ================================================================== *)
(** * Package [retry]: the loop of [Do] *)

Section DoFacts.

Variable St : Type.
Variable fn : St -> option error * St.
Variable wait : option Z -> St -> option error * St.
Variable config : retry.Config.

(** The loop never runs out of fuel when the fuel covers the attempts that
    remain. *)
Lemma Do_loop_total (fuel : nat) (attempt : Z) lastErr st tr :
  (0 < fuel)%nat ->
  retry.MaxAttempts config - attempt < Z.of_nat fuel ->
  exists r, retry.Do_loop fn wait fuel config attempt lastErr st tr = Some r.
Proof.
revert attempt lastErr st tr.
induction fuel as [|fuel IH]; intros attempt lastErr st tr Hpos Hf; [lia|]. simpl.
destruct (Z.leb_spec attempt (retry.MaxAttempts config)) as [Hle|Hgt]; [|eauto].
destruct (fn st) as [[e|] st1]; [|eauto].
destruct (negb (retry.IsRetryable e)); [eauto|].
destruct (Z.eqb_spec attempt (retry.MaxAttempts config)) as [Heq|Hne]; [eauto|].
destruct (wait _ st1) as [[ce|] st2]; [eauto|].
apply IH; lia.
Qed.

(** [Do] always returns. *)
Lemma Do_total (st : St) : exists r, retry.Do fn wait config st = Some r.
Proof. unfold retry.Do. apply Do_loop_total; lia. Qed.

(** A call that returns an error [IsRetryable] refuses ends the loop: it
    is the last event and the result is that error wrapped as permanent. *)
Lemma Do_loop_permanent_last (fuel : nat) (attempt : Z) lastErr st tr0 r st' tr :
  retry.Do_loop fn wait fuel config attempt lastErr st tr0 = Some (r, st', tr) ->
  exists new, tr = tr0 ++ new /\
    forall k e, In (retry.EvCall k (Some e)) new -> retry.IsRetryable e = false ->
      r = Some (retry.permanent k config e) /\
      exists pre, new = pre ++ [retry.EvCall k (Some e)].
Proof.
revert attempt lastErr st tr0.
induction fuel as [|fuel IH]; intros attempt lastErr st tr0; simpl; [discriminate|].
destruct (Z.leb_spec attempt (retry.MaxAttempts config)) as [Hle|Hgt].
2:{ intros Hd; injection Hd as <- <- <-. exists []. rewrite app_nil_r.
    split; [reflexivity|]. intros k e []. }
destruct (fn st) as [[e0|] st1].
2:{ intros Hd; injection Hd as <- <- <-. eexists. split; [reflexivity|].
    intros k e [Hin|[]]. discriminate Hin. }
destruct (retry.IsRetryable e0) eqn:Er; simpl.
2:{ intros Hd; injection Hd as <- <- <-. eexists. split; [reflexivity|].
    intros k e [Hin|[]] _. injection Hin as <- <-. split; [reflexivity|].
    now exists []. }
destruct (Z.eqb_spec attempt (retry.MaxAttempts config)) as [Heq|Hne].
{ intros Hd; injection Hd as <- <- <-. eexists. split; [reflexivity|].
  intros k e [Hin|[]] Hp. injection Hin as <- <-. congruence. }
destruct (wait _ st1) as [[ce|] st2].
{ intros Hd; injection Hd as <- <- <-. eexists.
  split; [rewrite <- !app_assoc; reflexivity|].
  simpl. intros k e [Hin|[Hin|[Hin|[]]]] Hp; try discriminate Hin.
  injection Hin as <- <-. congruence. }
intros Hd. apply IH in Hd as (new & -> & Hnew).
eexists. split; [rewrite <- !app_assoc; reflexivity|].
simpl. intros k e [Hin|[Hin|[Hin|Hin]]] Hp; try discriminate Hin.
- injection Hin as <- <-. congruence.
- destruct (Hnew k e Hin Hp) as (-> & pre & ->). split; [reflexivity|].
  eexists (_ :: _ :: _ :: pre). reflexivity.
Qed.

(** A run in which every call returns a retryable error and no wait is
    cut short makes one call per attempt that remains, waits between the
    calls only, and ends on the last call. *)
Lemma Do_loop_exhausts (n : nat) (fuel : nat) (attempt : Z) lastErr st tr0 :
  (forall s, exists e s', fn s = (Some e, s') /\ retry.IsRetryable e = true) ->
  (forall d s, fst (wait d s) = None) ->
  retry.MaxAttempts config = attempt + Z.of_nat n ->
  (n < fuel)%nat ->
  exists last st' new,
    retry.Do_loop fn wait fuel config attempt lastErr st tr0
      = Some (Some (retry.exhausted config (Some last)), st',
              tr0 ++ new ++ [retry.EvCall (retry.MaxAttempts config) (Some last)]) /\
    retry.calls new = n /\ retry.waits new = n /\
    retry.IsRetryable last = true.
Proof.
intros Hfn Hwait. revert fuel attempt lastErr st tr0.
induction n as [|n IH]; intros fuel attempt lastErr st tr0 Hmax Hfuel;
  (destruct fuel as [|fuel]; [lia|]); simpl.
- destruct (Z.leb_spec attempt (retry.MaxAttempts config)) as [Hle|Hgt]; [|lia].
  destruct (Hfn st) as (e & s' & -> & Hr). rewrite Hr. simpl.
  destruct (Z.eqb_spec attempt (retry.MaxAttempts config)) as [Heq|Hne]; [|lia].
  exists e, s', []. subst attempt. repeat split; auto.
- destruct (Z.leb_spec attempt (retry.MaxAttempts config)) as [Hle|Hgt]; [|lia].
  destruct (Hfn st) as (e & s' & -> & Hr). rewrite Hr. simpl.
  destruct (Z.eqb_spec attempt (retry.MaxAttempts config)) as [Heq|Hne]; [lia|].
  specialize (Hwait (retry.calculateBackoff attempt config) s').
  destruct (wait _ s') as [w s'']. simpl in Hwait. subst w.
  destruct (IH fuel (attempt + 1) (Some e) s''
              (((tr0 ++ [retry.EvCall attempt (Some e)])
                ++ [retry.EvPrintf attempt e (retry.calculateBackoff attempt config)])
               ++ [retry.EvWait (retry.calculateBackoff attempt config) false]))
    as (last & st' & new & -> & Hc & Hw & Hl); [lia|lia|].
  exists last, st', (retry.EvCall attempt (Some e)
     :: retry.EvPrintf attempt e (retry.calculateBackoff attempt config)
     :: retry.EvWait (retry.calculateBackoff attempt config) false :: new).
  repeat split.
  + rewrite <- !app_assoc. reflexivity.
  + unfold retry.calls in *. simpl. now rewrite Hc.
  + unfold retry.waits in *. simpl. now rewrite Hw.
  + exact Hl.
Qed.

End DoFacts.


(** C2, as stated, fails: an error text with the permanent code 550 that
    also holds a transient indicator is retried.  With the default
    configuration the operation is called five times and the result is the
    exhausted-retries error, not a permanent one. *)
Lemma permanent_code_with_transient_text_is_retried :
  Contains (Error err_550_timeout) (str "550") /\
  exists tr,
    retry.Do (always_fails err_550_timeout) never_done retry.DefaultConfig tt
      = Some (Some (retry.exhausted retry.DefaultConfig (Some err_550_timeout)), tt, tr) /\
    retry.calls tr = 5%nat.
Proof.
split.
- exists [], (str " mailbox unavailable: connection timeout"). reflexivity.
- eexists. split; [vm_compute; reflexivity|reflexivity].
Qed.

(** C2 (amended): for an error whose text holds a permanent code and no
    transient indicator, a call that returns it is the last thing [Do]
    does, whatever the attempt, and [Do] returns it wrapped as a permanent
    error; with at least one attempt allowed, an operation whose first
    call returns such an error is called exactly once. *)
Theorem Do_aborts_on_permanent_error :
  forall (St : Type) (fn : St -> option error * St)
         (wait : option Z -> St -> option error * St)
         (config : retry.Config) (e : error),
  PermanentText (Error e) ->
  (forall st r st' tr k,
     retry.Do fn wait config st = Some (r, st', tr) ->
     In (retry.EvCall k (Some e)) tr ->
     r = Some (retry.permanent k config e) /\
     Unwrap (retry.permanent k config e) = Some e /\
     exists pre, tr = pre ++ [retry.EvCall k (Some e)]) /\
  (forall st st1,
     1 <= retry.MaxAttempts config ->
     fn st = (Some e, st1) ->
     retry.Do fn wait config st
       = Some (Some (retry.permanent 1 config e), st1, [retry.EvCall 1 (Some e)]) /\
     retry.calls [retry.EvCall 1 (Some e)] = 1%nat).
Proof.
intros St fn wait config e Hp. apply IsRetryable_false_iff in Hp. split.
- intros st r st' tr k Hdo Hin. unfold retry.Do in Hdo.
  apply Do_loop_permanent_last in Hdo as (new & -> & Hnew).
  simpl in Hin. destruct (Hnew k e Hin Hp) as (-> & pre & ->).
  repeat split. now exists pre.
- intros st st1 Hmax Hfn. split; [|reflexivity].
  unfold retry.Do. simpl.
  destruct (Z.leb_spec 1 (retry.MaxAttempts config)) as [Hle|Hgt]; [|lia].
  rewrite Hfn, Hp. reflexivity.
Qed.

Lemma err_550_permanent : PermanentText (Error err_550).
Proof. now apply IsRetryable_false_iff. Qed.

(** The theorem at the default configuration and a 550 error. *)
Lemma Do_aborts_on_permanent_error_witness :
  PermanentText (Error err_550) /\
  1 <= retry.MaxAttempts retry.DefaultConfig /\
  retry.Do (always_fails err_550) never_done retry.DefaultConfig tt
    = Some (Some (retry.permanent 1 retry.DefaultConfig err_550), tt,
            [retry.EvCall 1 (Some err_550)]).
Proof.
split; [exact err_550_permanent|]. split; [vm_compute; discriminate|].
exact (proj1 (proj2 (@Do_aborts_on_permanent_error unit (always_fails err_550)
  never_done retry.DefaultConfig err_550 err_550_permanent) tt tt
  ltac:(vm_compute; discriminate) eq_refl)).
Defined.

(** C3, as stated, fails: when the context is done during the first wait,
    an operation that always fails with a 451 error is called once, not
    [MaxAttempts] times, and [Do] returns the cancellation error. *)
Lemma transient_error_not_retried_after_cancellation :
  retry.IsRetryable err_451 = true /\
  retry.MaxAttempts retry.DefaultConfig = 5 /\
  exists tr,
    retry.Do (always_fails err_451) done_at_once retry.DefaultConfig tt
      = Some (Some (retry.cancelled (errorString (str "context canceled"))), tt, tr) /\
    retry.calls tr = 1%nat.
Proof.
split; [reflexivity|]. split; [reflexivity|].
eexists. split; [vm_compute; reflexivity|reflexivity].
Qed.

(** C3 (amended): with at least one attempt allowed and a context that is
    not done during any wait, an operation whose every call returns an
    error classified as transient is called exactly [MaxAttempts] times;
    [Do] waits between the calls only (one wait fewer than calls, none
    after the last call) and returns an error whose text names
    [MaxAttempts] and that wraps the error of the last call. *)
Theorem Do_exhausts_attempts_on_transient_errors :
  forall (St : Type) (fn : St -> option error * St)
         (wait : option Z -> St -> option error * St)
         (config : retry.Config) (st : St),
  1 <= retry.MaxAttempts config ->
  (forall s, exists e s', fn s = (Some e, s') /\ retry.IsRetryable e = true) ->
  (forall d s, fst (wait d s) = None) ->
  exists last st' tr result,
    retry.Do fn wait config st
      = Some (Some result, st', tr ++ [retry.EvCall (retry.MaxAttempts config) (Some last)]) /\
    Z.of_nat (retry.calls (tr ++ [retry.EvCall (retry.MaxAttempts config) (Some last)]))
      = retry.MaxAttempts config /\
    Z.of_nat (retry.waits (tr ++ [retry.EvCall (retry.MaxAttempts config) (Some last)]))
      = retry.MaxAttempts config - 1 /\
    Error result = str "max attempts reached (" ++ itoa (retry.MaxAttempts config)
                   ++ str "): " ++ Error last /\
    Unwrap result = Some last.
Proof.
intros St fn wait config st Hmax Hfn Hwait.
destruct (@Do_loop_exhausts St fn wait config
            (Z.to_nat (retry.MaxAttempts config - 1))
            (S (Z.to_nat (retry.MaxAttempts config))) 1 None st [] Hfn Hwait)
  as (last & st' & new & Hdo & Hc & Hw & _); [lia|lia|].
exists last, st', new, (retry.exhausted config (Some last)).
split; [exact Hdo|].
unfold retry.calls, retry.waits in *.
rewrite !filter_app, !length_app, Hc, Hw. simpl.
repeat split; try lia.
rewrite <- app_assoc. reflexivity.
Qed.

(** The theorem at the default configuration and a 451 error. *)
Lemma Do_exhausts_attempts_on_transient_errors_witness :
  exists last st' tr result,
    retry.Do (always_fails err_451) never_done retry.DefaultConfig tt
      = Some (Some result, st', tr ++ [retry.EvCall 5 (Some last)]) /\
    Z.of_nat (retry.calls (tr ++ [retry.EvCall 5 (Some last)])) = 5 /\
    Z.of_nat (retry.waits (tr ++ [retry.EvCall 5 (Some last)])) = 5 - 1 /\
    Error result = str "max attempts reached (" ++ itoa 5 ++ str "): " ++ Error last /\
    Unwrap result = Some last.
Proof.
apply (@Do_exhausts_attempts_on_transient_errors unit (always_fails err_451)
         never_done retry.DefaultConfig tt).
- vm_compute. discriminate.
- intros s. exists err_451, s. split; reflexivity.
- reflexivity.
Defined.

(* ================================================================== *)
(** * Package [application]: [SendEmail] *)

(** A quantity that every call of the operation moves by [g] and that no
    wait moves is moved by [Do] once per call. *)
Lemma Do_loop_iter (St A : Type) (fn : St -> option error * St)
  (wait : option Z -> St -> option error * St) (f : St -> A) (g : A -> A)
  (config : retry.Config) :
  (forall st, f (snd (fn st)) = g (f st)) ->
  (forall d st, f (snd (wait d st)) = f st) ->
  forall fuel attempt lastErr st tr0 r st' tr,
  retry.Do_loop fn wait fuel config attempt lastErr st tr0 = Some (r, st', tr) ->
  exists new, tr = tr0 ++ new /\ f st' = Nat.iter (retry.calls new) g (f st).
Proof.
intros Hfn Hwait.
induction fuel as [|fuel IH]; intros attempt lastErr st tr0 r st' tr; simpl;
  [discriminate|].
destruct (Z.leb_spec attempt (retry.MaxAttempts config)) as [Hle|Hgt].
2:{ intros Hd; injection Hd as <- <- <-. exists []. now rewrite app_nil_r. }
specialize (Hfn st). destruct (fn st) as [[e0|] st1]; simpl in Hfn.
2:{ intros Hd; injection Hd as <- <- <-. eexists. split; [reflexivity|].
    simpl. now rewrite Hfn. }
destruct (negb (retry.IsRetryable e0)).
{ intros Hd; injection Hd as <- <- <-. eexists. split; [reflexivity|].
  simpl. now rewrite Hfn. }
destruct (Z.eqb_spec attempt (retry.MaxAttempts config)) as [Heq|Hne].
{ intros Hd; injection Hd as <- <- <-. eexists. split; [reflexivity|].
  simpl. now rewrite Hfn. }
specialize (Hwait (retry.calculateBackoff attempt config) st1).
destruct (wait _ st1) as [[ce|] st2]; simpl in Hwait.
{ intros Hd; injection Hd as <- <- <-. eexists.
  split; [rewrite <- !app_assoc; reflexivity|].
  simpl. now rewrite Hwait, Hfn. }
intros Hd. apply IH in Hd as (new & -> & Hnew).
eexists. split; [rewrite <- !app_assoc; reflexivity|].
unfold retry.calls in *. simpl.
rewrite Hnew, Hwait, Hfn. symmetry. apply Nat.iter_succ_r.
Qed.


Lemma incr_iter_exact (k : nat) (a : Z) :
  - 2 ^ 63 <= a -> a + Z.of_nat k < 2 ^ 63 ->
  Nat.iter k incr a = a + Z.of_nat k.
Proof.
induction k as [|k IH]; intros Hlo Hhi; simpl; [lia|].
rewrite IH by lia. unfold incr, wrap64.
rewrite Z.mod_small by lia. lia.
Qed.


Section SendEmailFacts.

Variable Sender : Type.
Variable sender_Send : domain.Email -> Sender -> option error * Sender.
Variable wait : option Z -> Sender -> option error * Sender.
Variable s : application.EmailService.

(** [SendEmail] always returns. *)
Lemma SendEmail_total (email : domain.Email) (sd : Sender) :
  exists r, application.SendEmail sender_Send wait s email sd = Some r.
Proof.
unfold application.SendEmail.
destruct (domain.Validate email); [eauto|].
destruct (@Do_total _ (application.attempt sender_Send) (application.wait_st wait)
            (application.retryConfig s)
            (domain.set_Status email domain.StatusSending, sd)) as ([[r [e sd']] tr] & ->).
destruct r; eauto.
Qed.

(** What [retry.Do] does to the email inside [SendEmail]: one increment of
    [Attempts] per call, and nothing else. *)
Lemma Do_attempt_email (email : domain.Email) (sd : Sender) r email' sd' tr :
  retry.Do (application.attempt sender_Send) (application.wait_st wait)
           (application.retryConfig s) (email, sd) = Some (r, (email', sd'), tr) ->
  domain.Attempts email' = Nat.iter (retry.calls tr) incr (domain.Attempts email) /\
  domain.LastError email' = domain.LastError email /\
  domain.Status_ email' = domain.Status_ email /\
  content email' = content email.
Proof.
intros Hdo. unfold retry.Do in Hdo.
pose proof (@Do_loop_iter _ _ (application.attempt sender_Send)
  (application.wait_st wait)
  (fun st => (domain.Attempts (fst st), domain.LastError (fst st),
              domain.Status_ (fst st), content (fst st)))
  (fun a => (incr (fst (fst (fst a))), snd (fst (fst a)), snd (fst a), snd a))
  (application.retryConfig s)) as H.
destruct (H (fun st => ltac:(destruct st as [e0 sd0]; unfold application.attempt;
              destruct (sender_Send _ sd0); reflexivity))
            (fun d st => ltac:(destruct st as [e0 sd0]; unfold application.wait_st;
              simpl; destruct (wait d sd0); reflexivity))
            _ _ _ _ _ _ _ _ Hdo) as (new & Htr & Hf).
simpl in Htr. subst new. simpl in Hf.
clear H Hdo. revert Hf.
generalize (retry.calls tr). intros k.
assert (Hk : forall k a b c d,
  Nat.iter k (fun a0 : Z * gostring * domain.EmailStatus * domain.Email =>
     (incr (fst (fst (fst a0))), snd (fst (fst a0)), snd (fst a0), snd a0)) (a, b, c, d)
  = (Nat.iter k incr a, b, c, d)).
{ clear. induction k as [|k IH]; intros; simpl; [reflexivity|]. now rewrite IH. }
rewrite Hk. intros Hf.
apply pair_equal_spec in Hf as [Hf H4].
apply pair_equal_spec in Hf as [Hf H3].
apply pair_equal_spec in Hf as [H1 H2]. auto.
Qed.

End SendEmailFacts.

(** C10: [SendEmail] never resets [Attempts] or [LastError].  [Attempts]
    ends one higher (in the 64-bit arithmetic of [int]) per call of the
    sender, starting from the value the email came with, so the count
    adds up over successive calls on the same email; it is exactly the
    old value plus the number of calls as long as that fits in an [int].
    When the send succeeds the status is [StatusSent] and [LastError] is
    what it was before, whatever it was.  No other field changes. *)
Theorem SendEmail_accumulates_Attempts_keeps_LastError :
  forall (Sender : Type)
         (sender_Send : domain.Email -> Sender -> option error * Sender)
         (wait : option Z -> Sender -> option error * Sender)
         (s : application.EmailService) (email : domain.Email) (sd : Sender)
         r email' sd' tr,
  application.SendEmail sender_Send wait s email sd = Some (r, email', sd', tr) ->
  domain.Attempts email' = Nat.iter (retry.calls tr) incr (domain.Attempts email) /\
  (- 2 ^ 63 <= domain.Attempts email ->
   domain.Attempts email + Z.of_nat (retry.calls tr) < 2 ^ 63 ->
   domain.Attempts email' = domain.Attempts email + Z.of_nat (retry.calls tr)) /\
  (r = None ->
   domain.Status_ email' = domain.StatusSent /\
   domain.LastError email' = domain.LastError email) /\
  content email' = content email.
Proof.
intros Sender sender_Send wait s email sd r email' sd' tr Hs.
assert (Hgoal : domain.Attempts email'
                = Nat.iter (retry.calls tr) incr (domain.Attempts email) /\
  (r = None -> domain.Status_ email' = domain.StatusSent /\
               domain.LastError email' = domain.LastError email) /\
  content email' = content email).
{ unfold application.SendEmail in Hs.
  destruct (domain.Validate email).
  { injection Hs as <- <- <- <-. repeat split; discriminate. }
  destruct (retry.Do _ _ _ _) as [[[r0 [e1 sd1]] tr1]|] eqn:Hdo; [|discriminate].
  apply Do_attempt_email in Hdo as (Ha & Hl & Hst & Hc).
  change (content e1 = content email) in Hc.
  change (domain.Attempts e1 = Nat.iter (retry.calls tr1) incr (domain.Attempts email)) in Ha.
  change (domain.LastError e1 = domain.LastError email) in Hl.
  destruct r0 as [err|]; injection Hs as <- <- <- <-.
  - split; [exact Ha|]. split; [discriminate|exact Hc].
  - split; [exact Ha|]. split; [|exact Hc]. intros _. split; [reflexivity|exact Hl]. }
destruct Hgoal as (Ha & Hr & Hc). repeat split; try assumption; try (now apply Hr).
intros Hlo Hhi. rewrite Ha. now apply incr_iter_exact.
Qed.


(** The theorem at [stale_email]: the send succeeds at the second call,
    [Attempts] goes from 5 to 7, and the email is [StatusSent] with the old
    error text still in [LastError]. *)
Lemma SendEmail_accumulates_Attempts_keeps_LastError_witness :
  exists email' sd' tr,
    application.SendEmail flaky_sender never_done_nat application.NewEmailService
      stale_email 0%nat = Some (None, email', sd', tr) /\
    retry.calls tr = 2%nat /\
    domain.Attempts email' = 7 /\
    domain.Status_ email' = domain.StatusSent /\
    domain.LastError email' = str "max attempts reached (5): 451 local error".
Proof.
destruct (application.SendEmail flaky_sender never_done_nat
            application.NewEmailService stale_email 0%nat)
  as [[[[r email'] sd'] tr]|] eqn:Hs; [|vm_compute in Hs; discriminate Hs].
pose proof (@SendEmail_accumulates_Attempts_keeps_LastError nat flaky_sender
              never_done_nat application.NewEmailService stale_email 0%nat
              r email' sd' tr Hs) as (_ & Hexact & Hsucc & _).
assert (Hr : r = None) by (vm_compute in Hs; congruence).
assert (Hc : retry.calls tr = 2%nat) by (vm_compute in Hs; injection Hs as _ _ _ <-; reflexivity).
subst r. exists email', sd', tr.
destruct (Hsucc eq_refl) as [Hst Hl].
repeat split; try assumption.
rewrite Hexact; rewrite ?Hc; vm_compute; congruence.
Defined.

(* ================================================================== *)
(** * Package [infrastructure]: the pool *)

Lemma take_out_length (c : infrastructure.Conn) (l r : list infrastructure.Conn) :
  take_out c l = Some r -> length l = S (length r).
Proof.
revert r. induction l as [|x l IH]; intros r; simpl; [discriminate|].
destruct (Nat.eqb x c).
- intros H; injection H as <-. reflexivity.
- destruct (take_out c l) as [r'|]; [|discriminate].
  intros H; injection H as <-. simpl. now rewrite (IH r').
Qed.

(** A pool that was filled holds one more connection per dial, and keeps
    its capacity and its flag. *)
Lemma populate_ok (n i : nat) dials p tr p' tr' :
  infrastructure.populate n i dials p tr = (inl p', tr') ->
  length (infrastructure.connections p')
    = (length (infrastructure.connections p) + n)%nat /\
  infrastructure.capacity p' = infrastructure.capacity p /\
  infrastructure.closed p' = infrastructure.closed p.
Proof.
revert i p tr. induction n as [|n IH]; intros i p tr; simpl.
- intros H; injection H as <- <-. auto with arith.
- destruct (infrastructure.createConnection _ _) as [[conn|e] ev].
  + intros H. apply IH in H as (Hl & Hc & Hcl). simpl in *.
    rewrite length_app in Hl. simpl in Hl. repeat split; auto. lia.
  + destruct (infrastructure.Close p) as [[? ?] ?]. discriminate.
Qed.

(** A new pool of size [N] is open and holds [N] connections. *)
Lemma NewConnectionPool_ok config (N : Z) dials p tr :
  infrastructure.NewConnectionPool config N dials = Some (inl p, tr) ->
  0 <= N /\
  length (infrastructure.connections p) = Z.to_nat N /\
  infrastructure.capacity p = Z.to_nat N /\
  infrastructure.closed p = false.
Proof.
unfold infrastructure.NewConnectionPool.
destruct (Z.ltb_spec N 0) as [Hneg|Hpos]; [discriminate|].
destruct (Z.ltb _ _); [discriminate|]. simpl orb.
intros H; injection H as H. apply populate_ok in H as (Hl & Hc & Hcl).
simpl in *. auto.
Qed.

(** A closed pool answers [Get] at once: the pool-closed error, no wait at
    the [select] and no connection. *)
Lemma Get_closed (env : infrastructure.GetEnv) (p : infrastructure.ConnectionPool) :
  infrastructure.closed p = true ->
  infrastructure.Get env p = (inr (errorString (str "pool is closed")), p, []).
Proof. intros H. unfold infrastructure.Get. now rewrite H. Qed.

(** The connection received is handed out or replaced, and the channel
    holds the others. *)
Lemma received_shape env p c rest r p' tr :
  infrastructure.received env p c rest = (r, p', tr) ->
  infrastructure.capacity p' = infrastructure.capacity p /\
  infrastructure.closed p' = infrastructure.closed p /\
  (length (infrastructure.connections p')
     + match r with inl _ => 1 | inr _ => 0 end <= S (length rest))%nat.
Proof.
unfold infrastructure.received.
destruct (infrastructure.noopErr env) as [ne|].
- destruct (infrastructure.createConnection _ _) as [[nc|de] ev];
    intros H; injection H as <- <- <-; simpl; repeat split; auto; lia.
- intros H; injection H as <- <- <-; simpl. repeat split; auto; lia.
Qed.

(** [Get] keeps the capacity and the flag of the pool, and takes at most
    the connection it returns out of the channel. *)
Lemma Get_shape env p r p' tr :
  infrastructure.Get env p = (r, p', tr) ->
  infrastructure.capacity p' = infrastructure.capacity p /\
  infrastructure.closed p' = infrastructure.closed p /\
  (length (infrastructure.connections p')
     + match r with inl _ => 1 | inr _ => 0 end
   <= length (infrastructure.connections p))%nat.
Proof.
unfold infrastructure.Get.
destruct (infrastructure.closed p) eqn:Ec.
{ intros H; injection H as <- <- <-. rewrite Ec. repeat split; auto. simpl; lia. }
destruct (infrastructure.connections p) as [|c rest] eqn:Econ.
{ destruct (infrastructure.ctxDone env) as [ce|];
    intros H; injection H as <- <- <-; rewrite Ec, Econ; repeat split; auto. }
destruct (infrastructure.ctxDone env) as [ce|];
  [destruct (infrastructure.ctxFirst env)|].
- intros H; injection H as <- <- <-. rewrite Ec, Econ. repeat split; auto.
  simpl; lia.
- intros H. apply received_shape in H. rewrite Ec in *. exact H.
- intros H. apply received_shape in H. rewrite Ec in *. exact H.
Qed.

(** What every operation keeps: the capacity, the bound on the
    connections outstanding, and a closed pool closed. *)
Lemma pool_step_invariant (s s' : PoolState) (op : PoolOp) :
  pool_step s op = Some s' ->
  infrastructure.capacity (the_pool s') = infrastructure.capacity (the_pool s) /\
  (outstanding s' <= outstanding s)%nat /\
  (infrastructure.closed (the_pool s) = true ->
   infrastructure.closed (the_pool s') = true) /\
  (op = OpClose -> infrastructure.closed (the_pool s') = true).
Proof.
destruct s as [p held]. destruct op as [env|conn|]; unfold pool_step, outstanding; simpl.
- destruct (infrastructure.Get env p) as [[r q] tr] eqn:EG.
  apply Get_shape in EG as (Hcap & Hcl & Hlen).
  destruct r as [c|e]; intros H; injection H as <-; simpl in *;
    rewrite Hcl; repeat split; auto; try discriminate; lia.
- destruct (take_out conn held) as [rest|] eqn:Et; [|discriminate].
  apply take_out_length in Et.
  unfold infrastructure.Put.
  destruct (infrastructure.closed p) eqn:Ec.
  { intros H; injection H as <-. simpl. repeat split; auto; try discriminate; lia. }
  destruct (Nat.ltb_spec (length (infrastructure.connections p))
              (infrastructure.capacity p)) as [Hlt|Hge];
    intros H; injection H as <-; simpl; rewrite ?length_app; simpl;
    repeat split; auto; try discriminate; try lia.
- unfold infrastructure.Close.
  destruct (infrastructure.closed p) eqn:Ec;
    intros H; injection H as <-; simpl; repeat split; auto; lia.
Qed.

Lemma pool_run_invariant (ops : list PoolOp) (s s' : PoolState) :
  pool_run s ops = Some s' ->
  infrastructure.capacity (the_pool s') = infrastructure.capacity (the_pool s) /\
  (outstanding s' <= outstanding s)%nat /\
  (infrastructure.closed (the_pool s) = true ->
   infrastructure.closed (the_pool s') = true) /\
  (In OpClose ops -> infrastructure.closed (the_pool s') = true).
Proof.
revert s. induction ops as [|op ops IH]; intros s; simpl.
- intros H; injection H as <-. repeat split; auto; try (intros []).
- destruct (pool_step s op) as [s1|] eqn:Es; [|discriminate].
  intros H. apply IH in H as (Hc & Ho & Hcl & Hin).
  apply pool_step_invariant in Es as (Hc1 & Ho1 & Hcl1 & Hop).
  repeat split; try congruence; try lia; auto.
  intros [Heq|Hi]; auto.
Qed.

(** C8: for a pool created with size [N], in every state that a sequence
    of [Get], [Put] and [Close] operations reaches (each [Put] returning a
    connection that a [Get] handed out), the connections buffered in the
    pool and checked out are at most [N] in all; and once [Close] is among
    the operations performed, every [Get] returns the pool-closed error
    at once: it does not reach the [select], hands out no connection and
    leaves the pool as it is. *)
Theorem pool_never_exceeds_capacity_and_closed_pool_refuses :
  forall (config : infrastructure.SMTPConfig) (N : Z)
         (dials : nat -> infrastructure.DialEnv)
         (p : infrastructure.ConnectionPool) (tr : list infrastructure.Event)
         (ops : list PoolOp) (s : PoolState),
  infrastructure.NewConnectionPool config N dials = Some (inl p, tr) ->
  pool_run (mkPoolState p []) ops = Some s ->
  Z.of_nat (outstanding s) <= N /\
  (length (infrastructure.connections (the_pool s))
     <= infrastructure.capacity (the_pool s))%nat /\
  (In OpClose ops ->
   forall env,
     infrastructure.Get env (the_pool s)
       = (inr (errorString (str "pool is closed")), the_pool s, [])).
Proof.
intros config N dials p tr ops s Hnew Hrun.
apply NewConnectionPool_ok in Hnew as (HN & Hlen & Hcap & Hopen).
apply pool_run_invariant in Hrun as (Hc & Ho & _ & Hclose).
unfold outstanding in *. simpl in *. rewrite Hlen in Ho.
repeat split.
- lia.
- rewrite Hc, Hcap. lia.
- intros Hin env. apply Get_closed. auto.
Qed.


(** The theorem at a pool of two connections, after two [Get]s, a [Put],
    a [Close] and one more [Put] and [Get]. *)
Lemma pool_never_exceeds_capacity_and_closed_pool_refuses_witness :
  exists p tr s,
    infrastructure.NewConnectionPool smtp_config 2 dial_ok = Some (inl p, tr) /\
    pool_run (mkPoolState p [])
      [OpGet get_ok; OpGet get_ok; OpPut 0%nat; OpClose; OpPut 1%nat; OpGet get_ok]
      = Some s /\
    Z.of_nat (outstanding s) <= 2 /\
    infrastructure.Get get_ok (the_pool s)
      = (inr (errorString (str "pool is closed")), the_pool s, []).
Proof.
eexists _, _, _.
split; [reflexivity|]. split; [reflexivity|].
pose proof (@pool_never_exceeds_capacity_and_closed_pool_refuses smtp_config 2
              dial_ok _ _
              [OpGet get_ok; OpGet get_ok; OpPut 0%nat; OpClose; OpPut 1%nat; OpGet get_ok]
              _ eq_refl eq_refl) as (H1 & _ & H3).
split; [exact H1|]. apply H3. simpl. auto.
Defined.

(* ================================================================== *)
(** * Package [infrastructure]: [Send] *)

Lemma rcpt_loop_trace (env : infrastructure.SendEnv) conn i addrs tr r tr' :
  infrastructure.rcpt_loop env conn i addrs tr = (r, tr') ->
  exists new, tr' = tr ++ new /\ forallb is_command new = true.
Proof.
revert i tr. induction addrs as [|a addrs IH]; intros i tr; simpl.
- intros H; injection H as <- <-. exists []. now rewrite app_nil_r.
- destruct (infrastructure.rcptErr env i).
  + intros H; injection H as <- <-. eexists. split; reflexivity.
  + intros H. apply IH in H as (new & -> & Hn).
    exists (infrastructure.EvRcpt conn a :: new).
    split; [now rewrite <- app_assoc|]. simpl. exact Hn.
Qed.

(** [sendWithConnection] issues SMTP commands and nothing else. *)
Lemma sendWithConnection_trace (env : infrastructure.SendEnv)
  conn email message r tr :
  infrastructure.sendWithConnection env conn email message = (r, tr) ->
  forallb is_command tr = true.
Proof.
unfold infrastructure.sendWithConnection.
destruct (infrastructure.mailErr env).
{ intros H; injection H as <- <-. reflexivity. }
destruct (infrastructure.rcpt_loop _ _ _ _ _) as [[e|] tr0] eqn:Er;
  apply rcpt_loop_trace in Er as (new & -> & Hn).
{ intros H; injection H as <- <-. simpl. exact Hn. }
destruct (infrastructure.dataErr env).
{ intros H; injection H as <- <-.
  rewrite ?forallb_app; simpl; rewrite ?forallb_app, ?Hn; reflexivity. }
destruct (infrastructure.writeErr env).
{ intros H; injection H as <- <-.
  rewrite ?forallb_app; simpl; rewrite ?forallb_app, ?Hn; reflexivity. }
destruct (infrastructure.closeErr env).
{ intros H; injection H as <- <-.
  rewrite ?forallb_app; simpl; rewrite ?forallb_app, ?Hn; reflexivity. }
intros H; injection H as <- <-.
rewrite ?forallb_app; simpl; rewrite ?forallb_app, ?Hn; reflexivity.
Qed.

Lemma received_trace env p c rest r p' tr :
  infrastructure.received env p c rest = (r, p', tr) ->
  forallb (fun ev => negb (is_put ev) && negb (is_command ev)) tr = true.
Proof.
unfold infrastructure.received.
destruct (infrastructure.noopErr env); [|intros H; injection H as <- <- <-; reflexivity].
unfold infrastructure.createConnection.
destruct (gostr.eqb _ _);
  repeat match goal with
  | |- context [match ?x with Some _ => _ | None => _ end] => destruct x
  end; intros H; injection H as <- <- <-; reflexivity.
Qed.

(** [Get] does not call [Put] and issues no SMTP command apart from the
    probe. *)
Lemma Get_trace env p r p' tr :
  infrastructure.Get env p = (r, p', tr) ->
  forallb (fun ev => negb (is_put ev) && negb (is_command ev)) tr = true.
Proof.
unfold infrastructure.Get.
destruct (infrastructure.closed p); [intros H; injection H as <- <- <-; reflexivity|].
destruct (infrastructure.connections p);
  [destruct (infrastructure.ctxDone env); intros H; injection H as <- <- <-; reflexivity|].
destruct (infrastructure.ctxDone env); [destruct (infrastructure.ctxFirst env)|].
- intros H; injection H as <- <- <-; reflexivity.
- apply received_trace.
- apply received_trace.
Qed.

(** C9: whenever [Send] gets a connection from the pool, it calls [Put]
    with that connection exactly once, after the last SMTP command and
    as the last thing it does to the pool, whatever the outcome of the
    commands: the trace is what [Get] did, then SMTP commands only, then
    what [Put] does, and the pool afterwards is the one [Put] leaves. *)
Theorem Send_always_puts_connection_back :
  forall (BEncode : gostring -> gostring) (env : infrastructure.SendEnv)
         (c : infrastructure.SMTPClient) (email : domain.Email)
         (conn : infrastructure.Conn) (p : infrastructure.ConnectionPool)
         (tr : list infrastructure.Event),
  infrastructure.Get (infrastructure.getEnv env) (infrastructure.pool c)
    = (inl conn, p, tr) ->
  exists result commands p' after,
    infrastructure.Send BEncode env c email
      = (result, infrastructure.mkClient (infrastructure.cconfig c) p',
         (tr ++ commands) ++ infrastructure.EvPut conn :: after) /\
    infrastructure.Put conn p = (None, p', infrastructure.EvPut conn :: after) /\
    forallb is_command commands = true /\
    filter is_put ((tr ++ commands) ++ infrastructure.EvPut conn :: after)
      = [infrastructure.EvPut conn] /\
    forallb (fun ev => negb (is_command ev)) after = true.
Proof.
intros BEncode env c email conn p tr Hget.
unfold infrastructure.Send. rewrite Hget.
pose proof (Get_trace _ _ Hget) as Htr.
assert (Hput : exists p' after,
  infrastructure.Put conn p = (None, p', infrastructure.EvPut conn :: after) /\
  forallb (fun ev => negb (is_put ev) && negb (is_command ev)) after = true).
{ unfold infrastructure.Put. destruct (infrastructure.closed p).
  - eexists _, _. split; reflexivity.
  - destruct (_ <? _)%nat; eexists _, _; split; reflexivity. }
destruct Hput as (p' & after & Hput & Hafter). rewrite Hput.
assert (Hfilter : forall commands, forallb is_command commands = true ->
  filter is_put ((tr ++ commands) ++ infrastructure.EvPut conn :: after)
    = [infrastructure.EvPut conn]).
{ intros commands Hc. rewrite !filter_app. simpl.
  assert (Hnone : forall l, forallb (fun ev => negb (is_put ev)) l = true ->
                            filter is_put l = []).
  { induction l as [|x l IH]; simpl; [reflexivity|].
    destruct (is_put x); simpl; [discriminate|exact IH]. }
  rewrite (Hnone tr), (Hnone commands), (Hnone after); [reflexivity| | |].
  - rewrite forallb_forall in *. intros x Hx. apply Hafter in Hx.
    now apply andb_prop in Hx as [-> _].
  - rewrite forallb_forall in *. intros x Hx. apply Hc in Hx.
    destruct x; simpl in *; congruence.
  - rewrite forallb_forall in *. intros x Hx. apply Htr in Hx.
    now apply andb_prop in Hx as [-> _]. }
assert (Hafter' : forallb (fun ev => negb (is_command ev)) after = true).
{ rewrite forallb_forall in *. intros x Hx. apply Hafter in Hx.
  now apply andb_prop in Hx as [_ ->]. }
destruct (infrastructure.buildMessage BEncode _ _ email) as [message [berr|]].
{ exists (Some (infrastructure.wrap "failed to build message: " berr)), [], p', after.
  rewrite app_nil_r. repeat split; auto.
  rewrite <- (app_nil_r tr) at 1. now apply Hfilter. }
destruct (infrastructure.sendWithConnection env conn email message) as [[serr|] tr'] eqn:Es;
  pose proof (sendWithConnection_trace _ _ _ _ Es) as Hc.
- exists (Some (infrastructure.wrap "failed to send: " serr)), tr', p', after.
  repeat split; auto.
- exists None, tr', p', after. repeat split; auto.
Qed.


(** The theorem at a send whose second [RCPT TO] fails. *)
Lemma Send_always_puts_connection_back_witness :
  exists result commands p' after,
    infrastructure.Send (fun s => s) env_rcpt_refused client0 (domain.email email_with_bad_cc)
      = (result, infrastructure.mkClient smtp_config p',
         ([infrastructure.EvSelect; infrastructure.EvNoop 0%nat] ++ commands)
         ++ infrastructure.EvPut 0%nat :: after) /\
    infrastructure.Put 0%nat (infrastructure.mkPool smtp_config 2 [1%nat] false)
      = (None, p', infrastructure.EvPut 0%nat :: after) /\
    forallb is_command commands = true /\
    filter is_put (([infrastructure.EvSelect; infrastructure.EvNoop 0%nat] ++ commands)
                   ++ infrastructure.EvPut 0%nat :: after)
      = [infrastructure.EvPut 0%nat] /\
    forallb (fun ev => negb (is_command ev)) after = true.
Proof.
exact (@Send_always_puts_connection_back (fun s => s) env_rcpt_refused client0
         (domain.email email_with_bad_cc) 0%nat
         (infrastructure.mkPool smtp_config 2 [1%nat] false)
         [infrastructure.EvSelect; infrastructure.EvNoop 0%nat] eq_refl).
Defined.

(* ================================================================== *)
(** * Package [infrastructure]: the message builder *)

#[global] Arguments firstn : simpl never.
#[global] Arguments skipn : simpl never.

Lemma fold_left_WriteString (A : Type) (f : A -> gostring) (l : list A) (buf : gostring) :
  fold_left (fun buf x => infrastructure.WriteString buf (f x)) l buf
  = buf ++ concat (map f l).
Proof.
revert buf. induction l as [|x l IH]; intros buf; simpl.
- now rewrite app_nil_r.
- rewrite IH. unfold infrastructure.WriteString. now rewrite <- app_assoc.
Qed.

(** The slice the loop writes at index [i] is the next piece of 76. *)
Lemma slice_76 (s : gostring) (i : nat) :
  (i < length s)%nat ->
  slice s (Z.of_nat i)
        (if (Z.of_nat i + 76 >? len s)%Z then len s else Z.of_nat i + 76)
  = firstn 76 (skipn i s).
Proof.
intros Hi. unfold slice, len.
destruct (Z.gtb_spec (Z.of_nat i + 76) (Z.of_nat (length s))) as [Hgt|Hle].
- rewrite Nat2Z.id.
  replace (Z.to_nat (Z.of_nat (length s) - Z.of_nat i)) with (length (skipn i s))
    by (rewrite length_skipn; lia).
  rewrite firstn_all. symmetry. apply firstn_all2. rewrite length_skipn. lia.
- rewrite Nat2Z.id. f_equal. lia.
Qed.

(** The loop over the base64 text writes its pieces of 76, each followed
    by CRLF. *)
Lemma write_lines_spec (fuel i : nat) (encoded buf : gostring) :
  infrastructure.write_lines fuel (Z.of_nat i) encoded buf
  = buf ++ concat (map (fun l => l ++ CRLF) (lines76 fuel (skipn i encoded))).
Proof.
revert i buf. induction fuel as [|fuel IH]; intros i buf; simpl.
- now rewrite app_nil_r.
- unfold len. destruct (Z.ltb_spec (Z.of_nat i) (Z.of_nat (length encoded))) as [Hlt|Hge].
  + fold (len encoded). rewrite slice_76 by lia.
    replace (Z.of_nat i + 76)%Z with (Z.of_nat (i + 76)) by lia.
    rewrite IH. unfold infrastructure.WriteString.
    destruct (skipn i encoded) as [|c rest] eqn:Es.
    { exfalso. apply (f_equal (@length _)) in Es. rewrite length_skipn in Es.
      simpl in Es. lia. }
    cbn [lines76 map concat]. rewrite <- Es.
    replace (skipn (i + 76) encoded) with (skipn 76 (skipn i encoded))
      by (rewrite skipn_skipn; f_equal; lia).
    rewrite <- ?app_assoc; reflexivity.
  + rewrite skipn_all2 by lia. simpl. now rewrite app_nil_r.
Qed.

Lemma write_attachment_spec (outer buf : gostring) (att : domain.Attachment) :
  infrastructure.write_attachment outer buf att
  = buf ++ (str "--" ++ outer ++ CRLF ++ render (AttachmentEntity att) ++ CRLF).
Proof.
unfold infrastructure.write_attachment, infrastructure.WriteString.
change 0%Z with (Z.of_nat 0). rewrite write_lines_spec.
unfold render, attachment_headers, base64_lines.
change (skipn 0 (base64.EncodeToString (domain.Data att)))
  with (base64.EncodeToString (domain.Data att)).
rewrite <- ?app_assoc. reflexivity.
Qed.

Lemma fold_write_attachment (outer : gostring) (atts : list domain.Attachment)
  (buf : gostring) :
  fold_left (infrastructure.write_attachment outer) atts buf
  = buf ++ concat (map (fun p => str "--" ++ outer ++ CRLF ++ render p ++ CRLF)
                       (map AttachmentEntity atts)).
Proof.
revert buf. induction atts as [|att atts IH]; intros buf; cbn [fold_left map concat].
- now rewrite app_nil_r.
- rewrite IH, write_attachment_spec. rewrite <- ?app_assoc; reflexivity.
Qed.

Lemma write_bodies_spec (inner : gostring) (email : domain.Email) (buf : gostring) :
  infrastructure.write_bodies inner email buf
  = buf ++ concat (map (fun p => str "--" ++ inner ++ CRLF ++ render p ++ CRLF)
                       (body_parts email)).
Proof.
unfold infrastructure.write_bodies, infrastructure.WriteString, body_parts.
destruct (gostr.eqb (domain.TextBody email) []);
destruct (gostr.eqb (domain.HTMLBody email) []);
  cbn [negb app map concat render];
  rewrite <- ?app_assoc, ?app_nil_r; reflexivity.
Qed.

(** The header fields of a message, up to and including [MIME-Version]. *)
Lemma write_headers_spec BEncode host clock email buf :
  infrastructure.write_headers BEncode host clock email buf
  = buf ++ infrastructure.write_headers BEncode host clock email [].
Proof.
unfold infrastructure.write_headers, infrastructure.WriteString.
rewrite !fold_left_WriteString.
destruct (0 <? Z.of_nat (length (domain.Cc email)))%Z;
destruct (domain.Priority_ email);
  rewrite <- ?app_assoc; reflexivity.
Qed.

(** The built message is the header fields followed by the wire form of
    the body. *)
Lemma buildMessage_fields_then_body BEncode host clock email :
  exists fields,
    infrastructure.write_headers BEncode host clock email []
      = fields ++ str "MIME-Version: 1.0" ++ CRLF /\
    infrastructure.buildMessage BEncode host clock email
      = ((fields ++ str "MIME-Version: 1.0" ++ CRLF) ++ render (mime_of clock email),
         None).
Proof.
assert (Hf : exists fields,
  infrastructure.write_headers BEncode host clock email []
    = fields ++ str "MIME-Version: 1.0" ++ CRLF).
{ unfold infrastructure.write_headers, infrastructure.WriteString.
  eexists. reflexivity. }
destruct Hf as (fields & Hf). exists fields. split; [exact Hf|].
rewrite <- Hf. unfold infrastructure.buildMessage, mime_of, alternative_block.
unfold infrastructure.WriteString. f_equal.
destruct (domain.Attachments email) as [|att atts] eqn:Ea.
- simpl length. change (0 <? Z.of_nat 0)%Z with false. cbv iota.
  rewrite write_bodies_spec. cbn [render].
  rewrite <- ?app_assoc. reflexivity.
- replace (0 <? Z.of_nat (length (att :: atts)))%Z with true
    by (symmetry; apply Z.ltb_lt; simpl; lia).
  cbv iota. rewrite write_bodies_spec.
  rewrite fold_write_attachment.
  cbn [render map concat]. rewrite <- ?app_assoc. reflexivity.
Qed.

(** C6: the message is its header fields, the last of which is
    [MIME-Version: 1.0], followed by the wire form of the body the
    specification prescribes.  Without attachments that body is the
    [multipart/alternative] entity, declared on the first line after the
    header fields, with exactly the text and HTML sub-parts that are
    present; with attachments it is a [multipart/mixed] entity whose first
    part is that alternative block and whose other parts are the
    attachments in order. *)
Theorem buildMessage_renders_mime_structure :
  forall (BEncode : gostring -> gostring) (host : gostring)
         (clock : infrastructure.Clock) (email : domain.Email),
  let inner := infrastructure.innerBoundary clock in
  let outer := infrastructure.outerBoundary clock in
  (exists fields,
     infrastructure.write_headers BEncode host clock email []
       = fields ++ str "MIME-Version: 1.0" ++ CRLF /\
     infrastructure.buildMessage BEncode host clock email
       = ((fields ++ str "MIME-Version: 1.0" ++ CRLF) ++ render (mime_of clock email),
          None)) /\
  (domain.Attachments email = [] ->
   mime_of clock email = MultipartEntity (str "alternative") inner (body_parts email) /\
   render (mime_of clock email)
     = str "Content-Type: multipart/alternative; boundary=" ++ DQUOTE ++ inner
       ++ DQUOTE ++ CRLF ++ CRLF
       ++ concat (map (fun p => str "--" ++ inner ++ CRLF ++ render p ++ CRLF)
                      (body_parts email))
       ++ str "--" ++ inner ++ str "--" ++ CRLF) /\
  (domain.Attachments email <> [] ->
   mime_of clock email
     = MultipartEntity (str "mixed") outer
         (MultipartEntity (str "alternative") inner (body_parts email)
          :: map AttachmentEntity (domain.Attachments email)) /\
   exists rest,
     render (mime_of clock email)
       = str "Content-Type: multipart/mixed; boundary=" ++ DQUOTE ++ outer
         ++ DQUOTE ++ CRLF ++ rest).
Proof.
intros BEncode host clock email inner outer. split; [|split].
- assert (Hf : exists fields,
    infrastructure.write_headers BEncode host clock email []
      = fields ++ str "MIME-Version: 1.0" ++ CRLF).
  { unfold infrastructure.write_headers, infrastructure.WriteString.
    eexists. reflexivity. }
  destruct Hf as (fields & Hf). exists fields. split; [exact Hf|].
  rewrite <- Hf. unfold infrastructure.buildMessage, mime_of, alternative_block.
  unfold infrastructure.WriteString. f_equal.
  destruct (domain.Attachments email) as [|att atts] eqn:Ea.
  + simpl length. change (0 <? Z.of_nat 0)%Z with false. cbv iota.
    rewrite write_bodies_spec. cbn [render].
    rewrite <- ?app_assoc. reflexivity.
  + replace (0 <? Z.of_nat (length (att :: atts)))%Z with true
      by (symmetry; apply Z.ltb_lt; simpl; lia).
    cbv iota. rewrite write_bodies_spec.
    rewrite fold_write_attachment.
    cbn [render map concat]. rewrite <- ?app_assoc. reflexivity.
- intros Ha. unfold mime_of, alternative_block. rewrite Ha. split; [reflexivity|].
  cbn [render]. rewrite <- ?app_assoc. reflexivity.
- intros Ha. unfold mime_of, alternative_block.
  destruct (domain.Attachments email); [contradiction|]. split; [reflexivity|].
  cbn [render]. eexists. rewrite <- ?app_assoc. reflexivity.
Qed.

(** The theorem at an email with one attachment. *)
Lemma buildMessage_renders_mime_structure_witness :
  domain.Attachments email_with_attachment <> [] /\
  mime_of clock0 email_with_attachment
    = MultipartEntity (str "mixed") (infrastructure.outerBoundary clock0)
        (MultipartEntity (str "alternative") (infrastructure.innerBoundary clock0)
           (body_parts email_with_attachment)
         :: map AttachmentEntity (domain.Attachments email_with_attachment)).
Proof.
assert (H : domain.Attachments email_with_attachment <> []) by discriminate.
split; [exact H|].
exact (proj1 (proj2 (proj2 (@buildMessage_renders_mime_structure (fun s => s)
         (str "host") clock0 email_with_attachment)) H)).
Defined.

(* ================================================================== *)
(** * [encoding/base64]: decoding undoes encoding *)

Lemma list_ind3 (A : Type) (P : list A -> Prop) :
  P [] -> (forall a, P [a]) -> (forall a b, P [a; b]) ->
  (forall a b c l, P l -> P (a :: b :: c :: l)) ->
  forall l, P l.
Proof.
intros H0 H1 H2 H3.
fix IH 1. intros [|a [|b [|c l]]].
- exact H0.
- apply H1.
- apply H2.
- apply H3. apply IH.
Qed.

Lemma sextets_ok :
  forallb (fun i => match base64.decodeChar (base64.encodeChar i) with
                    | Some j => N.eqb i j
                    | None => false
                    end && negb (Ascii.eqb (base64.encodeChar i) base64.padChar))
          (map N.of_nat (seq 0 64)) = true.
Proof. vm_compute. reflexivity. Qed.

Lemma sextet_cases (i : N) :
  (i < 64)%N ->
  base64.decodeChar (base64.encodeChar i) = Some i /\
  Ascii.eqb (base64.encodeChar i) base64.padChar = false.
Proof.
intros Hi. pose proof sextets_ok as H. rewrite forallb_forall in H.
specialize (H i). rewrite in_map_iff in H.
assert (Hin : exists x, N.of_nat x = i /\ In x (seq 0 64)).
{ exists (N.to_nat i). split; [apply N2Nat.id|]. apply in_seq. lia. }
apply H in Hin. apply andb_prop in Hin as [H1 H2].
destruct (base64.decodeChar (base64.encodeChar i)) as [j|]; [|discriminate].
apply N.eqb_eq in H1. subst j. split; [reflexivity|].
now apply negb_true_iff in H2.
Qed.

Lemma byte_of_to_N (b : Byte.byte) (n : N) :
  (n mod 256 = Byte.to_N b)%N -> base64.byte_of n = b.
Proof.
intros H. unfold base64.byte_of. rewrite H, Byte.of_to_N. reflexivity.
Qed.

Lemma to_N_lt (b : Byte.byte) : (Byte.to_N b < 256)%N.
Proof. pose proof (Byte.to_N_bounded b). lia. Qed.

Ltac digits :=
  repeat match goal with v := _ : N |- _ => subst v end;
  repeat match goal with
  | b : Byte.byte |- _ =>
      lazymatch goal with
      | H : (Byte.to_N b < 256)%N |- _ => fail
      | _ => pose proof (to_N_lt b)
      end
  end;
  zify; Z.to_euclidean_division_equations; lia.

(** [DecodeString] undoes [EncodeToString]. *)
Lemma DecodeString_EncodeToString (src : list Byte.byte) :
  base64.DecodeString (base64.EncodeToString src) = Some src.
Proof.
induction src as [|a|a b|a b c rest IH] using list_ind3.
- reflexivity.
- cbn [base64.EncodeToString base64.DecodeString].
  set (val := (Byte.to_N a * 65536)%N).
  destruct (@sextet_cases (val / 262144 mod 64)%N) as [-> _]; [digits|].
  destruct (@sextet_cases (val / 4096 mod 64)%N) as [-> _]; [digits|].
  rewrite Ascii.eqb_refl. cbn [andb]. do 2 f_equal.
  apply byte_of_to_N. subst val. digits.
- cbn [base64.EncodeToString base64.DecodeString].
  set (val := (Byte.to_N a * 65536 + Byte.to_N b * 256)%N).
  destruct (@sextet_cases (val / 262144 mod 64)%N) as [-> _]; [digits|].
  destruct (@sextet_cases (val / 4096 mod 64)%N) as [-> _]; [digits|].
  destruct (@sextet_cases (val / 64 mod 64)%N) as [-> ->]; [digits|].
  rewrite Ascii.eqb_refl. cbn [andb].
  f_equal. f_equal; [|f_equal]; apply byte_of_to_N; subst val; digits.
- cbn [base64.EncodeToString base64.DecodeString].
  set (val := (Byte.to_N a * 65536 + Byte.to_N b * 256 + Byte.to_N c)%N).
  destruct (@sextet_cases (val / 262144 mod 64)%N) as [-> _]; [digits|].
  destruct (@sextet_cases (val / 4096 mod 64)%N) as [-> _]; [digits|].
  destruct (@sextet_cases (val / 64 mod 64)%N) as [-> _]; [digits|].
  destruct (@sextet_cases (val mod 64)%N) as [-> ->]; [digits|].
  cbn [andb]. rewrite IH.
  f_equal. f_equal; [|f_equal; [|f_equal]]; apply byte_of_to_N; subst val; digits.
Qed.

(** The pieces of 76 put together again give the text. *)
Lemma lines76_concat (fuel : nat) (s : gostring) :
  (length s <= fuel)%nat -> concat (lines76 fuel s) = s.
Proof.
revert s. induction fuel as [|fuel IH]; intros s Hs.
- destruct s; [reflexivity|simpl in Hs; lia].
- destruct s as [|c s]; [reflexivity|].
  cbn [lines76 concat]. rewrite IH.
  + apply firstn_skipn.
  + rewrite length_skipn. cbn [length] in *. lia.
Qed.

(** No piece is empty or longer than 76. *)
Lemma lines76_bounds (fuel : nat) (s : gostring) :
  Forall (fun l => (0 < length l <= 76)%nat) (lines76 fuel s).
Proof.
revert s. induction fuel as [|fuel IH]; intros s; [constructor|].
destruct s as [|c s]; [constructor|].
cbn [lines76]. constructor; [|apply IH].
rewrite length_firstn. cbn [length]. lia.
Qed.

(** C7: every attachment of an email has its part in the built message:
    the opening delimiter of the outer boundary, the attachment's header
    lines, an empty line, lines of base64 text each ended by CRLF, and an
    empty line.  No such line is empty or longer than 76 characters, and
    the lines put together decode to the bytes of the attachment. *)
Theorem attachment_part_round_trip :
  forall (BEncode : gostring -> gostring) (host : gostring)
         (clock : infrastructure.Clock) (email : domain.Email)
         (att : domain.Attachment),
  In att (domain.Attachments email) ->
  exists before after lines,
    fst (infrastructure.buildMessage BEncode host clock email)
      = before
        ++ (str "--" ++ infrastructure.outerBoundary clock ++ CRLF
            ++ attachment_headers att ++ CRLF
            ++ concat (map (fun l => l ++ CRLF) lines)
            ++ CRLF)
        ++ after /\
    Forall (fun l => (0 < length l <= 76)%nat) lines /\
    base64.DecodeString (concat lines) = Some (domain.Data att).
Proof.
intros BEncode host clock email att Hin.
destruct (buildMessage_fields_then_body BEncode host clock email)
  as (fields & _ & Hb).
rewrite Hb. cbn [fst].
assert (Hm : mime_of clock email
  = MultipartEntity (str "mixed") (infrastructure.outerBoundary clock)
      (MultipartEntity (str "alternative") (infrastructure.innerBoundary clock)
         (body_parts email)
       :: map AttachmentEntity (domain.Attachments email))).
{ unfold mime_of, alternative_block.
  destruct (domain.Attachments email); [contradiction|reflexivity]. }
rewrite Hm. cbn [render map concat].
apply in_split in Hin as (l1 & l2 & ->).
rewrite !map_app, concat_app. cbn [map concat render].
exists ((fields ++ str "MIME-Version: 1.0" ++ CRLF)
        ++ str "Content-Type: multipart/" ++ str "mixed" ++ str "; boundary="
        ++ DQUOTE ++ infrastructure.outerBoundary clock ++ DQUOTE ++ CRLF ++ CRLF
        ++ (str "--" ++ infrastructure.outerBoundary clock ++ CRLF
            ++ render (MultipartEntity (str "alternative")
                         (infrastructure.innerBoundary clock) (body_parts email))
            ++ CRLF)
        ++ concat (map (fun p => str "--" ++ infrastructure.outerBoundary clock
                                 ++ CRLF ++ render p ++ CRLF)
                       (map AttachmentEntity l1))),
       (concat (map (fun p => str "--" ++ infrastructure.outerBoundary clock
                              ++ CRLF ++ render p ++ CRLF)
                    (map AttachmentEntity l2))
        ++ str "--" ++ infrastructure.outerBoundary clock ++ str "--" ++ CRLF),
       (base64_lines (domain.Data att)).
split; [|split].
- cbn [render]. rewrite <- ?app_assoc. reflexivity.
- apply lines76_bounds.
- unfold base64_lines. rewrite lines76_concat by lia.
  apply DecodeString_EncodeToString.
Qed.

(** The theorem at the attachment of [email_with_attachment]. *)
Lemma attachment_part_round_trip_witness :
  exists att before after lines,
    In att (domain.Attachments email_with_attachment) /\
    fst (infrastructure.buildMessage (fun s => s) (str "host") clock0 email_with_attachment)
      = before
        ++ (str "--" ++ infrastructure.outerBoundary clock0 ++ CRLF
            ++ attachment_headers att ++ CRLF
            ++ concat (map (fun l => l ++ CRLF) lines)
            ++ CRLF)
        ++ after /\
    Forall (fun l => (0 < length l <= 76)%nat) lines /\
    base64.DecodeString (concat lines) = Some (domain.Data att).
Proof.
assert (Hin : In (hd (domain.mkAttachment [] [] []) (domain.Attachments email_with_attachment))
                 (domain.Attachments email_with_attachment)) by (left; reflexivity).
destruct (@attachment_part_round_trip (fun s => s) (str "host") clock0
            email_with_attachment _ Hin) as (before & after & lines & H).
exists (hd (domain.mkAttachment [] [] []) (domain.Attachments email_with_attachment)),
       before, after, lines.
split; [exact Hin|exact H].
Defined.

(* ================================================================== *)
(** * The message builder: lines and delimiters *)

Lemma forallb_impl (A : Type) (p q : A -> bool) (l : list A) :
  (forall x, p x = true -> q x = true) -> forallb p l = true -> forallb q l = true.
Proof.
intros H. rewrite !forallb_forall. auto.
Qed.

Lemma single_line_app (a b : gostring) :
  single_line (a ++ b) = single_line a && single_line b.
Proof. apply forallb_app. Qed.

Lemma itoa_decimal (z : Z) : forallb decimal_char (itoa z) = true.
Proof.
unfold itoa, gostr.str.
assert (Hu : forall d, forallb decimal_char
                 (list_ascii_of_string (NilEmpty.string_of_uint d)) = true).
{ induction d; simpl; auto. }
assert (Hz : forall d, forallb decimal_char
                 (list_ascii_of_string (NilZero.string_of_uint d)) = true).
{ intros d. destruct d; try apply Hu. reflexivity. }
destruct (Z.to_int z) as [d|d]; simpl.
- apply Hz.
- apply Hz.
Qed.

Lemma single_line_itoa (z : Z) : single_line (itoa z) = true.
Proof.
apply (forallb_impl decimal_char); [|apply itoa_decimal].
intros c. unfold decimal_char, regexp.digit, regexp.in_range, is_dash.
destruct c as [[|] [|] [|] [|] [|] [|] [|] [|]]; vm_compute; congruence.
Qed.

Lemma no_space_itoa (z : Z) : forallb (fun c => negb (is_space c)) (itoa z) = true.
Proof.
apply (forallb_impl decimal_char); [|apply itoa_decimal].
intros c. unfold decimal_char, regexp.digit, regexp.in_range, is_dash.
destruct c as [[|] [|] [|] [|] [|] [|] [|] [|]]; vm_compute; congruence.
Qed.

Lemma encodeChar_base64 (i : N) : base64_char (base64.encodeChar i) = true.
Proof.
unfold base64.encodeChar, base64_char.
apply existsb_exists. exists (nth (N.to_nat i) base64.alphabet base64.padChar).
split; [|apply Ascii.eqb_refl].
destruct (nth_in_or_default (N.to_nat i) base64.alphabet base64.padChar) as [H|H].
- now right.
- left. now rewrite H.
Qed.

Lemma EncodeToString_base64 (src : list Byte.byte) :
  forallb base64_char (base64.EncodeToString src) = true.
Proof.
induction src as [|a|a b|a b c rest IH] using list_ind3;
  cbn [base64.EncodeToString forallb]; rewrite ?encodeChar_base64, ?IH; reflexivity.
Qed.

Lemma base64_char_plain (c : ascii) :
  base64_char c = true ->
  is_eol c = false /\ is_dash c = false /\ is_underscore c = false.
Proof.
destruct c as [[|] [|] [|] [|] [|] [|] [|] [|]]; vm_compute; intros H;
  repeat split; congruence.
Qed.

Lemma forallb_firstn_skipn (A : Type) (p : A -> bool) (n : nat) (l : list A) :
  forallb p l = true ->
  forallb p (firstn n l) = true /\ forallb p (skipn n l) = true.
Proof.
intros H. rewrite <- (firstn_skipn n l), forallb_app in H.
now apply andb_prop in H.
Qed.

Lemma lines76_chars (p : ascii -> bool) (fuel : nat) (s : gostring) :
  forallb p s = true -> Forall (fun l => forallb p l = true) (lines76 fuel s).
Proof.
revert s. induction fuel as [|fuel IH]; intros s Hs; [constructor|].
destruct s as [|c s]; [constructor|].
cbn [lines76]. constructor.
- now apply forallb_firstn_skipn.
- apply IH. now apply forallb_firstn_skipn.
Qed.

(** ** [crlf_only] *)

Lemma crlf_only_app (a b : gostring) :
  crlf_only a = true -> crlf_only b = true -> crlf_only (a ++ b) = true.
Proof.
intros Ha Hb. remember (length a) as n eqn:Hn.
revert a Hn Ha. induction n as [n IH] using lt_wf_ind. intros a Hn Ha.
destruct a as [|c rest]; [exact Hb|].
cbn [app crlf_only] in *.
destruct (Ascii.eqb c CR).
- destruct rest as [|d rest']; [discriminate|].
  cbn [app]. apply andb_prop in Ha as [Hd Hr]. rewrite Hd. cbn [andb].
  apply (IH (length rest')); [subst n; cbn [length]; lia|reflexivity|exact Hr].
- destruct (Ascii.eqb c LF); [discriminate|].
  apply (IH (length rest)); [subst n; cbn [length]; lia|reflexivity|exact Ha].
Qed.

Lemma single_line_crlf_only (s : gostring) :
  single_line s = true -> crlf_only s = true.
Proof.
induction s as [|c s IH]; [reflexivity|].
cbn [single_line forallb crlf_only]. intros H.
apply andb_prop in H as [Hc Hs]. apply andb_prop in Hc as [H1 H2].
apply negb_true_iff in H1, H2. rewrite H1, H2. now apply IH.
Qed.

Lemma crlf_only_line (x rest : gostring) :
  single_line x = true -> crlf_only rest = true -> crlf_only ((x ++ CRLF) ++ rest) = true.
Proof.
intros Hx Hr. apply crlf_only_app; [|exact Hr].
apply crlf_only_app; [now apply single_line_crlf_only|reflexivity].
Qed.

(** ** [count_lines] *)

Lemma count_lines_single_line (d cur x rest : gostring) :
  single_line x = true ->
  count_lines d cur (x ++ rest) = count_lines d (cur ++ x) rest.
Proof.
revert cur. induction x as [|c x IH]; intros cur Hx.
- now rewrite app_nil_r.
- cbn [single_line forallb] in Hx.
  apply andb_prop in Hx as [Hc Hx]. apply andb_prop in Hc as [_ Hc].
  apply negb_true_iff in Hc. cbn [app count_lines]. rewrite Hc.
  rewrite IH by exact Hx. now rewrite <- app_assoc.
Qed.

(** A line [x] and its CRLF count for one when [x] followed by CR is the
    line looked for. *)
Lemma count_lines_line (d x rest : gostring) :
  single_line x = true ->
  count_lines d [] ((x ++ CRLF) ++ rest)
  = ((if gostr.eqb (x ++ [CR]) d then 1 else 0) + count_lines d [] rest)%nat.
Proof.
intros Hx. rewrite <- app_assoc. rewrite count_lines_single_line by exact Hx.
reflexivity.
Qed.

Lemma count_lines_complete (d cur a b : gostring) :
  count_lines d cur ((a ++ [LF]) ++ b)
  = (count_lines d cur (a ++ [LF]) + count_lines d [] b)%nat.
Proof.
revert cur. induction a as [|c a IH]; intros cur.
- cbn [app count_lines]. rewrite Ascii.eqb_refl. cbn [count_lines]. lia.
- cbn [app count_lines]. destruct (Ascii.eqb c LF).
  + rewrite IH. lia.
  + apply IH.
Qed.

(** A counted line stands in the text, with its LF. *)
Lemma count_lines_found (d cur s : gostring) :
  count_lines d cur s <> 0%nat -> Contains (cur ++ s) (d ++ [LF]).
Proof.
revert cur. induction s as [|c s IH]; intros cur; cbn [count_lines].
- congruence.
- destruct (Ascii.eqb_spec c LF) as [->|Hc].
  + destruct (gostr_eqb_spec cur d) as [->|Hd].
    * intros _. exists [], s. cbn [app]. rewrite <- ?app_assoc. reflexivity.
    * intros H. destruct (IH [] H) as (a & b & Hab). cbn [app] in Hab.
      exists (cur ++ LF :: a), b. rewrite Hab. rewrite <- ?app_assoc. reflexivity.
  + intros H. destruct (IH _ H) as (a & b & Hab).
    exists a, b. rewrite <- Hab. rewrite <- ?app_assoc. reflexivity.
Qed.

(** An occurrence of [p ++ tok ++ q] in a text followed by a suffix no
    longer than [q] has its [tok] inside the text. *)
Lemma Contains_before_suffix (body sfx p tok q : gostring) :
  Contains (body ++ sfx) (p ++ tok ++ q) ->
  (length sfx <= length q)%nat ->
  Contains body tok.
Proof.
intros (a & b & H) Hlen.
assert (E : body ++ sfx = (a ++ p ++ tok) ++ (q ++ b))
  by (rewrite H, <- !app_assoc; reflexivity).
apply app_eq_app in E as (l & [[E1 E2]|[E1 E2]]).
- exists (a ++ p), l. rewrite E1, <- !app_assoc. reflexivity.
- assert (Hl : l = []).
  { apply (f_equal (@length _)) in E2. rewrite !length_app in E2.
    destruct l; [reflexivity|]. cbn [length] in E2. lia. }
  subst l. rewrite app_nil_r in E1. exists (a ++ p), [].
  rewrite <- E1, <- ?app_assoc. now rewrite app_nil_r.
Qed.

(** A text without the boundary has no delimiter line of it, even when the
    CRLF that follows the text ends its last line. *)
Lemma count_lines_text (boundary body rest : gostring) (d : gostring) :
  d = opening boundary \/ d = closing boundary ->
  ~ Contains body boundary ->
  count_lines d [] ((body ++ CRLF) ++ rest) = count_lines d [] rest.
Proof.
intros Hd Hb.
change (body ++ CRLF) with (body ++ [CR] ++ [LF]).
rewrite (app_assoc body [CR] [LF]), count_lines_complete.
destruct (Nat.eq_dec (count_lines d [] ((body ++ [CR]) ++ [LF])) 0) as [->|Hn];
  [reflexivity|].
exfalso. apply Hb. apply count_lines_found in Hn. cbn [app] in Hn.
rewrite <- app_assoc in Hn.
destruct Hd as [-> | ->]; unfold opening, closing in Hn; rewrite <- !app_assoc in Hn.
- apply (@Contains_before_suffix body ([CR] ++ [LF]) (str "--") boundary ([CR] ++ [LF]));
    [exact Hn|cbn [length app]; lia].
- apply (@Contains_before_suffix body ([CR] ++ [LF]) (str "--") boundary
           (str "--" ++ [CR] ++ [LF])); [exact Hn|].
  rewrite !length_app. cbn [length]. lia.
Qed.

(** ** The boundaries *)

Lemma boundary_chars (clock : infrastructure.Clock) (w : Which) :
  single_line (boundary_of clock w) = true /\
  forallb (fun c => negb (is_space c)) (boundary_of clock w) = true.
Proof.
destruct w; unfold boundary_of, infrastructure.innerBoundary,
  infrastructure.outerBoundary; rewrite single_line_app, forallb_app;
  rewrite single_line_itoa, no_space_itoa; split; reflexivity.
Qed.

Lemma boundary_has_underscore (clock : infrastructure.Clock) (w : Which) :
  In "_"%char (boundary_of clock w).
Proof.
destruct w; unfold boundary_of, infrastructure.innerBoundary,
  infrastructure.outerBoundary; apply in_or_app; left;
  cbv; tauto.
Qed.

Lemma delimiter_no_space clock w d :
  delimiter_of clock w d -> forallb (fun c => negb (is_space c)) d = true.
Proof.
destruct (boundary_chars clock w) as [_ Hb].
intros [-> | ->]; unfold opening, closing; rewrite !forallb_app, Hb; reflexivity.
Qed.

Lemma delimiter_starts_with_dash clock w d :
  delimiter_of clock w d -> exists d', d = "-"%char :: d'.
Proof. intros [-> | ->]; eexists; reflexivity. Qed.

(** A line with a space is no delimiter line. *)
Lemma field_is_no_delimiter clock w d x :
  delimiter_of clock w d -> existsb is_space x = true ->
  gostr.eqb (x ++ [CR]) d = false.
Proof.
intros Hd Hx. apply gostr_eqb_neq. intros E.
apply delimiter_no_space in Hd. rewrite <- E, forallb_app in Hd.
apply andb_prop in Hd as [Hd _].
apply existsb_exists in Hx as (c & Hin & Hc).
rewrite forallb_forall in Hd. apply Hd in Hin. rewrite Hc in Hin. discriminate.
Qed.

(** A line of base64 text, empty or not, is no delimiter line. *)
Lemma base64_is_no_delimiter clock w d l :
  delimiter_of clock w d -> forallb base64_char l = true ->
  gostr.eqb (l ++ [CR]) d = false.
Proof.
intros Hd Hl. apply delimiter_starts_with_dash in Hd as (d' & ->).
destruct l as [|c l]; [reflexivity|].
cbn [forallb] in Hl. apply andb_prop in Hl as [Hc _].
apply base64_char_plain in Hc as (_ & Hc & _).
cbn [app gostr.eqb]. unfold is_dash in Hc. now rewrite Hc.
Qed.

Lemma opening_eqb clock w w' :
  gostr.eqb ((str "--" ++ boundary_of clock w') ++ [CR]) (opening (boundary_of clock w))
  = opens w (Opening w').
Proof.
destruct w, w'; try reflexivity; unfold opening; rewrite <- app_assoc;
  apply gostr_eqb_refl.
Qed.

Lemma closing_eqb clock w w' :
  gostr.eqb ((str "--" ++ boundary_of clock w' ++ str "--") ++ [CR])
            (closing (boundary_of clock w))
  = closes w (Closing w').
Proof.
destruct w, w'; try reflexivity; unfold closing; rewrite <- !app_assoc;
  apply gostr_eqb_refl.
Qed.

Lemma opening_is_not_closing clock w w' :
  gostr.eqb ((str "--" ++ boundary_of clock w') ++ [CR]) (closing (boundary_of clock w))
  = false.
Proof.
destruct w, w'; try reflexivity; apply gostr_eqb_neq; intros E;
  apply (f_equal (@length _)) in E; unfold closing in E;
  rewrite !length_app in E; cbn [length] in E;
  change (length (str "--")) with 2%nat in E; lia.
Qed.

Lemma closing_is_not_opening clock w w' :
  gostr.eqb ((str "--" ++ boundary_of clock w' ++ str "--") ++ [CR])
            (opening (boundary_of clock w))
  = false.
Proof.
destruct w, w'; try reflexivity; apply gostr_eqb_neq; intros E;
  apply (f_equal (@length _)) in E; unfold opening in E;
  rewrite !length_app in E; cbn [length] in E;
  change (length (str "--")) with 2%nat in E; lia.
Qed.

(** ** Counting the delimiter lines of a list of items *)

Lemma single_line_base64 (l : gostring) :
  forallb base64_char l = true -> single_line l = true.
Proof.
apply forallb_impl. intros c Hc. apply base64_char_plain in Hc as (Hc & _).
unfold is_eol in Hc. apply orb_false_elim in Hc as [-> ->]. reflexivity.
Qed.

Lemma single_line_delimiter clock w :
  single_line (str "--" ++ boundary_of clock w) = true /\
  single_line (str "--" ++ boundary_of clock w ++ str "--") = true.
Proof.
destruct (boundary_chars clock w) as [Hb _].
rewrite !single_line_app, Hb. split; reflexivity.
Qed.

(** What one item adds to the count of a delimiter line. *)
Lemma count_lines_item clock w it rest :
  item_ok clock it ->
  count_lines (opening (boundary_of clock w)) [] (item_text clock it ++ rest)
    = ((if opens w it then 1 else 0)
       + count_lines (opening (boundary_of clock w)) [] rest)%nat /\
  count_lines (closing (boundary_of clock w)) [] (item_text clock it ++ rest)
    = ((if closes w it then 1 else 0)
       + count_lines (closing (boundary_of clock w)) [] rest)%nat.
Proof.
intros Hok.
assert (Ho : delimiter_of clock w (opening (boundary_of clock w))) by (left; reflexivity).
assert (Hc : delimiter_of clock w (closing (boundary_of clock w))) by (right; reflexivity).
destruct it as [x| |body|l|w'|w']; cbn [item_text item_ok] in *.
- destruct Hok as [Hx Hs]. rewrite !count_lines_line by exact Hx.
  rewrite (field_is_no_delimiter _ Ho Hs), (field_is_no_delimiter _ Hc Hs).
  destruct w; split; reflexivity.
- change (CRLF ++ rest) with (([] ++ CRLF) ++ rest).
  rewrite !count_lines_line by reflexivity.
  destruct w; split; reflexivity.
- destruct Hok as (_ & Hi & Hout).
  assert (Hb : ~ Contains body (boundary_of clock w)) by (destruct w; assumption).
  rewrite !(@count_lines_text (boundary_of clock w)) by auto.
  destruct w; split; reflexivity.
- rewrite !count_lines_line by (now apply single_line_base64).
  rewrite (base64_is_no_delimiter _ Ho Hok), (base64_is_no_delimiter _ Hc Hok).
  destruct w; split; reflexivity.
- destruct (single_line_delimiter clock w') as [Hs _].
  rewrite (app_assoc (str "--")). rewrite !count_lines_line by exact Hs.
  rewrite opening_eqb, opening_is_not_closing. destruct w, w'; split; reflexivity.
- destruct (single_line_delimiter clock w') as [_ Hs].
  rewrite !(app_assoc (boundary_of clock w')), !(app_assoc (str "--")).
  rewrite <- (app_assoc (str "--") (boundary_of clock w') (str "--")).
  rewrite !count_lines_line by exact Hs.
  rewrite closing_eqb, closing_is_not_opening. destruct w, w'; split; reflexivity.
Qed.

Lemma count_lines_items clock w items :
  Forall (item_ok clock) items ->
  count_lines (opening (boundary_of clock w)) [] (items_text clock items)
    = length (filter (opens w) items) /\
  count_lines (closing (boundary_of clock w)) [] (items_text clock items)
    = length (filter (closes w) items).
Proof.
unfold items_text.
induction 1 as [|it items Hit Hitems [IHo IHc]]; [split; reflexivity|].
cbn [map concat filter].
destruct (@count_lines_item clock w it (concat (map (item_text clock) items)) Hit)
  as [-> ->].
rewrite IHo, IHc.
destruct (opens w it), (closes w it); split; reflexivity.
Qed.

(** The only line terminator of well-formed items is CRLF. *)
Lemma crlf_only_items clock items :
  Forall (item_ok clock) items -> crlf_only (items_text clock items) = true.
Proof.
unfold items_text.
induction 1 as [|it items Hit Hitems IH]; [reflexivity|].
cbn [map concat]. apply crlf_only_app; [|exact IH].
destruct it as [x| |body|l|w|w]; cbn [item_text item_ok] in *.
- apply crlf_only_app; [apply single_line_crlf_only; tauto|reflexivity].
- reflexivity.
- apply crlf_only_app; [tauto|reflexivity].
- apply crlf_only_app; [now apply single_line_crlf_only, single_line_base64|reflexivity].
- destruct (single_line_delimiter clock w) as [Hs _].
  rewrite app_assoc. apply crlf_only_app; [now apply single_line_crlf_only|reflexivity].
- destruct (single_line_delimiter clock w) as [_ Hs].
  rewrite !app_assoc. rewrite <- (app_assoc (str "--")).
  apply crlf_only_app; [now apply single_line_crlf_only|reflexivity].
Qed.

(** ** The message as a list of items *)

Lemma items_text_app clock (a b : list Item) :
  items_text clock (a ++ b) = items_text clock a ++ items_text clock b.
Proof. unfold items_text. now rewrite map_app, concat_app. Qed.

Lemma custom_headers_text clock (hs : list (gostring * gostring)) :
  concat (map (fun kv => fst kv ++ str ": " ++ snd kv ++ CRLF) hs)
  = items_text clock (map (fun kv => Field (fst kv ++ str ": " ++ snd kv)) hs).
Proof.
unfold items_text. induction hs as [|kv hs IH]; [reflexivity|].
cbn [map concat item_text]. rewrite IH, <- ?app_assoc. reflexivity.
Qed.

Lemma header_items_text BEncode host clock email :
  infrastructure.write_headers BEncode host clock email []
  = items_text clock (header_items BEncode host clock email).
Proof.
unfold infrastructure.write_headers, infrastructure.WriteString, header_items.
rewrite fold_left_WriteString, (custom_headers_text clock).
rewrite !items_text_app.
destruct (0 <? Z.of_nat (length (domain.Cc email)))%Z;
destruct (domain.Priority_ email);
  unfold items_text; cbn [map concat item_text app];
  rewrite <- ?app_assoc, ?app_nil_r; reflexivity.
Qed.

Lemma body_items_text clock email :
  concat (map (fun p => str "--" ++ infrastructure.innerBoundary clock ++ CRLF
                        ++ render p ++ CRLF) (body_parts email))
  = items_text clock (body_items email).
Proof.
unfold body_parts, body_items, items_text.
destruct (gostr.eqb (domain.TextBody email) []);
destruct (gostr.eqb (domain.HTMLBody email) []);
  cbn [map concat item_text app render boundary_of];
  rewrite <- ?app_assoc, ?app_nil_r; reflexivity.
Qed.

Lemma alternative_items_text clock email :
  render (alternative_block clock email) = items_text clock (alternative_items clock email).
Proof.
unfold alternative_block, alternative_items. cbn [render].
rewrite body_items_text, !items_text_app.
unfold items_text. cbn [map concat item_text app boundary_of].
rewrite <- ?app_assoc, ?app_nil_r. reflexivity.
Qed.

Lemma attachment_items_text clock att :
  str "--" ++ infrastructure.outerBoundary clock ++ CRLF
    ++ render (AttachmentEntity att) ++ CRLF
  = items_text clock (attachment_items att).
Proof.
unfold attachment_items. rewrite !items_text_app.
unfold items_text. rewrite map_map.
cbn [map concat item_text app boundary_of render]. unfold attachment_headers.
rewrite <- ?app_assoc, ?app_nil_r. reflexivity.
Qed.

Lemma attachments_items_text clock (atts : list domain.Attachment) :
  concat (map (fun p => str "--" ++ infrastructure.outerBoundary clock ++ CRLF
                        ++ render p ++ CRLF) (map AttachmentEntity atts))
  = items_text clock (flat_map attachment_items atts).
Proof.
induction atts as [|att atts IH]; [reflexivity|].
cbn [map concat flat_map]. rewrite items_text_app, IH, attachment_items_text.
reflexivity.
Qed.

(** The built message is the text of its items. *)
Lemma message_items_text BEncode host clock email :
  fst (infrastructure.buildMessage BEncode host clock email)
  = items_text clock (message_items BEncode host clock email).
Proof.
destruct (buildMessage_fields_then_body BEncode host clock email)
  as (fields & Hf & ->).
cbn [fst]. rewrite <- Hf, header_items_text.
unfold message_items. rewrite items_text_app. f_equal.
unfold mime_of. destruct (domain.Attachments email) as [|att atts]; cbv iota.
- apply alternative_items_text.
- remember (att :: atts) as l eqn:El. clear El.
  cbn [render map concat]. fold (alternative_block clock email).
  rewrite alternative_items_text, attachments_items_text, !items_text_app.
  unfold items_text. cbn [map concat item_text app boundary_of].
  rewrite <- ?app_assoc, ?app_nil_r. reflexivity.
Qed.

(** ** The items of a message are well formed *)

Lemma single_line_Join (l : list gostring) (sep : gostring) :
  Forall (fun a => single_line a = true) l -> single_line sep = true ->
  single_line (Join l sep) = true.
Proof.
intros Hl Hsep. induction Hl as [|a l Ha Hl IH]; [reflexivity|].
destruct l as [|b l]; [exact Ha|].
change (Join (a :: b :: l) sep) with (a ++ sep ++ Join (b :: l) sep).
now rewrite !single_line_app, Ha, Hsep, IH.
Qed.

Ltac split_app :=
  repeat match goal with
  | |- Forall _ (_ ++ _) => apply Forall_app; split
  end.

Ltac each_item :=
  repeat match goal with
  | |- Forall _ (_ :: _) => apply Forall_cons
  | |- Forall _ [] => apply Forall_nil
  end;
  cbn [item_ok].

Ltac field_ok :=
  split;
  [ rewrite ?single_line_app;
    repeat match goal with
    | H : single_line ?x = true |- context [single_line ?x] => rewrite H
    end;
    rewrite ?single_line_itoa; reflexivity
  | rewrite ?existsb_app; cbn [orb]; rewrite ?orb_true_r; reflexivity ].

Lemma header_items_ok BEncode host clock email :
  header_texts_single_line BEncode host clock email ->
  Forall (item_ok clock) (header_items BEncode host clock email).
Proof.
intros (Hfrom & Hto & Hcc & Hsub & Hdate & Hhost & Hhs & _).
pose proof (@single_line_Join (domain.To email) (str ", ") Hto eq_refl) as Hto'.
pose proof (@single_line_Join (domain.Cc email) (str ", ") Hcc eq_refl) as Hcc'.
unfold header_items. split_app.
- each_item; try exact I; field_ok.
- destruct (0 <? _)%Z; each_item; try exact I; field_ok.
- each_item; try exact I; field_ok.
- induction Hhs as [|kv hs [Hk Hv] Hhs IH]; [constructor|].
  cbn [map]. constructor; [|exact IH]. cbn [item_ok].
  split.
  + rewrite !single_line_app.
    apply andb_true_intro; split; [exact Hk|].
    apply andb_true_intro; split; [reflexivity|exact Hv].
  + rewrite !existsb_app.
    change (existsb is_space (str ": ")) with true.
    now rewrite orb_true_l, orb_true_r.
- destruct (domain.Priority_ email); each_item; try exact I; field_ok.
- each_item; try exact I; field_ok.
Qed.

Lemma body_items_ok clock email :
  bodies_clean clock email -> Forall (item_ok clock) (body_items email).
Proof.
intros H. apply Forall_cons_iff in H as [Ht H].
apply Forall_cons_iff in H as [Hh _].
unfold body_items. apply Forall_app. split.
- destruct (gostr.eqb _ _); each_item; try exact I; try exact Ht; field_ok.
- destruct (gostr.eqb _ _); each_item; try exact I; try exact Hh; field_ok.
Qed.

Lemma alternative_items_ok clock email :
  bodies_clean clock email -> Forall (item_ok clock) (alternative_items clock email).
Proof.
intros H. unfold alternative_items. split_app.
- destruct (boundary_chars clock Inner) as [Hb _]. cbn [boundary_of] in Hb.
  each_item; try exact I; field_ok.
- now apply body_items_ok.
- each_item; exact I.
Qed.

Lemma attachment_items_ok clock att :
  single_line (domain.ContentType att) = true ->
  single_line (domain.Filename att) = true ->
  Forall (item_ok clock) (attachment_items att).
Proof.
intros Hct Hfn. unfold attachment_items. split_app.
- each_item; try exact I; field_ok.
- apply Forall_map. unfold base64_lines.
  apply (@lines76_chars base64_char). apply EncodeToString_base64.
- each_item; exact I.
Qed.

Lemma message_items_ok BEncode host clock email :
  header_texts_single_line BEncode host clock email ->
  bodies_clean clock email ->
  Forall (item_ok clock) (message_items BEncode host clock email).
Proof.
intros Hh Hb. unfold message_items. apply Forall_app. split.
- now apply header_items_ok.
- destruct Hh as (_ & _ & _ & _ & _ & _ & _ & Hatts).
  destruct (domain.Attachments email) as [|att atts].
  + now apply alternative_items_ok.
  + split_app.
    * destruct (boundary_chars clock Outer) as [Ho _]. cbn [boundary_of] in Ho.
      each_item; try exact I; field_ok.
    * now apply alternative_items_ok.
    * each_item; exact I.
    * apply Forall_flat_map. revert Hatts. apply Forall_impl.
      intros a [Hct Hfn]. now apply attachment_items_ok.
    * each_item; exact I.
Qed.

(** ** The delimiter items of a message *)

Lemma filter_fields (m : Item -> bool) (l : list Item) :
  (forall x, m (Field x) = false) ->
  forallb is_field l = true -> filter m l = [].
Proof.
intros Hm. induction l as [|it l IH]; [reflexivity|].
cbn [forallb filter]. intros H. apply andb_prop in H as [Hit Hl].
destruct it; try discriminate. rewrite Hm. now apply IH.
Qed.

Lemma header_items_fields BEncode host clock email :
  forallb is_field (header_items BEncode host clock email) = true.
Proof.
unfold header_items. rewrite !forallb_app.
assert (Hm : forall (A : Type) (f : A -> gostring) (l : list A),
               forallb is_field (map (fun x => Field (f x)) l) = true).
{ intros A f l. induction l; [reflexivity|exact IHl]. }
rewrite (Hm _ (fun kv => fst kv ++ str ": " ++ snd kv)).
destruct (0 <? _)%Z; destruct (domain.Priority_ email); reflexivity.
Qed.

Lemma filter_base64_lines (m : Item -> bool) (l : list gostring) :
  (forall x, m (Base64Line x) = false) -> filter m (map Base64Line l) = [].
Proof.
intros Hm. induction l as [|x l IH]; [reflexivity|].
cbn [map filter]. now rewrite Hm.
Qed.

Lemma delimiters_of_attachments (w : Which) (atts : list domain.Attachment) :
  length (filter (opens w) (flat_map attachment_items atts))
    = match w with Inner => 0%nat | Outer => length atts end /\
  length (filter (closes w) (flat_map attachment_items atts)) = 0%nat.
Proof.
induction atts as [|att atts [IHo IHc]]; [destruct w; split; reflexivity|].
cbn [flat_map]. unfold attachment_items at 1 3.
rewrite !filter_app, !length_app, IHo, IHc.
rewrite !filter_base64_lines by (intros; destruct w; reflexivity).
destruct w; split; reflexivity.
Qed.

Lemma delimiters_of_bodies (w : Which) (email : domain.Email) :
  length (filter (opens w) (body_items email))
    = match w with Inner => length (body_parts email) | Outer => 0%nat end /\
  length (filter (closes w) (body_items email)) = 0%nat.
Proof.
unfold body_items, body_parts.
destruct (gostr.eqb (domain.TextBody email) []);
destruct (gostr.eqb (domain.HTMLBody email) []); destruct w; split; reflexivity.
Qed.

(** The delimiter lines among the items of a message: the inner boundary
    is opened once per body part and closed once; the outer boundary,
    declared when there are attachments, is opened once for the
    alternative block and once per attachment, and closed once. *)
Lemma delimiters_of_message BEncode host clock email :
  let items := message_items BEncode host clock email in
  length (filter (opens Inner) items) = length (body_parts email) /\
  length (filter (closes Inner) items) = 1%nat /\
  length (filter (opens Outer) items)
    = match domain.Attachments email with
      | [] => 0%nat
      | _ :: _ => S (length (domain.Attachments email))
      end /\
  length (filter (closes Outer) items)
    = match domain.Attachments email with [] => 0%nat | _ :: _ => 1%nat end.
Proof.
intros items. subst items. unfold message_items.
pose proof (header_items_fields BEncode host clock email) as Hf.
rewrite !filter_app.
rewrite !(@filter_fields _ (header_items BEncode host clock email))
  by (exact Hf || (intros; reflexivity)).
cbn [app].
assert (Ha : forall w,
  length (filter (opens w) (alternative_items clock email))
    = match w with Inner => length (body_parts email) | Outer => 0%nat end /\
  length (filter (closes w) (alternative_items clock email))
    = match w with Inner => 1%nat | Outer => 0%nat end).
{ intros w. unfold alternative_items. rewrite !filter_app, !length_app.
  destruct (delimiters_of_bodies w email) as [-> ->].
  destruct w; split; cbn [filter opens closes length]; lia. }
destruct (domain.Attachments email) as [|att atts] eqn:Ea.
- destruct (Ha Inner) as [-> ->]. destruct (Ha Outer) as [-> ->]. auto.
- remember (att :: atts) as l eqn:El. clear El Ea.
  cbn [filter opens closes]. rewrite !filter_app. cbn [filter opens closes app].
  rewrite !filter_app. cbn [length]. rewrite !length_app.
  destruct (Ha Inner) as [-> ->]. destruct (Ha Outer) as [-> ->].
  destruct (delimiters_of_attachments Inner l) as [-> ->].
  destruct (delimiters_of_attachments Outer l) as [-> ->].
  cbn [filter opens closes length]. repeat split; lia.
Qed.

(** A text made of base64 characters holds no boundary. *)
Lemma base64_text_has_no_boundary clock w (s : gostring) :
  forallb base64_char s = true -> ~ Contains s (boundary_of clock w).
Proof.
intros Hs (a & b & E).
pose proof (boundary_has_underscore clock w) as Hu.
assert (Hin : In "_"%char s).
{ rewrite E. apply in_or_app. right. apply in_or_app. now left. }
rewrite forallb_forall in Hs. apply Hs in Hin. discriminate Hin.
Qed.

(** C5, as stated, fails.  The email [email_with_boundary_in_body] is
    valid; its text body holds the inner boundary the builder generates
    at [clock0] and a bare LF, and it has an HTML body too.  In the built
    message the boundary token stands inside the text part, one line ends
    with LF alone, and the opening delimiter line of the inner boundary
    occurs twice, once per body part. *)
Lemma boundary_in_body_bare_LF_and_two_openings :
  domain.Validate email_with_boundary_in_body = None /\
  Contains (domain.TextBody email_with_boundary_in_body)
           (infrastructure.innerBoundary clock0) /\
  crlf_only (fst (infrastructure.buildMessage (fun s => s) (str "host") clock0
                    email_with_boundary_in_body)) = false /\
  count_lines (opening (infrastructure.innerBoundary clock0)) []
    (fst (infrastructure.buildMessage (fun s => s) (str "host") clock0
            email_with_boundary_in_body)) = 2%nat.
Proof.
split; [reflexivity|]. split; [|split; vm_compute; reflexivity].
exists (str "see --"), (LF :: str "bye"). reflexivity.
Qed.

(** C5 (amended): take an email whose header texts (sender, To and Cc
    addresses, encoded subject, date, host, custom header names and
    values, content types and file names of the attachments) hold no CR
    and no LF, and whose text and HTML bodies end their lines with CRLF
    and hold neither boundary token.  Then in the built message every
    line terminator is CRLF; the closing delimiter line of the inner
    boundary occurs exactly once and its opening delimiter line once per
    body part; when there are attachments the closing delimiter line of
    the outer boundary occurs exactly once and its opening delimiter line
    once for the alternative block and once per attachment (without
    attachments the outer boundary is not declared and has no delimiter
    line); and the base64 text of an attachment holds no boundary
    token. *)
Theorem buildMessage_lines_and_delimiters :
  forall (BEncode : gostring -> gostring) (host : gostring)
         (clock : infrastructure.Clock) (email : domain.Email),
  header_texts_single_line BEncode host clock email ->
  bodies_clean clock email ->
  let message := fst (infrastructure.buildMessage BEncode host clock email) in
  let inner := infrastructure.innerBoundary clock in
  let outer := infrastructure.outerBoundary clock in
  crlf_only message = true /\
  count_lines (opening inner) [] message = length (body_parts email) /\
  count_lines (closing inner) [] message = 1%nat /\
  count_lines (opening outer) [] message
    = match domain.Attachments email with
      | [] => 0%nat
      | _ :: _ => S (length (domain.Attachments email))
      end /\
  count_lines (closing outer) [] message
    = match domain.Attachments email with [] => 0%nat | _ :: _ => 1%nat end /\
  Forall (fun att =>
            ~ Contains (base64.EncodeToString (domain.Data att)) inner /\
            ~ Contains (base64.EncodeToString (domain.Data att)) outer)
         (domain.Attachments email).
Proof.
intros BEncode host clock email Hh Hb message inner outer.
subst message inner outer. rewrite message_items_text.
pose proof (message_items_ok Hh Hb) as Hok.
destruct (delimiters_of_message BEncode host clock email) as (H1 & H2 & H3 & H4).
destruct (@count_lines_items clock Inner _ Hok) as [Hoi Hci].
destruct (@count_lines_items clock Outer _ Hok) as [Hoo Hco].
cbn [boundary_of] in Hoi, Hci, Hoo, Hco.
split; [now apply crlf_only_items|].
split; [now rewrite Hoi|]. split; [now rewrite Hci|].
split; [now rewrite Hoo|]. split; [now rewrite Hco|].
apply Forall_forall. intros att _. split.
- apply (@base64_text_has_no_boundary clock Inner), EncodeToString_base64.
- apply (@base64_text_has_no_boundary clock Outer), EncodeToString_base64.
Qed.

(** The theorem at [email_with_attachment]. *)
Lemma buildMessage_lines_and_delimiters_witness :
  header_texts_single_line (fun s => s) (str "host") clock0 email_with_attachment /\
  bodies_clean clock0 email_with_attachment /\
  crlf_only (fst (infrastructure.buildMessage (fun s => s) (str "host") clock0
                    email_with_attachment)) = true /\
  count_lines (opening (infrastructure.innerBoundary clock0)) []
    (fst (infrastructure.buildMessage (fun s => s) (str "host") clock0
            email_with_attachment)) = 2%nat /\
  count_lines (closing (infrastructure.outerBoundary clock0)) []
    (fst (infrastructure.buildMessage (fun s => s) (str "host") clock0
            email_with_attachment)) = 1%nat.
Proof.
assert (Hh : header_texts_single_line (fun s => s) (str "host") clock0
               email_with_attachment).
{ repeat split; try reflexivity; repeat constructor. }
assert (Hb : bodies_clean clock0 email_with_attachment).
{ repeat constructor; try (apply contains_false; vm_compute; reflexivity). }
split; [exact Hh|]. split; [exact Hb|].
destruct (@buildMessage_lines_and_delimiters (fun s => s) (str "host") clock0
            email_with_attachment Hh Hb) as (H1 & H2 & _ & _ & H5 & _).
split; [exact H1|]. split; [exact H2|exact H5].
Defined.

(* ================================================================== *)
(** * Package [retry]: the backoff delay *)

Lemma digits2_pos_bounds (m : positive) :
  2 ^ (Z.pos (digits2_pos m) - 1) <= Z.pos m < 2 ^ Z.pos (digits2_pos m).
Proof.
induction m as [m IH|m IH|]; cbn [digits2_pos].
- rewrite Pos2Z.inj_succ.
  replace (Z.succ (Z.pos (digits2_pos m)) - 1) with (Z.succ (Z.pos (digits2_pos m) - 1)) by lia.
  rewrite !Z.pow_succ_r by lia. lia.
- rewrite Pos2Z.inj_succ.
  replace (Z.succ (Z.pos (digits2_pos m)) - 1) with (Z.succ (Z.pos (digits2_pos m) - 1)) by lia.
  rewrite !Z.pow_succ_r by lia. lia.
- cbn. lia.
Qed.

Lemma bounded_facts (m : positive) (e : Z) :
  bounded f64.prec f64.emax m e = true ->
  - 1074 <= e <= 971 /\ Z.pos (digits2_pos m) <= 53 /\
  (- 1074 < e -> Z.pos (digits2_pos m) = 53).
Proof.
unfold bounded, canonical_mantissa, fexp, emin, f64.prec, f64.emax.
intros H. apply andb_prop in H as [H1 H2].
apply Z.eqb_eq in H1. apply Z.leb_le in H2. lia.
Qed.

Lemma pow2_pos_Z (k : Z) : 0 < k -> Z.pos (2 ^ Z.to_pos k) = 2 ^ k.
Proof.
intros Hk. rewrite Pos2Z.inj_pow. now rewrite Z2Pos.id by lia.
Qed.

Lemma to_Q_scaled (m : positive) (e : Z) :
  - 1074 <= e ->
  f64.to_Q (S754_finite false m e) == scaled m e # 2 ^ 1074.
Proof.
intros He. unfold f64.to_Q, scaled.
assert (H1074 : Z.pos (2 ^ 1074) = 2 ^ 1074) by (rewrite Pos2Z.inj_pow; reflexivity).
destruct (Z.leb_spec 0 e) as [Hpos|Hneg].
- unfold Qeq, inject_Z. cbn [Qnum Qden]. rewrite H1074.
  rewrite Z.pow_add_r by lia. lia.
- unfold Qeq. cbn [Qnum Qden]. rewrite H1074, pow2_pos_Z by lia.
  replace 1074 with ((e + 1074) + - e) at 1 by lia.
  rewrite (Z.pow_add_r 2 (e + 1074) (- e)) by lia. lia.
Qed.

Lemma scaled_lt (m1 m2 : positive) (e1 e2 : Z) :
  bounded f64.prec f64.emax m1 e1 = true ->
  bounded f64.prec f64.emax m2 e2 = true ->
  e1 < e2 -> scaled m1 e1 < scaled m2 e2.
Proof.
intros H1 H2 He.
apply bounded_facts in H1 as (He1 & Hd1 & _).
apply bounded_facts in H2 as (He2 & _ & Hd2).
specialize (Hd2 ltac:(lia)).
pose proof (digits2_pos_bounds m1) as [_ Hm1].
pose proof (digits2_pos_bounds m2) as [Hm2 _]. rewrite Hd2 in Hm2.
assert (Hm1' : Z.pos m1 < 2 ^ 53).
{ eapply Z.lt_le_trans; [exact Hm1|]. apply Z.pow_le_mono_r; lia. }
unfold scaled.
replace (e2 + 1074) with ((e1 + 1074) + (e2 - e1)) by lia.
rewrite (Z.pow_add_r 2 (e1 + 1074) (e2 - e1)) by lia.
assert (Hp : 0 < 2 ^ (e1 + 1074)) by (apply Z.pow_pos_nonneg; lia).
assert (Hq : 2 <= 2 ^ (e2 - e1)).
{ change 2 with (2 ^ 1) at 1. apply Z.pow_le_mono_r; lia. }
change (53 - 1) with 52 in Hm2.
change (2 ^ 53) with (2 * 2 ^ 52) in Hm1'.
generalize dependent (2 ^ 52). generalize dependent (2 ^ (e1 + 1074)).
generalize dependent (2 ^ (e2 - e1)). intros R HR P HP K HK2 HK1.
apply Z.lt_le_trans with (2 * K * P); [nia|].
apply Z.le_trans with (Z.pos m2 * (P * 2)); nia.
Qed.

Lemma to_Q_positive (m : positive) (e : Z) : (0 < f64.to_Q (S754_finite false m e))%Q.
Proof.
unfold f64.to_Q. destruct (Z.leb_spec 0 e) as [Hpos|Hneg].
- change 0%Q with (inject_Z 0). rewrite <- Zlt_Qlt.
  assert (0 < 2 ^ e) by (apply Z.pow_pos_nonneg; lia). lia.
- reflexivity.
Qed.



Lemma well_formed_bounded (s : bool) (m : positive) (e : Z) :
  well_formed (S754_finite s m e) = true -> bounded f64.prec f64.emax m e = true.
Proof. unfold well_formed. cbn. tauto. Qed.

Lemma Qlt_same_den (a b : Z) (d : positive) : (a # d < b # d)%Q <-> a < b.
Proof.
unfold Qlt. cbn [Qnum Qden]. split; intros H; nia.
Qed.

(** On canonical non-negative floats [<] is the order of the values. *)
Lemma ltb_spec (x y : f64.float64) :
  well_formed x = true -> well_formed y = true ->
  nonneg x = true -> nonneg y = true ->
  (f64.ltb x y = true <-> (f64.to_Q x < f64.to_Q y)%Q).
Proof.
intros Hx Hy Nx Ny.
destruct x as [sx|sx| |[|] mx ex]; try discriminate;
destruct y as [sy|sy| |[|] my ey]; try discriminate.
- cbn. split; [discriminate|]. intros H. now apply Qlt_irrefl in H.
- cbn [f64.ltb SFltb SFcompare]. split; [intros _; apply to_Q_positive|reflexivity].
- cbn [f64.ltb SFltb SFcompare]. split; [discriminate|].
  intros H. exfalso. apply (Qlt_not_le _ _ H). apply Qlt_le_weak, to_Q_positive.
- apply well_formed_bounded in Hx, Hy.
  pose proof (@bounded_facts _ _ Hx) as (Hex & _). pose proof (@bounded_facts _ _ Hy) as (Hey & _).
  rewrite (to_Q_scaled mx) by lia. rewrite (to_Q_scaled my) by lia.
  rewrite Qlt_same_den.
  cbn [f64.ltb SFltb SFcompare].
  destruct (Z.compare_spec ex ey) as [->|Hlt|Hgt].
  + rewrite Pos.compare_cont_spec. cbn [Pos.switch_Eq].
    unfold scaled.
    assert (Hp : 0 < 2 ^ (ey + 1074)) by (apply Z.pow_pos_nonneg; lia).
    destruct (Pos.compare_spec mx my) as [->|Hm|Hm]; split; try discriminate;
      try reflexivity; intros H; nia.
  + split; [intros _; now apply scaled_lt|reflexivity].
  + split; [discriminate|]. intros H.
    pose proof (@scaled_lt _ _ _ _ Hy Hx Hgt). lia.
Qed.


Lemma inject_Z_nonneg (z : Z) : 0 <= z -> (0 <= inject_Z z)%Q.
Proof. intros H. change 0%Q with (inject_Z 0). now rewrite <- Zle_Qle. Qed.


(** The delay of the specification does not decrease with the attempt. *)
Lemma ideal_backoff_monotone (config : retry.Config) (n1 n2 : Z) :
  0 <= retry.InitialDelay config ->
  (1 <= f64.to_Q (retry.Multiplier config))%Q ->
  n1 <= n2 ->
  (ideal_backoff n1 config <= ideal_backoff n2 config)%Q.
Proof.
intros HI Hmult Hn. unfold ideal_backoff.
apply Q.min_le_compat_r.
rewrite (Qmult_comm (inject_Z _)), (Qmult_comm (inject_Z _) (_ ^ (n2 - 1))).
apply Qmult_le_compat_r; [|now apply inject_Z_nonneg].
apply Qpower_le_compat_l; [lia|exact Hmult].
Qed.

(** ** Exact float64 arithmetic on multiples of powers of two *)






























(** Where the conversion of [MaxDelay] to float64 rounds up, the capped
    delay is above [MaxDelay]. *)
Lemma calculateBackoff_above_inexact_cap :
  retry.calculateBackoff 2 (retry.mkConfig 5 (2 ^ 53 + 3) (2 ^ 53 + 3) (f64.of_int 2))
  = Some (2 ^ 53 + 4).
Proof. vm_compute. reflexivity. Qed.



(* ================================================================== *)
(** * Regular expressions: the matcher and the language *)

Lemma nullable_spec (r : regexp.regex) : regexp.nullable r = true <-> lang r [].
Proof.
induction r as [| |p|r1 IH1 r2 IH2|r1 IH1 r2 IH2|r1 IH1]; cbn [regexp.nullable lang].
- split; [discriminate|tauto].
- split; auto.
- split; [discriminate|]. intros (c & H & _). discriminate H.
- rewrite Bool.andb_true_iff, IH1, IH2. split.
  + intros [H1 H2]. now exists [], [].
  + intros (s1 & s2 & H & H1 & H2). symmetry in H.
    apply app_eq_nil in H as [-> ->]. auto.
- rewrite Bool.orb_true_iff, IH1, IH2. tauto.
- split; [|reflexivity]. intros _. exists []. auto.
Qed.

(** A text of [r*] that starts with [c] starts with a text of [r] that
    starts with [c]. *)
Lemma star_cons (r : regexp.regex) (c : ascii) (s : gostring) :
  lang (regexp.Star r) (c :: s) <->
  exists s1 s2, s = s1 ++ s2 /\ lang r (c :: s1) /\ lang (regexp.Star r) s2.
Proof.
cbn [lang]. split.
- intros (l & Hs & Hl). revert Hs Hl.
  induction l as [|x l IH]; cbn [concat]; [discriminate|].
  intros Hs Hl. inversion Hl as [|? ? Hx Hl']; subst.
  destruct x as [|c' x]; [now apply IH|].
  cbn in Hs. injection Hs as -> ->.
  exists x, (concat l). repeat split; auto. now exists l.
- intros (s1 & s2 & -> & H1 & l & -> & Hl).
  exists ((c :: s1) :: l). split; [reflexivity|]. now constructor.
Qed.

Lemma deriv_spec (r : regexp.regex) (c : ascii) (s : gostring) :
  lang (regexp.deriv c r) s <-> lang r (c :: s).
Proof.
revert s.
induction r as [| |p|r1 IH1 r2 IH2|r1 IH1 r2 IH2|r1 IH1]; intros s.
- cbn. tauto.
- cbn. split; [tauto|discriminate].
- cbn [regexp.deriv]. destruct (p c) eqn:Hp; cbn [lang].
  + split.
    * intros ->. now exists c.
    * intros (c' & H & _). now injection H.
  + split; [tauto|]. intros (c' & H & Hp'). injection H as -> _. congruence.
- assert (Hcat : lang (regexp.Cat (regexp.deriv c r1) r2) s <->
                 exists s1 s2, s = s1 ++ s2 /\ lang r1 (c :: s1) /\ lang r2 s2).
  { cbn [lang]. split; intros (s1 & s2 & H & H1 & H2); exists s1, s2;
      (repeat split; auto); now apply IH1. }
  assert (Hgoal : lang (regexp.Cat r1 r2) (c :: s) <->
    (exists s1 s2, s = s1 ++ s2 /\ lang r1 (c :: s1) /\ lang r2 s2) \/
    (lang r1 [] /\ lang r2 (c :: s))).
  { cbn [lang]. split.
    - intros (s1 & s2 & H & H1 & H2). destruct s1 as [|c' s1].
      + right. cbn in H. subst s2. auto.
      + left. cbn in H. injection H as <- ->. now exists s1, s2.
    - intros [(s1 & s2 & -> & H1 & H2)|[H1 H2]].
      + now exists (c :: s1), s2.
      + now exists [], (c :: s). }
  rewrite Hgoal. cbn [regexp.deriv].
  destruct (regexp.nullable r1) eqn:Hn.
  + apply nullable_spec in Hn. change (lang (regexp.Alt ?a ?b) s) with (lang a s \/ lang b s).
    rewrite Hcat, IH2. tauto.
  + rewrite Hcat. split; [tauto|]. intros [H|[H _]]; [exact H|].
    apply nullable_spec in H. congruence.
- cbn [regexp.deriv lang]. rewrite IH1, IH2. tauto.
- rewrite star_cons. cbn [regexp.deriv].
  change (lang (regexp.Cat ?a ?b) s)
    with (exists s1 s2, s = s1 ++ s2 /\ lang a s1 /\ lang b s2).
  split; intros (s1 & s2 & H & H1 & H2); exists s1, s2; (repeat split; auto);
    now apply IH1.
Qed.

(** The matcher decides the language. *)
Lemma MatchString_spec (r : regexp.regex) (s : gostring) :
  regexp.MatchString r s = true <-> lang r s.
Proof.
revert r. induction s as [|c s IH]; intros r; cbn [regexp.MatchString].
- apply nullable_spec.
- rewrite IH. apply deriv_spec.
Qed.

Lemma lang_star_class (p : ascii -> bool) (s : gostring) :
  lang (regexp.Star (regexp.Class p)) s <-> forallb p s = true.
Proof.
cbn [lang]. split.
- intros (l & -> & Hl). induction Hl as [|x l (c & -> & Hc) _ IH]; [reflexivity|].
  cbn. now rewrite Hc.
- intros H. exists (map (fun c => [c]) s). split.
  + induction s as [|c s IH]; [reflexivity|]. cbn in *.
    apply andb_prop in H as [_ H]. now rewrite <- IH.
  + induction s as [|c s IH]; [constructor|]. cbn in *.
    apply andb_prop in H as [Hc H]. constructor; [now exists c|auto].
Qed.

Lemma lang_plus_class (p : ascii -> bool) (s : gostring) :
  lang (regexp.Plus (regexp.Class p)) s <-> s <> [] /\ forallb p s = true.
Proof.
unfold regexp.Plus.
change (lang (regexp.Cat ?a ?b) s)
  with (exists s1 s2, s = s1 ++ s2 /\ lang a s1 /\ lang b s2).
split.
- intros (s1 & s2 & -> & (c & -> & Hc) & H2). apply lang_star_class in H2.
  split; [discriminate|]. cbn. now rewrite Hc.
- intros [Hne H]. destruct s as [|c s]; [contradiction|]. cbn in H.
  apply andb_prop in H as [Hc H].
  exists [c], s. repeat split; [now exists c|now apply lang_star_class].
Qed.

Lemma lang_atleast2_class (p : ascii -> bool) (s : gostring) :
  lang (regexp.AtLeast2 (regexp.Class p)) s <->
  (2 <= length s)%nat /\ forallb p s = true.
Proof.
unfold regexp.AtLeast2.
change (lang (regexp.Cat ?a ?b) s)
  with (exists s1 s2, s = s1 ++ s2 /\ lang a s1 /\ lang b s2).
split.
- intros (s1 & s2 & -> & (c & -> & Hc) & H2).
  change (lang (regexp.Cat ?a ?b) s2)
    with (exists t1 t2, s2 = t1 ++ t2 /\ lang a t1 /\ lang b t2) in H2.
  destruct H2 as (t1 & t2 & -> & (d & -> & Hd) & H3).
  apply lang_star_class in H3. cbn. rewrite Hc, Hd. split; [lia|exact H3].
- intros [Hlen H]. destruct s as [|c [|d s]]; cbn in Hlen; try lia.
  cbn in H. apply andb_prop in H as [Hc H]. apply andb_prop in H as [Hd H].
  exists [c], (d :: s). repeat split; [now exists c|].
  exists [d], s. repeat split; [now exists d|now apply lang_star_class].
Qed.

Lemma lang_char (a : ascii) (s : gostring) : lang (regexp.Char a) s <-> s = [a].
Proof.
unfold regexp.Char. cbn [lang]. split.
- intros (c & -> & H). apply Ascii.eqb_eq in H. now subst.
- intros ->. exists a. split; [reflexivity|apply Ascii.eqb_refl].
Qed.

(** [isValidEmail] decides the shape of an address. *)
Lemma isValidEmail_address_shape (s : gostring) :
  domain.isValidEmail s = true <-> address_shape s.
Proof.
unfold domain.isValidEmail, address_shape. rewrite MatchString_spec.
unfold domain.pattern.
change (lang (regexp.Cat ?a ?b) ?t)
  with (exists s1 s2, t = s1 ++ s2 /\ lang a s1 /\ lang b s2).
split.
- intros (local & s2 & -> & Hl & at_ & s3 & -> & Hat & dom & s4 & -> & Hd
          & dot & tld & -> & Hdot & Ht).
  apply lang_plus_class in Hl as [Hl1 Hl2]. apply lang_plus_class in Hd as [Hd1 Hd2].
  apply lang_char in Hat, Hdot. subst at_ dot.
  apply lang_atleast2_class in Ht as [Ht1 Ht2].
  exists local, dom, tld. repeat split; auto.
- intros (local & dom & tld & -> & Hl1 & Hl2 & Hd1 & Hd2 & Ht1 & Ht2).
  exists local, (str "@" ++ dom ++ str "." ++ tld).
  split; [reflexivity|]. split; [now apply lang_plus_class|].
  exists (str "@"), (dom ++ str "." ++ tld).
  split; [reflexivity|]. split; [now apply lang_char|].
  exists dom, (str "." ++ tld).
  split; [reflexivity|]. split; [now apply lang_plus_class|].
  exists (str "."), tld.
  split; [reflexivity|]. split; [now apply lang_char|now apply lang_atleast2_class].
Qed.

(** X1: [isValidEmail] accepts exactly the texts made of a non-empty local
    part of letters, digits and [._%+-], an [@], a non-empty domain part
    of letters, digits, dots and dashes, a dot, and at least two
    letters. *)
Theorem isValidEmail_accepts_exactly_address_shape :
  forall (s : gostring),
  domain.isValidEmail s = true <->
  exists local dom tld,
    s = local ++ str "@" ++ dom ++ str "." ++ tld /\
    local <> [] /\ forallb domain.local_char local = true /\
    dom <> [] /\ forallb domain.domain_char dom = true /\
    (2 <= length tld)%nat /\ forallb domain.alpha_char tld = true.
Proof. exact isValidEmail_address_shape. Qed.

(* ================================================================== *)
(** * Package [domain]: what [Validate] accepts and reports *)

(** X2: [Validate] accepts exactly the emails whose sender has the shape
    of an address, that have at least one address in To, all of that
    shape, a subject that is not empty and a text or an HTML body that is
    not empty.  It looks at no other field. *)
Theorem Validate_accepts_exactly_complete_emails (e : domain.Email) :
  domain.Validate e = None <->
  address_shape (domain.From e) /\
  domain.To e <> [] /\
  Forall address_shape (domain.To e) /\
  domain.Subject e <> [] /\
  (domain.TextBody e <> [] \/ domain.HTMLBody e <> []).
Proof.
rewrite Validate_None_iff, isValidEmail_address_shape.
assert (H : Forall (fun addr => domain.isValidEmail addr = true) (domain.To e)
            <-> Forall address_shape (domain.To e)).
{ rewrite !Forall_forall. split; intros H x Hx; apply isValidEmail_address_shape; auto. }
rewrite H. tauto.
Qed.

(** X3: among the addresses of To, [Validate] reports the first one that
    does not match, whatever follows it and whatever the subject and the
    bodies are. *)
Theorem Validate_reports_the_first_invalid_recipient :
  forall (e : domain.Email) (good : list gostring) (bad : gostring) (rest : list gostring),
  domain.isValidEmail (domain.From e) = true ->
  domain.To e = good ++ bad :: rest ->
  Forall (fun addr => domain.isValidEmail addr = true) good ->
  domain.isValidEmail bad = false ->
  domain.Validate e = Some (errorString (str "invalid to address: " ++ bad)).
Proof.
intros e good bad rest Hf Hto Hgood Hbad. unfold domain.Validate.
destruct (gostr_eqb_spec (domain.From e) []) as [E|_].
{ rewrite E in Hf. vm_compute in Hf. discriminate Hf. }
rewrite Hf. cbn [negb]. rewrite Hto.
destruct (Z.eqb_spec (Z.of_nat (length (good ++ bad :: rest))) 0) as [E|_].
{ rewrite length_app in E. cbn [length] in E. lia. }
assert (Hv : domain.validate_to (good ++ bad :: rest)
             = Some (errorString (str "invalid to address: " ++ bad))).
{ clear - Hgood Hbad. induction Hgood as [|a good Ha _ IH]; cbn [app domain.validate_to].
  - now rewrite Hbad.
  - now rewrite Ha. }
now rewrite Hv.
Qed.

(** The theorem at an email whose second and third recipients do not
    match. *)
Lemma Validate_reports_the_first_invalid_recipient_witness :
  domain.Validate
    (domain.set_To stale_email [str "rcpt@example.com"; str "no at sign"; str "@"])
  = Some (errorString (str "invalid to address: " ++ str "no at sign")).
Proof.
apply (@Validate_reports_the_first_invalid_recipient
         (domain.set_To stale_email [str "rcpt@example.com"; str "no at sign"; str "@"])
         [str "rcpt@example.com"] (str "no at sign") [str "@"]).
- reflexivity.
- reflexivity.
- constructor; [reflexivity|constructor].
- reflexivity.
Defined.

(* ================================================================== *)
(** * Package [retry]: the classification of errors *)

(** X4: [contains] decides whether the second text occurs in the first;
    the empty text occurs in every text. *)
Theorem contains_decides_occurrence :
  forall (s substr : gostring),
  (retry.contains s substr = true <-> exists before after, s = before ++ substr ++ after) /\
  retry.contains s [] = true.
Proof.
intros s substr. split.
- apply contains_spec.
- apply contains_spec. exists [], s. reflexivity.
Qed.

(** X5: [IsRetryable] refuses an error exactly when its text holds one of
    the permanent codes 550 to 554 and none of the transient indicators;
    an error whose text holds none of the listed indicators is
    retried. *)
Theorem IsRetryable_refuses_exactly_permanent_texts :
  forall (e : error),
  (retry.IsRetryable e = false <->
   (exists p, In p retry.permanentErrors /\ Contains (Error e) p) /\
   (forall t, In t retry.temporaryErrors -> ~ Contains (Error e) t)) /\
  ((forall p, In p retry.permanentErrors -> ~ Contains (Error e) p) ->
   retry.IsRetryable e = true).
Proof.
intros e. split; [apply IsRetryable_false_iff|].
intros H. destruct (retry.IsRetryable e) eqn:E; [reflexivity|].
apply IsRetryable_false_iff in E as [(p & Hin & Hc) _]. now apply H in Hin.
Qed.
(* ================================================================== *)
(** * Package [retry]: the runs of [Do] *)

Section DoRuns.

Variable St : Type.
Variable fn : St -> option error * St.
Variable wait : option Z -> St -> option error * St.
Variable config : retry.Config.

(** A run of the loop from an attempt that is still allowed: retried
    attempts, then an ending. *)
Lemma Do_loop_run (fuel : nat) (attempt : Z) lastErr st tr0 r st' tr :
  attempt <= retry.MaxAttempts config ->
  retry.Do_loop fn wait fuel config attempt lastErr st tr0 = Some (r, st', tr) ->
  exists errs ending,
    tr = tr0 ++ retries config attempt errs ++ ending /\
    Forall (fun e => retry.IsRetryable e = true) errs /\
    attempt + Z.of_nat (length errs) <= retry.MaxAttempts config /\
    Ending config (attempt + Z.of_nat (length errs)) r ending.
Proof.
revert attempt lastErr st tr0.
induction fuel as [|fuel IH]; intros attempt lastErr st tr0 Hle; cbn [retry.Do_loop];
  [discriminate|].
destruct (Z.leb_spec attempt (retry.MaxAttempts config)) as [_|Hgt]; [|lia].
destruct (fn st) as [[e|] st1].
2:{ intros H; injection H as <- <- <-. exists [], [retry.EvCall attempt None].
    cbn [retries length Z.of_nat app]. rewrite Z.add_0_r.
    repeat split; auto. constructor. }
destruct (retry.IsRetryable e) eqn:Er; cbn [negb].
2:{ intros H; injection H as <- <- <-. exists [], [retry.EvCall attempt (Some e)].
    cbn [retries length Z.of_nat app]. rewrite Z.add_0_r.
    repeat split; auto. now constructor. }
destruct (Z.eqb_spec attempt (retry.MaxAttempts config)) as [Heq|Hne].
{ intros H; injection H as <- <- <-. exists [], [retry.EvCall attempt (Some e)].
  cbn [retries length Z.of_nat app]. rewrite Z.add_0_r.
  repeat split; auto. now constructor. }
destruct (wait _ st1) as [[ctxErr|] st2].
{ intros H; injection H as <- <- <-.
  exists [], [retry.EvCall attempt (Some e);
              retry.EvPrintf attempt e (retry.calculateBackoff attempt config);
              retry.EvWait (retry.calculateBackoff attempt config) true].
  cbn [retries length Z.of_nat app]. rewrite Z.add_0_r.
  repeat split; auto.
  - rewrite <- !app_assoc. reflexivity.
  - constructor; [exact Er|lia]. }
intros H. apply IH in H as (errs & ending & -> & Hall & Hk & Hend); [|lia].
exists (e :: errs), ending. cbn [retries retried length].
rewrite Nat2Z.inj_succ.
replace (attempt + Z.succ (Z.of_nat (length errs)))
  with (attempt + 1 + Z.of_nat (length errs)) by lia.
repeat split; auto.
rewrite <- !app_assoc. reflexivity.
Qed.

(** Every run of [Do]: with no attempt allowed the operation is not called
    and the error wraps nothing; otherwise the run is retried attempts
    1, 2, ... followed by an ending. *)
Lemma Do_run (st : St) :
  exists r st' tr,
    retry.Do fn wait config st = Some (r, st', tr) /\
    ((retry.MaxAttempts config <= 0 /\
      r = Some (retry.exhausted config None) /\ st' = st /\ tr = []) \/
     (exists errs ending,
        tr = retries config 1 errs ++ ending /\
        Forall (fun e => retry.IsRetryable e = true) errs /\
        1 + Z.of_nat (length errs) <= retry.MaxAttempts config /\
        Ending config (1 + Z.of_nat (length errs)) r ending)).
Proof.
destruct (@Do_total St fn wait config st) as ([[r st'] tr] & Hdo).
exists r, st', tr. split; [exact Hdo|].
unfold retry.Do in Hdo.
destruct (Z.le_gt_cases 1 (retry.MaxAttempts config)) as [Hle|Hgt].
- right. apply Do_loop_run in Hdo as (errs & ending & Htr & H); [|exact Hle].
  exists errs, ending. split; [exact Htr|exact H].
- left. cbn [retry.Do_loop] in Hdo.
  destruct (Z.leb_spec 1 (retry.MaxAttempts config)) as [Hle|_]; [lia|].
  injection Hdo as <- <- <-. repeat split; auto. lia.
Qed.

End DoRuns.

Lemma calls_app (a b : list retry.Event) :
  retry.calls (a ++ b) = (retry.calls a + retry.calls b)%nat.
Proof. unfold retry.calls. now rewrite filter_app, length_app. Qed.

Lemma waits_app (a b : list retry.Event) :
  retry.waits (a ++ b) = (retry.waits a + retry.waits b)%nat.
Proof. unfold retry.waits. now rewrite filter_app, length_app. Qed.

Lemma call_numbers_app (a b : list retry.Event) :
  call_numbers (a ++ b) = call_numbers a ++ call_numbers b.
Proof. unfold call_numbers. now rewrite flat_map_app. Qed.

Lemma retries_counts (config : retry.Config) (errs : list error) (attempt : Z) :
  retry.calls (retries config attempt errs) = length errs /\
  retry.waits (retries config attempt errs) = length errs /\
  call_numbers (retries config attempt errs)
  = map (fun i => attempt + Z.of_nat i) (seq 0 (length errs)).
Proof.
revert attempt. induction errs as [|e errs IH]; intros attempt; [now cbn|].
destruct (IH (attempt + 1)) as (Hc & Hw & Hn).
cbn [retries retried app length]. unfold retry.calls, retry.waits in *.
cbn [filter length call_numbers flat_map app seq map].
rewrite Hc, Hw. repeat split.
rewrite Z.add_0_r. f_equal. fold (call_numbers (retries config (attempt + 1) errs)).
rewrite Hn, <- seq_shift, map_map. apply map_ext. intros i. lia.
Qed.

Lemma Ending_counts (config : retry.Config) (k : Z) r ending :
  Ending config k r ending ->
  retry.calls ending = 1%nat /\ (retry.waits ending <= 1)%nat /\
  call_numbers ending = [k] /\
  (retry.waits ending = 1%nat ->
   exists ctxErr, r = Some (retry.cancelled ctxErr)).
Proof.
intros H. destruct H; cbn; repeat split; auto; try discriminate.
intros _. now exists ctxErr.
Qed.

(** X6: [Do] always returns, whatever the operation and the context do.
    When no attempt is allowed the operation is not called at all and the
    error returned wraps no error.  Otherwise the run is a series of
    attempts 1, 2, ... that failed with an error [IsRetryable] accepts and
    were followed by the notice and a full wait of the backoff delay of
    the attempt, and then one last attempt, not beyond [MaxAttempts]:
    a call that succeeds ([Do] returns nil), a call whose error
    [IsRetryable] refuses (the permanent error), the call of attempt
    [MaxAttempts] failing (the exhausted error, without a wait), or a
    failed call whose wait the context ends (the cancellation error). *)
Theorem Do_runs_are_retries_then_an_ending :
  forall (St : Type) (fn : St -> option error * St)
         (wait : option Z -> St -> option error * St)
         (config : retry.Config) (st : St),
  exists r st' tr,
    retry.Do fn wait config st = Some (r, st', tr) /\
    ((retry.MaxAttempts config <= 0 /\
      r = Some (retry.exhausted config None) /\
      Unwrap (retry.exhausted config None) = None /\ st' = st /\ tr = []) \/
     (exists errs ending,
        tr = retries config 1 errs ++ ending /\
        Forall (fun e => retry.IsRetryable e = true) errs /\
        1 + Z.of_nat (length errs) <= retry.MaxAttempts config /\
        Ending config (1 + Z.of_nat (length errs)) r ending)).
Proof.
intros St fn wait config st.
destruct (Do_run fn wait config st) as (r & st' & tr & Hdo & [H|H]);
  exists r, st', tr; (split; [exact Hdo|]).
- left. destruct H as (H1 & H2 & H3 & H4). repeat split; auto.
- right. exact H.
Qed.

(** X7: [Do] calls the operation at most [MaxAttempts] times (never when
    [MaxAttempts] is zero or negative), numbers the calls 1, 2, 3, ...
    without a gap, and waits at most once per call; it waits as many
    times as it calls only when the context ends the last wait, and then
    it returns the cancellation error. *)
Theorem Do_calls_at_most_MaxAttempts_times :
  forall (St : Type) (fn : St -> option error * St)
         (wait : option Z -> St -> option error * St)
         (config : retry.Config) (st : St),
  exists r st' tr,
    retry.Do fn wait config st = Some (r, st', tr) /\
    Z.of_nat (retry.calls tr) <= Z.max 0 (retry.MaxAttempts config) /\
    call_numbers tr = one_to (retry.calls tr) /\
    (retry.waits tr <= retry.calls tr)%nat /\
    (retry.waits tr = retry.calls tr -> tr <> [] ->
     exists ctxErr, r = Some (retry.cancelled ctxErr)).
Proof.
intros St fn wait config st.
destruct (Do_run fn wait config st) as (r & st' & tr & Hdo & [H|H]);
  exists r, st', tr; (split; [exact Hdo|]).
- destruct H as (Hm & -> & -> & ->). cbn. repeat split; try lia.
  intros _ H. now contradiction H.
- destruct H as (errs & ending & -> & _ & Hk & Hend).
  destruct (retries_counts config errs 1) as (Hc & Hw & Hn).
  apply Ending_counts in Hend as (Hc' & Hw' & Hn' & Hcancel).
  rewrite calls_app, waits_app, call_numbers_app, Hc, Hw, Hc', Hn, Hn'.
  repeat split; try lia.
  + unfold one_to. rewrite Nat.add_1_r, seq_S, map_app. cbn [map Nat.add].
    f_equal; [apply map_ext; intros i; lia|f_equal; lia].
  + intros Heq _. apply Hcancel. lia.
Qed.
(* ================================================================== *)
(** * Package [application]: the outcomes of [SendEmail] and
      [SendBulkEmails] *)

Section ServiceFacts.

Variable Sender : Type.
Variable sender_Send : domain.Email -> Sender -> option error * Sender.
Variable wait : option Z -> Sender -> option error * Sender.
Variable s : application.EmailService.

(** What [SendEmail] returns and leaves in the email. *)
Lemma SendEmail_outcome (email : domain.Email) (sd : Sender) :
  exists r email' sd' tr,
    application.SendEmail sender_Send wait s email sd = Some (r, email', sd', tr) /\
    match domain.Validate email with
    | Some verr =>
        r = Some (wrapError (str "validation failed: " ++ Error verr) verr) /\
        email' = email /\ sd' = sd /\ tr = []
    | None =>
        match r with
        | None =>
            domain.Status_ email' = domain.StatusSent /\
            exists pre k, tr = pre ++ [retry.EvCall k None]
        | Some err =>
            domain.Status_ email' = domain.StatusFailed /\
            exists inner,
              err = wrapError (str "failed to send email: " ++ Error inner) inner /\
              domain.LastError email' = Error inner /\
              forall pre k, tr <> pre ++ [retry.EvCall k None]
        end
    end.
Proof.
unfold application.SendEmail.
destruct (domain.Validate email) as [verr|].
{ eexists _, _, _, _. split; [reflexivity|]. repeat split. }
destruct (Do_run (application.attempt sender_Send) (application.wait_st wait)
            (application.retryConfig s)
            (domain.set_Status email domain.StatusSending, sd))
  as (r & [e1 sd1] & tr & -> & Hrun).
destruct r as [err|].
- eexists _, _, _, _. split; [reflexivity|]. split; [reflexivity|].
  exists err. split; [reflexivity|]. split; [reflexivity|].
  intros pre k Htr. destruct Hrun as [(_ & _ & _ & ->)|(errs & ending & -> & _ & _ & Hend)].
  + now destruct pre.
  + inversion Hend; subst;
      try (apply app_inj_tail in Htr as [_ Htr]; discriminate Htr).
    change [retry.EvCall ?a ?b; ?c; ?d] with ([retry.EvCall a b; c] ++ [d]) in Htr.
    rewrite app_assoc in Htr. apply app_inj_tail in Htr as [_ Htr]. discriminate Htr.
- eexists _, _, _, _. split; [reflexivity|]. split; [reflexivity|].
  destruct Hrun as [(_ & Hr & _)|(errs & ending & -> & _ & _ & Hend)]; [discriminate Hr|].
  inversion Hend; subst. eexists _, _. reflexivity.
Qed.

(** The loop of [SendBulkEmails] calls [SendEmail] once per pointer, in
    order, and counts the calls that failed and the others. *)
Lemma SendBulkEmails_loop_spec (emails : list nat) (h : application.Heap) (sd : Sender)
  (successCount failCount : Z) (sent0 : list (nat * option error)) :
  0 <= successCount -> 0 <= failCount ->
  successCount + Z.of_nat (length emails) < 2 ^ 63 ->
  failCount + Z.of_nat (length emails) < 2 ^ 63 ->
  exists h' sd' new,
    application.SendBulkEmails_loop sender_Send wait s emails h sd
      successCount failCount sent0
    = Some (successCount + Z.of_nat (length new) - Z.of_nat (length (failures new)),
            failCount + Z.of_nat (length (failures new)), h', sd', sent0 ++ new) /\
    map fst new = emails.
Proof.
revert h sd successCount failCount sent0.
induction emails as [|p emails IH]; intros h sd sc fc sent0 Hsc Hfc Hs Hf;
  cbn [application.SendBulkEmails_loop].
- exists h, sd, []. cbn. rewrite app_nil_r, !Z.add_0_r, Z.sub_0_r. auto.
- destruct (SendEmail_outcome (h p) sd) as (r & e' & sd' & tr & -> & _).
  cbn [length] in Hs, Hf. rewrite Nat2Z.inj_succ in Hs, Hf.
  assert (Hw : forall z, 0 <= z -> z + 1 < 2 ^ 63 -> wrap64 (z + 1) = z + 1).
  { intros z Hz Hz'. unfold wrap64. rewrite Z.mod_small; lia. }
  destruct r as [err|].
  + rewrite Hw by lia.
    destruct (IH (application.heap_set h p e') sd' sc (fc + 1) (sent0 ++ [(p, Some err)]))
      as (h' & sd'' & new & -> & Hnew); try lia.
    exists h', sd'', ((p, Some err) :: new).
    unfold failures in *. cbn [filter snd length map fst].
    rewrite !Nat2Z.inj_succ, <- app_assoc. cbn [app].
    split; [|now rewrite Hnew]. do 5 f_equal; lia.
  + rewrite Hw by lia.
    destruct (IH (application.heap_set h p e') sd' (sc + 1) fc (sent0 ++ [(p, None)]))
      as (h' & sd'' & new & -> & Hnew); try lia.
    exists h', sd'', ((p, None) :: new).
    unfold failures in *. cbn [filter snd length map fst].
    rewrite !Nat2Z.inj_succ, <- app_assoc. cbn [app].
    split; [|now rewrite Hnew]. do 5 f_equal; lia.
Qed.

End ServiceFacts.

(** X8: [SendEmail] always returns.  An email that [Validate] refuses is
    not handed to the sender: the error wraps the validation error, and
    the email and the sender are left as they were.  Otherwise
    [SendEmail] runs [retry.Do] once, on the email marked
    [StatusSending], and [retry.Do] changes of the email only [Attempts],
    by one for every call of the sender.  When [retry.Do] returns nil, its
    last call of the sender returned nil, and [SendEmail] returns nil and
    leaves the email of [retry.Do] marked [StatusSent].  When [retry.Do]
    returns an error, its run does not end with a call that returned nil,
    and [SendEmail] returns an error that wraps that very error, and
    leaves the email of [retry.Do] marked [StatusFailed] with the text of
    that error in [LastError]. *)
Theorem SendEmail_status_follows_outcome :
  forall (Sender : Type)
         (sender_Send : domain.Email -> Sender -> option error * Sender)
         (wait : option Z -> Sender -> option error * Sender)
         (s : application.EmailService) (email : domain.Email) (sd : Sender),
  match domain.Validate email with
  | Some verr =>
      application.SendEmail sender_Send wait s email sd
      = Some (Some (wrapError (str "validation failed: " ++ Error verr) verr),
              email, sd, [])
  | None =>
      exists r0 e1 sd' tr,
        retry.Do (application.attempt sender_Send) (application.wait_st wait)
                 (application.retryConfig s)
                 (domain.set_Status email domain.StatusSending, sd)
        = Some (r0, (e1, sd'), tr) /\
        content e1 = content email /\
        domain.Attempts e1 = Nat.iter (retry.calls tr) incr (domain.Attempts email) /\
        domain.LastError e1 = domain.LastError email /\
        domain.Status_ e1 = domain.StatusSending /\
        match r0 with
        | None =>
            application.SendEmail sender_Send wait s email sd
            = Some (None, domain.set_Status e1 domain.StatusSent, sd', tr) /\
            exists pre k, tr = pre ++ [retry.EvCall k None]
        | Some inner =>
            application.SendEmail sender_Send wait s email sd
            = Some (Some (wrapError (str "failed to send email: " ++ Error inner) inner),
                    domain.set_LastError (domain.set_Status e1 domain.StatusFailed)
                                         (Error inner),
                    sd', tr) /\
            forall pre k, tr <> pre ++ [retry.EvCall k None]
        end
  end.
Proof.
intros Sender sender_Send wait s email sd.
unfold application.SendEmail.
destruct (domain.Validate email) as [verr|]; [reflexivity|].
destruct (Do_run (application.attempt sender_Send) (application.wait_st wait)
            (application.retryConfig s)
            (domain.set_Status email domain.StatusSending, sd))
  as (r & [e1 sd1] & tr & Hdo & Hrun).
exists r, e1, sd1, tr. split; [exact Hdo|].
destruct (@Do_attempt_email Sender sender_Send wait s _ _ _ _ _ _ Hdo)
  as (Ha & Hl & Hs & Hc).
split; [exact Hc|]. split; [exact Ha|]. split; [exact Hl|]. split; [exact Hs|].
rewrite Hdo.
destruct r as [err|].
- split; [reflexivity|].
  intros pre k Htr. destruct Hrun as [(_ & _ & _ & ->)|(errs & ending & -> & _ & _ & Hend)].
  + now destruct pre.
  + inversion Hend; subst;
      try (apply app_inj_tail in Htr as [_ Htr]; discriminate Htr).
    change [retry.EvCall ?a ?b; ?c; ?d] with ([retry.EvCall a b; c] ++ [d]) in Htr.
    rewrite app_assoc in Htr. apply app_inj_tail in Htr as [_ Htr]. discriminate Htr.
- split; [reflexivity|].
  destruct Hrun as [(_ & Hr & _)|(errs & ending & -> & _ & _ & Hend)]; [discriminate Hr|].
  inversion Hend; subst. eexists _, _. reflexivity.
Qed.

(** X9: [SendBulkEmails] calls [SendEmail] once for every pointer of the
    slice, in order, whatever the earlier calls returned: a failure does
    not stop the loop.  It returns nil exactly when every call returned
    nil, and otherwise an error whose text gives the number of calls that
    failed and the length of the slice. *)
Theorem SendBulkEmails_sends_every_email :
  forall (Sender : Type)
         (sender_Send : domain.Email -> Sender -> option error * Sender)
         (wait : option Z -> Sender -> option error * Sender)
         (s : application.EmailService) (emails : list nat)
         (h : application.Heap) (sd : Sender),
  Z.of_nat (length emails) < 2 ^ 63 ->
  exists r h' sd' sent,
    application.SendBulkEmails sender_Send wait s emails h sd = Some (r, h', sd', sent) /\
    map fst sent = emails /\
    (r = None <-> Forall (fun x => snd x = None) sent) /\
    (failures sent <> [] ->
     r = Some (errorString (str "failed to send "
                 ++ itoa (Z.of_nat (length (failures sent))) ++ str " out of "
                 ++ itoa (Z.of_nat (length emails)) ++ str " emails"))).
Proof.
intros Sender sender_Send wait s emails h sd Hlen.
unfold application.SendBulkEmails.
destruct (@SendBulkEmails_loop_spec Sender sender_Send wait s emails h sd 0 0 [])
  as (h' & sd' & new & -> & Hnew); try lia.
cbn [app]. rewrite Z.add_0_l.
assert (Hall : failures new = [] <-> Forall (fun x => snd x = None) new).
{ unfold failures. clear. induction new as [|[p [e|]] new IH]; cbn.
  - split; auto.
  - split; [discriminate|]. intros H. inversion H as [|? ? Hx]. discriminate Hx.
  - rewrite IH. split; intros H; [now constructor|now inversion H]. }
destruct (Z.gtb_spec (Z.of_nat (length (failures new))) 0) as [Hgt|Hle].
- eexists _, h', sd', new. split; [reflexivity|]. split; [exact Hnew|]. split.
  + split; [discriminate|]. intros H. apply Hall in H. rewrite H in Hgt. cbn in Hgt. lia.
  + intros _. reflexivity.
- exists None, h', sd', new. split; [reflexivity|]. split; [exact Hnew|].
  assert (Hnil : failures new = []) by (destruct (failures new); [reflexivity|cbn in Hle; lia]).
  split.
  + split; [intros _; now apply Hall|reflexivity].
  + intros H. contradiction.
Qed.

(** The theorem at three pointers, two of them to the same email, and a
    sender that fails at its first call only. *)
Lemma SendBulkEmails_sends_every_email_witness :
  exists r h' sd' sent,
    application.SendBulkEmails flaky_sender never_done_nat application.NewEmailService
      [0%nat; 1%nat; 0%nat] heap0 0%nat = Some (r, h', sd', sent) /\
    map fst sent = [0%nat; 1%nat; 0%nat] /\
    (r = None <-> Forall (fun x => snd x = None) sent) /\
    (failures sent <> [] ->
     r = Some (errorString (str "failed to send "
                 ++ itoa (Z.of_nat (length (failures sent))) ++ str " out of "
                 ++ itoa (Z.of_nat (length [0%nat; 1%nat; 0%nat])) ++ str " emails"))).
Proof.
apply (@SendBulkEmails_sends_every_email nat flaky_sender never_done_nat
         application.NewEmailService [0%nat; 1%nat; 0%nat] heap0 0%nat).
vm_compute. reflexivity.
Defined.

(* ================================================================== *)
(** * Package [infrastructure]: the life of the connections *)

Lemma dialed_app (a b : list infrastructure.Event) : dialed (a ++ b) = dialed a ++ dialed b.
Proof. apply flat_map_app. Qed.

Lemma conn_closed_app (a b : list infrastructure.Event) :
  conn_closed (a ++ b) = conn_closed a ++ conn_closed b.
Proof. apply flat_map_app. Qed.

Lemma quits_app (a b : list infrastructure.Event) : quits (a ++ b) = quits a ++ quits b.
Proof. apply flat_map_app. Qed.

Lemma dialed_map_EvDial (l : list infrastructure.Conn) :
  dialed (map infrastructure.EvDial l) = l.
Proof. induction l as [|c l IH]; cbn; [reflexivity|]. unfold dialed in IH. now rewrite IH. Qed.

Lemma conn_closed_map_EvDial (l : list infrastructure.Conn) :
  conn_closed (map infrastructure.EvDial l) = [].
Proof. induction l as [|c l IH]; cbn; [reflexivity|]. exact IH. Qed.

Lemma quits_map_EvDial (l : list infrastructure.Conn) :
  quits (map infrastructure.EvDial l) = [].
Proof. induction l as [|c l IH]; cbn; [reflexivity|]. exact IH. Qed.

(** [createConnection] hands out the client it created, or closes it. *)
Lemma createConnection_events (config : infrastructure.SMTPConfig)
  (env : infrastructure.DialEnv) :
  match infrastructure.createConnection config env with
  | (inl c, ev) => ev = [infrastructure.EvDial c]
  | (inr e, ev) =>
      dialed ev = conn_closed ev /\ quits ev = [] /\ Unwrap e <> None
  end.
Proof.
unfold infrastructure.createConnection.
destruct (gostr.eqb _ _);
  repeat match goal with
  | |- context [match ?x with Some _ => _ | None => _ end] => destruct x
  end; cbn; repeat split; discriminate.
Qed.

Lemma Close_events (p : infrastructure.ConnectionPool) :
  infrastructure.closed p = false ->
  infrastructure.Close p
  = (None, infrastructure.mkPool (infrastructure.config p) (infrastructure.capacity p) [] true,
     flat_map (fun c => [infrastructure.EvQuit c; infrastructure.EvConnClose c])
              (infrastructure.connections p)).
Proof. intros H. unfold infrastructure.Close. now rewrite H. Qed.

Lemma quit_close_events (l : list infrastructure.Conn) :
  dialed (flat_map (fun c => [infrastructure.EvQuit c; infrastructure.EvConnClose c]) l) = [] /\
  conn_closed (flat_map (fun c => [infrastructure.EvQuit c; infrastructure.EvConnClose c]) l) = l /\
  quits (flat_map (fun c => [infrastructure.EvQuit c; infrastructure.EvConnClose c]) l) = l.
Proof.
induction l as [|c l (IH1 & IH2 & IH3)]; [now cbn|].
cbn. unfold dialed, conn_closed, quits in *. rewrite IH1, IH2, IH3. auto.
Qed.

(** The loop that fills the pool. *)
Lemma populate_spec (n i : nat) dials (p : infrastructure.ConnectionPool) tr :
  infrastructure.closed p = false ->
  match infrastructure.populate n i dials p tr with
  | (inl p', tr') =>
      exists new,
        length new = n /\
        (forall j, (j < n)%nat ->
           infrastructure.createConnection (infrastructure.config p) (dials (i + j)%nat)
           = (inl (nth j new 0%nat), [infrastructure.EvDial (nth j new 0%nat)])) /\
        infrastructure.connections p' = infrastructure.connections p ++ new /\
        tr' = tr ++ map infrastructure.EvDial new /\
        infrastructure.config p' = infrastructure.config p /\
        infrastructure.capacity p' = infrastructure.capacity p /\
        infrastructure.closed p' = false
  | (inr err, tr') =>
      exists new e ev,
        (length new < n)%nat /\
        (forall j, (j < length new)%nat ->
           infrastructure.createConnection (infrastructure.config p) (dials (i + j)%nat)
           = (inl (nth j new 0%nat), [infrastructure.EvDial (nth j new 0%nat)])) /\
        infrastructure.createConnection (infrastructure.config p)
          (dials (i + length new)%nat) = (inr e, ev) /\
        err = infrastructure.wrap "failed to create connection: " e /\
        tr' = tr ++ map infrastructure.EvDial new ++ ev
                 ++ flat_map (fun c => [infrastructure.EvQuit c; infrastructure.EvConnClose c])
                             (infrastructure.connections p ++ new)
  end.
Proof.
revert i p tr. induction n as [|n IH]; intros i p tr Hopen; cbn [infrastructure.populate].
- exists []. cbn [length map]. rewrite !app_nil_r. repeat split; auto. intros j Hj; lia.
- pose proof (createConnection_events (infrastructure.config p) (dials i)) as Hc.
  destruct (infrastructure.createConnection (infrastructure.config p) (dials i))
    as [[conn|e] ev] eqn:Ec.
  + subst ev.
    specialize (IH (S i) (infrastructure.set_connections p
                            (infrastructure.connections p ++ [conn]))
                   (tr ++ [infrastructure.EvDial conn]) Hopen).
    destruct (infrastructure.populate n (S i) dials _ _) as [[p'|err] tr'].
    * destruct IH as (new & Hlen & Hd & Hconn & -> & Hcfg & Hcap & Hcl).
      cbn [infrastructure.set_connections infrastructure.connections
           infrastructure.capacity infrastructure.config] in *.
      exists (conn :: new). cbn [length map].
      rewrite Hconn, <- !app_assoc. cbn [app].
      repeat split; auto.
      intros [|j] Hj; cbn [nth].
      -- now rewrite Nat.add_0_r.
      -- rewrite <- (Hd j) by lia. do 2 f_equal. lia.
    * destruct IH as (new & e & ev & Hlen & Hd & Hf & -> & ->).
      cbn [infrastructure.set_connections infrastructure.connections
           infrastructure.config] in *.
      exists (conn :: new), e, ev. cbn [length map].
      rewrite <- !app_assoc. cbn [app].
      repeat split; auto; try lia.
      -- intros [|j] Hj; cbn [nth].
         ++ now rewrite Nat.add_0_r.
         ++ rewrite <- (Hd j) by lia. do 2 f_equal. lia.
      -- rewrite <- Hf. do 2 f_equal. lia.
  + rewrite (Close_events _ Hopen).
    exists [], e, ev. cbn [length map app]. rewrite Nat.add_0_r, app_nil_r.
    repeat split; auto; try lia.
Qed.

(** X10: [NewConnectionPool] panics only where [make] does: on a size that
    is negative or beyond what the run-time system allocates for a
    channel.  Otherwise it dials the connections in order, the [i]th with
    the outcome [dials i].  When every dial succeeds it returns an open
    pool of that capacity that holds the clients of the dials, in the
    order of the dials, and nothing happened but the dials.  Otherwise it
    stops at the first dial that fails: the error wraps the error
    [createConnection] returned for that dial, and the run consists of the
    dials that succeeded, the events of the failing [createConnection],
    and a [Quit] and a [Close] of every connection pooled so far, so that
    every connection opened is closed. *)
Theorem NewConnectionPool_fills_the_pool_or_closes_what_it_opened :
  forall (config : infrastructure.SMTPConfig) (size : Z)
         (dials : nat -> infrastructure.DialEnv),
  match infrastructure.NewConnectionPool config size dials with
  | None => size < 0 \/ infrastructure.maxAlloc - infrastructure.hchanSize < 8 * size
  | Some (inl p, tr) =>
      0 <= size /\
      (forall i, (i < Z.to_nat size)%nat ->
         infrastructure.createConnection config (dials i)
         = (inl (nth i (infrastructure.connections p) 0%nat),
            [infrastructure.EvDial (nth i (infrastructure.connections p) 0%nat)])) /\
      tr = map infrastructure.EvDial (infrastructure.connections p) /\
      length (infrastructure.connections p) = Z.to_nat size /\
      infrastructure.capacity p = Z.to_nat size /\
      infrastructure.config p = config /\
      infrastructure.closed p = false
  | Some (inr err, tr) =>
      0 <= size /\
      exists pooled e ev,
        (length pooled < Z.to_nat size)%nat /\
        (forall i, (i < length pooled)%nat ->
           infrastructure.createConnection config (dials i)
           = (inl (nth i pooled 0%nat), [infrastructure.EvDial (nth i pooled 0%nat)])) /\
        infrastructure.createConnection config (dials (length pooled)) = (inr e, ev) /\
        err = infrastructure.wrap "failed to create connection: " e /\
        Unwrap err = Some e /\
        tr = map infrastructure.EvDial pooled ++ ev
               ++ flat_map (fun c => [infrastructure.EvQuit c; infrastructure.EvConnClose c])
                           pooled /\
        dialed tr = pooled ++ dialed ev /\
        conn_closed tr = dialed ev ++ pooled /\
        quits tr = pooled
  end.
Proof.
intros config size dials. unfold infrastructure.NewConnectionPool.
destruct (Z.ltb_spec size 0) as [Hneg|Hpos]; [left; exact Hneg|].
destruct (Z.ltb_spec (infrastructure.maxAlloc - infrastructure.hchanSize) (8 * size))
  as [Hbig|Hfit]; [right; exact Hbig|].
cbn [orb].
pose proof (@populate_spec (Z.to_nat size) 0 dials
              (infrastructure.mkPool config (Z.to_nat size) [] false) [] eq_refl) as H.
destruct (infrastructure.populate _ _ _ _ _) as [[p|err] tr].
- destruct H as (new & Hlen & Hd & Hconn & -> & Hcfg & Hcap & Hcl).
  cbn [app infrastructure.connections infrastructure.capacity
       infrastructure.config] in *.
  rewrite Hconn. repeat split; auto.
- destruct H as (new & e & ev & Hlen & Hd & Hf & -> & ->).
  cbn [app infrastructure.connections infrastructure.config plus] in *.
  split; [exact Hpos|]. exists new, e, ev.
  pose proof (createConnection_events config (dials (length new))) as Hc.
  rewrite Hf in Hc. destruct Hc as (Hdc & Hq & _).
  destruct (quit_close_events new) as (Q1 & Q2 & Q3).
  rewrite !dialed_app, !conn_closed_app, !quits_app, Q1, Q2, Q3, Hq, <- Hdc.
  rewrite dialed_map_EvDial, conn_closed_map_EvDial, quits_map_EvDial.
  rewrite !app_nil_r. cbn [app]. repeat split; auto.
Qed.

(* ================================================================== *)
(** * Package [infrastructure]: the pool under [Get], [Put], [Close] and
      [Send] *)

(** A closed pool that holds no connection stays so. *)
Lemma pool_step_closed_empty (s s' : PoolState) (op : PoolOp) :
  pool_step s op = Some s' ->
  (infrastructure.closed (the_pool s) = true ->
   infrastructure.connections (the_pool s) = []) ->
  (infrastructure.closed (the_pool s') = true ->
   infrastructure.connections (the_pool s') = []) /\
  (infrastructure.closed (the_pool s) = true \/ op = OpClose ->
   infrastructure.closed (the_pool s') = true).
Proof.
destruct s as [p out]. cbn [the_pool].
destruct op as [env|conn|]; cbn [pool_step the_pool checkedOut].
- destruct (infrastructure.closed p) eqn:Hc.
  { rewrite (@Get_closed env p Hc). intros H; injection H as <-. cbn.
    rewrite Hc. split; auto. }
  destruct (infrastructure.Get env p) as [[r q] tr] eqn:EG.
  apply Get_shape in EG as (_ & Hcl & _). rewrite Hc in Hcl.
  destruct r; intros H; injection H as <-; cbn; rewrite Hcl;
    (split; [discriminate|]); intros [K|K]; discriminate K.
- destruct (take_out conn out) as [rest|]; [|discriminate].
  unfold infrastructure.Put. destruct (infrastructure.closed p) eqn:Hc.
  { intros H; injection H as <-. cbn. split; auto. }
  destruct (_ <? _)%nat; intros H; injection H as <-; cbn; rewrite Hc;
    (split; [discriminate|]); intros [K|K]; discriminate K.
- unfold infrastructure.Close. destruct (infrastructure.closed p) eqn:Hc.
  { intros H; injection H as <-. cbn. split; auto. }
  intros H; injection H as <-. cbn. split; auto.
Qed.

Lemma pool_run_closed_empty (ops : list PoolOp) (s s' : PoolState) :
  pool_run s ops = Some s' ->
  (infrastructure.closed (the_pool s) = true ->
   infrastructure.connections (the_pool s) = []) ->
  (infrastructure.closed (the_pool s') = true ->
   infrastructure.connections (the_pool s') = []) /\
  (infrastructure.closed (the_pool s) = true \/ In OpClose ops ->
   infrastructure.closed (the_pool s') = true).
Proof.
revert s. induction ops as [|op ops IH]; intros s; cbn [pool_run].
- intros H; injection H as <-. intros Hs. split; [exact Hs|].
  intros [H|[]]. exact H.
- destruct (pool_step s op) as [s1|] eqn:Es; [|discriminate].
  intros Hrun Hs. apply pool_step_closed_empty in Es as [H1 H2]; [|exact Hs].
  destruct (IH _ Hrun H1) as [H3 H4]. split; [exact H3|].
  intros [H|[H|H]]; apply H4; auto.
Qed.

(** X11: once [Close] is among the operations on a pool that was open, the
    pool is closed and holds no connection, whatever [Get], [Put] and
    [Close] operations follow: a second [Close] does nothing, and [Put]
    closes the connection it is given instead of keeping it. *)
Theorem closed_pool_keeps_no_connection :
  forall (p : infrastructure.ConnectionPool) (out : list infrastructure.Conn)
         (ops : list PoolOp) (s : PoolState),
  infrastructure.closed p = false ->
  pool_run (mkPoolState p out) ops = Some s ->
  In OpClose ops ->
  infrastructure.closed (the_pool s) = true /\
  infrastructure.connections (the_pool s) = [] /\
  infrastructure.Close (the_pool s) = (None, the_pool s, []) /\
  forall conn,
    infrastructure.Put conn (the_pool s)
    = (None, the_pool s, [infrastructure.EvPut conn; infrastructure.EvConnClose conn]).
Proof.
intros p out ops s Hopen Hrun Hin.
apply pool_run_closed_empty in Hrun as [H1 H2].
2:{ cbn. congruence. }
assert (Hc : infrastructure.closed (the_pool s) = true) by (apply H2; auto).
repeat split; auto.
- unfold infrastructure.Close. now rewrite Hc.
- intros conn. unfold infrastructure.Put. now rewrite Hc.
Qed.

(** The theorem at a pool of two connections: one is taken, the pool is
    closed, and the connection is returned. *)
Lemma closed_pool_keeps_no_connection_witness :
  exists s,
    pool_run (mkPoolState (infrastructure.pool client0) [])
             [OpGet get_ok; OpClose; OpPut 0%nat] = Some s /\
    infrastructure.closed (the_pool s) = true /\
    infrastructure.connections (the_pool s) = [].
Proof.
eexists. split; [reflexivity|].
pose proof (@closed_pool_keeps_no_connection (infrastructure.pool client0) []
              [OpGet get_ok; OpClose; OpPut 0%nat] _ eq_refl eq_refl
              (or_intror (or_introl eq_refl))) as (H1 & H2 & _).
split; [exact H1|exact H2].
Defined.

(** ** [Send] and the size of the pool *)

(** [Send] on an open pool that holds no connection. *)
Lemma Send_empty_pool (BEncode : gostring -> gostring) (env : infrastructure.SendEnv)
  (c : infrastructure.SMTPClient) (email : domain.Email) :
  infrastructure.closed (infrastructure.pool c) = false ->
  infrastructure.connections (infrastructure.pool c) = [] ->
  infrastructure.ctxDone (infrastructure.getEnv env) = None ->
  infrastructure.Send BEncode env c email
  = (Some get_timeout, infrastructure.mkClient (infrastructure.cconfig c) (infrastructure.pool c),
     [infrastructure.EvSelect]).
Proof.
intros Ho He Hc. unfold infrastructure.Send, infrastructure.Get, infrastructure.received.
rewrite Ho, Hc, He. reflexivity.
Qed.

(** [Send] when the connection it takes is dead and no other can be
    opened: the pool loses the connection. *)
Lemma Send_dead_connection (BEncode : gostring -> gostring) (env : infrastructure.SendEnv)
  (c : infrastructure.SMTPClient) (email : domain.Email) conn rest :
  infrastructure.closed (infrastructure.pool c) = false ->
  infrastructure.connections (infrastructure.pool c) = conn :: rest ->
  dead_and_unreachable (infrastructure.config (infrastructure.pool c))
                       (infrastructure.getEnv env) ->
  exists err tr,
    infrastructure.Send BEncode env c email
    = (Some err,
       infrastructure.mkClient (infrastructure.cconfig c)
         (infrastructure.set_connections (infrastructure.pool c) rest), tr) /\
    In (infrastructure.EvConnClose conn) tr /\
    filter is_put tr = [] /\ filter is_command tr = [].
Proof.
intros Ho Hl (Hctx & Hnoop & e & ev & Hdial).
unfold infrastructure.Send, infrastructure.Get, infrastructure.received.
rewrite Ho, Hctx, Hl.
destruct (infrastructure.noopErr (infrastructure.getEnv env)) as [ne|]; [|contradiction].
cbn [infrastructure.set_connections infrastructure.config].
rewrite Hdial. eexists _, _. split; [reflexivity|].
pose proof (createConnection_events (infrastructure.config (infrastructure.pool c))
              (infrastructure.redial (infrastructure.getEnv env))) as Hev.
rewrite Hdial in Hev.
assert (Hnone : filter is_put ev = [] /\ filter is_command ev = []).
{ revert Hdial. unfold infrastructure.createConnection.
  destruct (gostr.eqb _ _);
    repeat match goal with
    | |- context [match ?x with Some _ => _ | None => _ end] => destruct x
    end; intros H; first [discriminate H|injection H as <- <-; split; reflexivity]. }
destruct Hnone as [Hp Hcmd].
split; [right; right; left; reflexivity|].
cbn [app filter is_put is_command]. auto.
Qed.

(** X12: a pool whose connections are dead while the server cannot be
    reached is emptied by as many calls of [Send] as it holds
    connections: each call fails and puts nothing back.  From then on
    every [Send] whose context is not done fails with the timeout of
    [Get], whatever the network would answer: the client never dials
    again. *)
Theorem pool_of_dead_connections_drains_for_good :
  forall (BEncode : gostring -> gostring) (c : infrastructure.SMTPClient)
         (jobs : list (infrastructure.SendEnv * domain.Email)),
  infrastructure.closed (infrastructure.pool c) = false ->
  length jobs = length (infrastructure.connections (infrastructure.pool c)) ->
  Forall (fun job =>
            dead_and_unreachable (infrastructure.config (infrastructure.pool c))
                                 (infrastructure.getEnv (fst job))) jobs ->
  let '(results, c') := Sends BEncode jobs c in
  length results = length jobs /\
  Forall (fun r => r <> None) results /\
  infrastructure.connections (infrastructure.pool c') = [] /\
  infrastructure.closed (infrastructure.pool c') = false /\
  forall env email,
    infrastructure.ctxDone (infrastructure.getEnv env) = None ->
    infrastructure.Send BEncode env c' email = (Some get_timeout, c', [infrastructure.EvSelect]).
Proof.
intros BEncode c jobs. revert c.
induction jobs as [|[env email] jobs IH]; intros c Ho Hlen Hall; cbn [Sends].
- assert (Hl : infrastructure.connections (infrastructure.pool c) = [])
    by (destruct (infrastructure.connections (infrastructure.pool c));
        [reflexivity|discriminate Hlen]).
  repeat split; auto.
  intros env email Hctx.
  rewrite Send_empty_pool by assumption. now destruct c.
- destruct (infrastructure.connections (infrastructure.pool c)) as [|conn rest] eqn:Hl;
    [discriminate Hlen|].
  inversion Hall as [|? ? Hjob Hjobs]; subst.
  destruct (@Send_dead_connection BEncode env c email conn rest Ho Hl Hjob)
    as (err & tr & -> & _).
  specialize (IH (infrastructure.mkClient (infrastructure.cconfig c)
                    (infrastructure.set_connections (infrastructure.pool c) rest))).
  cbn [infrastructure.pool infrastructure.set_connections infrastructure.closed
       infrastructure.connections infrastructure.config] in IH.
  specialize (IH Ho ltac:(cbn in Hlen; lia) Hjobs).
  destruct (Sends BEncode jobs _) as [results c'].
  destruct IH as (H1 & H2 & H3 & H4 & H5).
  cbn [length]. repeat split; auto.
  constructor; [discriminate|exact H2].
Qed.

(** The theorem at a pool of two dead connections and two emails. *)
Lemma pool_of_dead_connections_drains_for_good_witness :
  let '(results, c') := Sends (fun s => s) [(env_dead, stale_email); (env_dead, stale_email)]
                              client0 in
  length results = 2%nat /\
  Forall (fun r => r <> None) results /\
  infrastructure.connections (infrastructure.pool c') = [] /\
  infrastructure.closed (infrastructure.pool c') = false /\
  forall env email,
    infrastructure.ctxDone (infrastructure.getEnv env) = None ->
    infrastructure.Send (fun s => s) env c' email
    = (Some get_timeout, c', [infrastructure.EvSelect]).
Proof.
apply (@pool_of_dead_connections_drains_for_good (fun s => s) client0
         [(env_dead, stale_email); (env_dead, stale_email)]).
- reflexivity.
- reflexivity.
- assert (H : dead_and_unreachable (infrastructure.config (infrastructure.pool client0))
                (infrastructure.getEnv env_dead)).
  { split; [reflexivity|]. split; [discriminate|]. eexists _, _. reflexivity. }
  constructor; [exact H|]. constructor; [exact H|]. constructor.
Defined.





(** ** The commands of a transaction *)

(** The loop over the recipients stops at the first address the server
    refuses. *)
Lemma rcpt_loop_first_refused (env : infrastructure.SendEnv) conn
  (addrs : list gostring) (i : nat) (tr : list infrastructure.Event) :
  match infrastructure.rcpt_loop env conn i addrs tr with
  | (None, tr') =>
      (forall j, (j < length addrs)%nat -> infrastructure.rcptErr env (i + j)%nat = None) /\
      tr' = tr ++ map (infrastructure.EvRcpt conn) addrs
  | (Some e, tr') =>
      exists tried refused rest inner,
        addrs = tried ++ refused :: rest /\
        (forall j, (j < length tried)%nat ->
           infrastructure.rcptErr env (i + j)%nat = None) /\
        infrastructure.rcptErr env (i + length tried)%nat = Some inner /\
        e = wrapError (str "RCPT TO " ++ refused ++ str " failed: " ++ Error inner) inner /\
        tr' = tr ++ map (infrastructure.EvRcpt conn) (tried ++ [refused])
  end.
Proof.
revert i tr. induction addrs as [|a addrs IH]; intros i tr; cbn [infrastructure.rcpt_loop].
- rewrite app_nil_r. split; [|reflexivity]. cbn [length]. intros j Hj; lia.
- destruct (infrastructure.rcptErr env i) as [inner|] eqn:Hr.
  + exists [], a, addrs, inner. cbn [app length map]. rewrite Nat.add_0_r.
    repeat split; auto. intros j Hj; lia.
  + specialize (IH (S i) (tr ++ [infrastructure.EvRcpt conn a])).
    destruct (infrastructure.rcpt_loop env conn (S i) addrs _) as [[e|] tr'].
    * destruct IH as (tried & refused & rest & inner & -> & Hacc & Hi & -> & ->).
      exists (a :: tried), refused, rest, inner. cbn [app length map].
      rewrite <- app_assoc. replace (i + S (length tried))%nat
        with (S i + length tried)%nat by lia. repeat split; auto.
      intros [|j] Hj; [now rewrite Nat.add_0_r|].
      replace (i + S j)%nat with (S i + j)%nat by lia. apply Hacc. lia.
    * destruct IH as (Hacc & ->). rewrite <- app_assoc. split; [|reflexivity].
      cbn [length]. intros [|j] Hj; [now rewrite Nat.add_0_r|].
      replace (i + S j)%nat with (S i + j)%nat by lia. apply Hacc. lia.
Qed.

(** X14: [sendWithConnection] issues the commands of a transaction in
    order: MAIL with the sender, RCPT for every address of To, then of
    Cc, then of Bcc, DATA, the message, the end of the data, and RSET.
    It stops at the first command the server refuses, and only there:
    the commands issued are those up to and including that command, every
    command before it was accepted, and the error returned wraps the
    error of that command under the name of the command (with the address
    for RCPT).  When every command before RSET is accepted the whole
    transaction is issued and the result is that of RSET, unwrapped.  In
    every case the commands issued are a prefix of the transaction. *)
Theorem sendWithConnection_stops_at_the_first_failure :
  forall (env : infrastructure.SendEnv) (conn : infrastructure.Conn)
         (email : domain.Email) (message : gostring),
  let rcpts := domain.To email ++ domain.Cc email ++ domain.Bcc email in
  let mail := infrastructure.EvMail conn (domain.From email) in
  let '(r, tr) := infrastructure.sendWithConnection env conn email message in
  (exists rest, transaction conn email message = tr ++ rest) /\
  match infrastructure.mailErr env with
  | Some e =>
      r = Some (wrapError (str "MAIL FROM failed: " ++ Error e) e) /\
      tr = [mail]
  | None =>
      (exists tried refused rest e,
         rcpts = tried ++ refused :: rest /\
         (forall i, (i < length tried)%nat -> infrastructure.rcptErr env i = None) /\
         infrastructure.rcptErr env (length tried) = Some e /\
         r = Some (wrapError (str "RCPT TO " ++ refused ++ str " failed: " ++ Error e) e) /\
         tr = mail :: map (infrastructure.EvRcpt conn) (tried ++ [refused])) \/
      ((forall i, (i < length rcpts)%nat -> infrastructure.rcptErr env i = None) /\
       match infrastructure.dataErr env with
       | Some e =>
           r = Some (wrapError (str "DATA failed: " ++ Error e) e) /\
           tr = mail :: map (infrastructure.EvRcpt conn) rcpts
                  ++ [infrastructure.EvData conn]
       | None =>
           match infrastructure.writeErr env with
           | Some e =>
               r = Some (wrapError (str "write failed: " ++ Error e) e) /\
               tr = mail :: map (infrastructure.EvRcpt conn) rcpts
                      ++ [infrastructure.EvData conn; infrastructure.EvWrite conn message]
           | None =>
               match infrastructure.closeErr env with
               | Some e =>
                   r = Some (wrapError (str "close failed: " ++ Error e) e) /\
                   tr = mail :: map (infrastructure.EvRcpt conn) rcpts
                          ++ [infrastructure.EvData conn;
                              infrastructure.EvWrite conn message;
                              infrastructure.EvDataClose conn]
               | None =>
                   r = infrastructure.resetErr env /\
                   tr = transaction conn email message
               end
           end
       end)
  end.
Proof.
intros env conn email message rcpts mail.
unfold infrastructure.sendWithConnection, transaction.
fold mail.
replace ((domain.To email ++ domain.Cc email) ++ domain.Bcc email) with rcpts
  by (unfold rcpts; now rewrite app_assoc).
fold rcpts.
destruct (infrastructure.mailErr env) as [e|].
{ split; [|split; reflexivity]. eexists. reflexivity. }
pose proof (rcpt_loop_first_refused env conn rcpts 0 [mail]) as Hr.
destruct (infrastructure.rcpt_loop env conn 0 rcpts _) as [[e|] tr0].
{ destruct Hr as (tried & refused & rest & inner & Hrc & Hacc & Hi & -> & ->).
  cbn [plus] in Hacc, Hi. split.
  - exists (map (infrastructure.EvRcpt conn) rest
            ++ [infrastructure.EvData conn; infrastructure.EvWrite conn message;
                infrastructure.EvDataClose conn; infrastructure.EvReset conn]).
    rewrite Hrc, <- !app_assoc. cbn [app]. rewrite !map_app. cbn [map app].
    rewrite <- !app_assoc. reflexivity.
  - left. exists tried, refused, rest, inner. repeat split; auto. }
destruct Hr as (Hacc & ->). cbn [plus] in Hacc.
destruct (infrastructure.dataErr env) as [e|].
{ split.
  - exists [infrastructure.EvWrite conn message; infrastructure.EvDataClose conn;
            infrastructure.EvReset conn].
    rewrite <- !app_assoc; reflexivity.
  - right. split; [exact Hacc|]. split; reflexivity. }
destruct (infrastructure.writeErr env) as [e|].
{ split.
  - exists [infrastructure.EvDataClose conn; infrastructure.EvReset conn].
    rewrite <- !app_assoc; reflexivity.
  - right. split; [exact Hacc|]. split; [reflexivity|].
    rewrite <- !app_assoc; reflexivity. }
destruct (infrastructure.closeErr env) as [e|].
{ split.
  - exists [infrastructure.EvReset conn]. rewrite <- !app_assoc; reflexivity.
  - right. split; [exact Hacc|]. split; [reflexivity|].
    rewrite <- !app_assoc; reflexivity. }
split.
- exists []. rewrite <- !app_assoc, app_nil_r; reflexivity.
- right. split; [exact Hacc|]. split; [reflexivity|].
  rewrite <- !app_assoc; reflexivity.
Qed.

(** The fields of an email the builder reads. *)
Lemma buildMessage_fields (BEncode : gostring -> gostring) (host : gostring)
  (clock : infrastructure.Clock) (e1 e2 : domain.Email) :
  domain.From e1 = domain.From e2 ->
  domain.To e1 = domain.To e2 ->
  domain.Cc e1 = domain.Cc e2 ->
  domain.Subject e1 = domain.Subject e2 ->
  domain.TextBody e1 = domain.TextBody e2 ->
  domain.HTMLBody e1 = domain.HTMLBody e2 ->
  domain.Attachments e1 = domain.Attachments e2 ->
  domain.Headers e1 = domain.Headers e2 ->
  domain.Priority_ e1 = domain.Priority_ e2 ->
  infrastructure.buildMessage BEncode host clock e1
  = infrastructure.buildMessage BEncode host clock e2.
Proof.
intros H1 H2 H3 H4 H5 H6 H7 H8 H9.
unfold infrastructure.buildMessage, infrastructure.write_headers,
  infrastructure.write_bodies.
now rewrite H1, H2, H3, H4, H5, H6, H7, H8, H9.
Qed.

(** X15: the message does not depend on the blind-copy recipients, nor on
    the identifier, the creation time, the status, the attempt count and
    the last error of the email: two emails that agree on the sender, To,
    Cc, the subject, the bodies, the attachments, the custom headers and
    the priority give the same bytes, so no Bcc address reaches the
    message through the builder. *)
Theorem buildMessage_does_not_depend_on_Bcc :
  forall (BEncode : gostring -> gostring) (host : gostring)
         (clock : infrastructure.Clock) (e1 e2 : domain.Email),
  domain.From e1 = domain.From e2 ->
  domain.To e1 = domain.To e2 ->
  domain.Cc e1 = domain.Cc e2 ->
  domain.Subject e1 = domain.Subject e2 ->
  domain.TextBody e1 = domain.TextBody e2 ->
  domain.HTMLBody e1 = domain.HTMLBody e2 ->
  domain.Attachments e1 = domain.Attachments e2 ->
  domain.Headers e1 = domain.Headers e2 ->
  domain.Priority_ e1 = domain.Priority_ e2 ->
  infrastructure.buildMessage BEncode host clock e1
  = infrastructure.buildMessage BEncode host clock e2.
Proof. intros. now apply buildMessage_fields. Qed.

(** The theorem at an email and the same email with two blind-copy
    recipients, sent five times without success. *)
Lemma buildMessage_does_not_depend_on_Bcc_witness :
  infrastructure.buildMessage (fun s => s) (str "host") clock0 email_with_attachment
  = infrastructure.buildMessage (fun s => s) (str "host") clock0
      (domain.set_LastError
         (domain.set_Attempts
            (domain.set_Status
               (domain.set_Bcc email_with_attachment
                  [str "auditor@example.com"; str "boss@example.com"])
               domain.StatusFailed) 5)
         (str "max attempts reached (5): 451 local error")).
Proof.
apply (@buildMessage_does_not_depend_on_Bcc (fun s => s) (str "host") clock0
         email_with_attachment
         (domain.set_LastError
            (domain.set_Attempts
               (domain.set_Status
                  (domain.set_Bcc email_with_attachment
                     [str "auditor@example.com"; str "boss@example.com"])
                  domain.StatusFailed) 5)
            (str "max attempts reached (5): 451 local error")));
  reflexivity.
Defined.

(* ================================================================== *)
(** * The pool: [Get] and [Close] *)

(** X16: [Get] accounts for the connections of the pool, whichever case
    its [select] takes.  It keeps the configuration, the capacity and the
    flag of the pool.  When it hands out a connection, the pool was open
    and holds its first connection fewer: the connection handed out is
    that one when the probe succeeded, and otherwise the client of a new
    dial that succeeded, the first connection being closed.  When it
    returns an error the pool is as it was and the error is the one of a
    closed pool, the error of the context, or the timeout of an empty
    pool; except when the probe of the connection it took failed and the
    dial that replaces it failed too: then that connection is closed, the
    pool has lost it, and the error wraps the error of
    [createConnection]. *)
Theorem Get_accounts_for_the_connections :
  forall (env : infrastructure.GetEnv) (p : infrastructure.ConnectionPool),
  let '(r, p', tr) := infrastructure.Get env p in
  infrastructure.config p' = infrastructure.config p /\
  infrastructure.capacity p' = infrastructure.capacity p /\
  infrastructure.closed p' = infrastructure.closed p /\
  match r with
  | inl conn =>
      infrastructure.closed p = false /\
      exists front,
        infrastructure.connections p = front :: infrastructure.connections p' /\
        ((infrastructure.noopErr env = None /\ conn = front /\
          tr = [infrastructure.EvSelect; infrastructure.EvNoop front]) \/
         (infrastructure.noopErr env <> None /\
          infrastructure.createConnection (infrastructure.config p)
            (infrastructure.redial env) = (inl conn, [infrastructure.EvDial conn]) /\
          tr = [infrastructure.EvSelect; infrastructure.EvNoop front;
                infrastructure.EvConnClose front; infrastructure.EvDial conn] /\
          dialed tr = [conn] /\ conn_closed tr = [front]))
  | inr err =>
      (p' = p /\
       ((infrastructure.closed p = true /\
         err = errorString (str "pool is closed") /\ tr = []) \/
        (infrastructure.closed p = false /\
         infrastructure.ctxDone env = Some err /\ tr = [infrastructure.EvSelect]) \/
        (infrastructure.closed p = false /\
         infrastructure.ctxDone env = None /\ infrastructure.connections p = [] /\
         err = errorString (str "timeout waiting for connection") /\
         tr = [infrastructure.EvSelect]))) \/
      exists front e ev,
        infrastructure.closed p = false /\
        infrastructure.connections p = front :: infrastructure.connections p' /\
        infrastructure.noopErr env <> None /\
        infrastructure.createConnection (infrastructure.config p)
          (infrastructure.redial env) = (inr e, ev) /\
        err = infrastructure.wrap "failed to recreate connection: " e /\
        tr = [infrastructure.EvSelect; infrastructure.EvNoop front;
              infrastructure.EvConnClose front] ++ ev /\
        In front (conn_closed tr)
  end.
Proof.
intros env p. unfold infrastructure.Get.
destruct (infrastructure.closed p) eqn:Hc.
{ repeat split; auto. left. split; [reflexivity|]. left. auto. }
destruct (infrastructure.connections p) as [|front rest] eqn:Hl.
{ destruct (infrastructure.ctxDone env) as [ce|] eqn:Hctx.
  - repeat split; auto. left. split; [reflexivity|]. right. left. auto.
  - repeat split; auto. left. split; [reflexivity|]. right. right.
    repeat split; auto. }
destruct (infrastructure.ctxDone env) as [ce|] eqn:Hctx;
  [destruct (infrastructure.ctxFirst env)|];
  [repeat split; auto; left; (split; [reflexivity|]); right; left; auto| |];
  unfold infrastructure.received;
  cbn [infrastructure.set_connections infrastructure.config];
  (destruct (infrastructure.noopErr env) as [ne|] eqn:Hn;
   [pose proof (createConnection_events (infrastructure.config p)
                  (infrastructure.redial env)) as Hev;
    destruct (infrastructure.createConnection _ _) as [[fresh|e1] ev] eqn:Hd;
    [subst ev|]|]);
  cbn [infrastructure.config infrastructure.capacity infrastructure.closed
       infrastructure.connections app];
  (repeat split; auto).
all: first
  [ exists front; split; [reflexivity|]; right; repeat split; auto; discriminate
  | right; exists front, e1, ev; repeat split; auto; [discriminate|cbn; left; reflexivity]
  | exists front; split; [reflexivity|]; left; auto ].
Qed.

(** X17: [SMTPClient.Close] on an open pool quits and closes every
    connection the pool holds, each once and in the order of the queue,
    and every [Send] on the client afterwards fails at once with the
    pool-closed error, without a command to the server and without
    waiting. *)
Theorem Send_after_Close_is_refused :
  forall (c : infrastructure.SMTPClient),
  infrastructure.closed (infrastructure.pool c) = false ->
  let '(r, c', tr) := infrastructure.SMTPClient_Close c in
  r = None /\
  tr = flat_map (fun conn => [infrastructure.EvQuit conn; infrastructure.EvConnClose conn])
                (infrastructure.connections (infrastructure.pool c)) /\
  infrastructure.connections (infrastructure.pool c') = [] /\
  forall BEncode env email,
    infrastructure.Send BEncode env c' email = (Some get_closed, c', []).
Proof.
intros c Ho. unfold infrastructure.SMTPClient_Close.
rewrite (Close_events _ Ho). repeat split.
Qed.

(** The theorem at a client with two connections. *)
Lemma Send_after_Close_is_refused_witness :
  let '(r, c', tr) := infrastructure.SMTPClient_Close client0 in
  r = None /\
  tr = [infrastructure.EvQuit 0%nat; infrastructure.EvConnClose 0%nat;
        infrastructure.EvQuit 1%nat; infrastructure.EvConnClose 1%nat] /\
  infrastructure.connections (infrastructure.pool c') = [] /\
  forall BEncode env email,
    infrastructure.Send BEncode env c' email = (Some get_closed, c', []).
Proof.
apply (@Send_after_Close_is_refused client0). reflexivity.
Defined.
(* ================================================================== *)
(** * From the service to the wire *)

(** The loop over the recipients when the server accepts them all. *)
Lemma rcpt_loop_accepted (env : infrastructure.SendEnv) conn (addrs : list gostring)
  (i : nat) (tr : list infrastructure.Event) :
  (forall k, infrastructure.rcptErr env k = None) ->
  infrastructure.rcpt_loop env conn i addrs tr
  = (None, tr ++ map (infrastructure.EvRcpt conn) addrs).
Proof.
intros Hr. revert i tr.
induction addrs as [|a addrs IH]; intros i tr; cbn [infrastructure.rcpt_loop map].
- now rewrite app_nil_r.
- rewrite Hr, IH, <- app_assoc. reflexivity.
Qed.

(** [Send] when nothing fails: the probe, the transaction on the
    connection at the front of the pool, and the connection put back at
    the back. *)
Lemma Send_all_accepted (BEncode : gostring -> gostring) (env : infrastructure.SendEnv)
  (c : infrastructure.SMTPClient) (email : domain.Email)
  (front : infrastructure.Conn) (rest : list infrastructure.Conn) :
  infrastructure.closed (infrastructure.pool c) = false ->
  infrastructure.connections (infrastructure.pool c) = front :: rest ->
  (length (infrastructure.connections (infrastructure.pool c))
     <= infrastructure.capacity (infrastructure.pool c))%nat ->
  all_accepted env ->
  infrastructure.Send BEncode env c email
  = (None,
     infrastructure.mkClient (infrastructure.cconfig c)
       (infrastructure.set_connections (infrastructure.pool c) (rest ++ [front])),
     [infrastructure.EvSelect; infrastructure.EvNoop front]
     ++ transaction front email
          (fst (infrastructure.buildMessage BEncode
                  (infrastructure.Host (infrastructure.cconfig c))
                  (infrastructure.clock env) email))
     ++ [infrastructure.EvPut front]).
Proof.
intros Ho Hl Hcap (Hctx & Hnoop & Hmail & Hrcpt & Hdata & Hwrite & Hclose & Hreset).
assert (Hroom : (length rest <? infrastructure.capacity (infrastructure.pool c))%nat = true).
{ apply Nat.ltb_lt. rewrite Hl in Hcap. cbn [length] in Hcap. lia. }
unfold infrastructure.Send, infrastructure.Get, infrastructure.received. rewrite Ho, Hctx, Hl, Hnoop.
assert (Hb : exists message,
  infrastructure.buildMessage BEncode (infrastructure.Host (infrastructure.cconfig c))
    (infrastructure.clock env) email = (message, None))
  by (unfold infrastructure.buildMessage; eexists; reflexivity).
destruct Hb as (message & Hb). rewrite Hb. cbn [fst].
unfold infrastructure.sendWithConnection.
rewrite Hmail, rcpt_loop_accepted, Hdata, Hwrite, Hclose, Hreset by exact Hrcpt.
unfold infrastructure.Put.
cbn [infrastructure.set_connections infrastructure.closed infrastructure.connections
     infrastructure.capacity].
rewrite Ho, Hroom. unfold transaction.
rewrite <- ?app_assoc. cbn [app]. rewrite <- ?app_assoc. reflexivity.
Qed.

(** X18: a valid email sent by the service through the client, with at
    least one attempt allowed, a connection in an open pool and a server
    that accepts every command, is delivered by the first attempt: the
    sender is called once and [retry.Do] does not wait; the network sees
    the probe of the connection at the front of the pool, one complete
    transaction on it (MAIL, RCPT for To, Cc and Bcc, DATA, the message,
    RSET) and the connection put back at the back of the pool; the email
    comes back [StatusSent] with one attempt more. *)
Theorem SendEmail_through_the_client_delivers_at_the_first_attempt :
  forall (BEncode : gostring -> gostring) (envs : nat -> infrastructure.SendEnv)
         (wait : option Z -> ClientSender -> option error * ClientSender)
         (s : application.EmailService) (email : domain.Email)
         (c : infrastructure.SMTPClient)
         (front : infrastructure.Conn) (rest : list infrastructure.Conn),
  domain.Validate email = None ->
  1 <= retry.MaxAttempts (application.retryConfig s) ->
  infrastructure.closed (infrastructure.pool c) = false ->
  infrastructure.connections (infrastructure.pool c) = front :: rest ->
  (length (infrastructure.connections (infrastructure.pool c))
     <= infrastructure.capacity (infrastructure.pool c))%nat ->
  all_accepted (envs 0%nat) ->
  application.SendEmail (client_Send BEncode envs) wait s email (c, 0%nat, [])
  = Some (None,
          domain.set_Status (domain.set_Attempts email (incr (domain.Attempts email)))
            domain.StatusSent,
          (infrastructure.mkClient (infrastructure.cconfig c)
             (infrastructure.set_connections (infrastructure.pool c) (rest ++ [front])),
           1%nat,
           [infrastructure.EvSelect; infrastructure.EvNoop front]
           ++ transaction front email
                (fst (infrastructure.buildMessage BEncode
                        (infrastructure.Host (infrastructure.cconfig c))
                        (infrastructure.clock (envs 0%nat)) email))
           ++ [infrastructure.EvPut front]),
          [retry.EvCall 1 None]).
Proof.
intros BEncode envs wait s email c front rest Hv Hmax Ho Hl Hcap Hok.
unfold application.SendEmail. rewrite Hv.
unfold retry.Do. cbn [retry.Do_loop].
destruct (Z.leb_spec 1 (retry.MaxAttempts (application.retryConfig s))) as [_|Hlt]; [|lia].
unfold application.attempt, client_Send.
rewrite (@Send_all_accepted BEncode (envs 0%nat) c _ front rest Ho Hl Hcap Hok).
cbn [app].
rewrite (@buildMessage_fields BEncode (infrastructure.Host (infrastructure.cconfig c))
           (infrastructure.clock (envs 0%nat))
           (domain.set_Attempts (domain.set_Status email domain.StatusSending)
              (wrap64 (domain.Attempts (domain.set_Status email domain.StatusSending) + 1)))
           email) by reflexivity.
reflexivity.
Qed.

(** The theorem at a pool of two connections and a server that accepts
    everything. *)
Lemma SendEmail_through_the_client_delivers_at_the_first_attempt_witness :
  exists message,
    application.SendEmail (client_Send (fun s => s) (fun _ => env_ok))
      (fun _ sd => (None, sd)) application.NewEmailService stale_email
      (client0, 0%nat, [])
    = Some (None,
            domain.set_Status (domain.set_Attempts stale_email 6) domain.StatusSent,
            (infrastructure.mkClient smtp_config
               (infrastructure.mkPool smtp_config 2 [1%nat; 0%nat] false),
             1%nat,
             [infrastructure.EvSelect; infrastructure.EvNoop 0%nat;
              infrastructure.EvMail 0%nat (str "sender@example.com");
              infrastructure.EvRcpt 0%nat (str "rcpt@example.com");
              infrastructure.EvData 0%nat; infrastructure.EvWrite 0%nat message;
              infrastructure.EvDataClose 0%nat; infrastructure.EvReset 0%nat;
              infrastructure.EvPut 0%nat]),
            [retry.EvCall 1 None]).
Proof.
eexists.
apply (@SendEmail_through_the_client_delivers_at_the_first_attempt (fun s => s)
         (fun _ => env_ok) (fun _ sd => (None, sd)) application.NewEmailService
         stale_email client0 0%nat [1%nat]).
- reflexivity.
- vm_compute. discriminate.
- reflexivity.
- reflexivity.
- cbn. lia.
- repeat split.
Defined.


(** X19: a pool size that is not positive gives a program that cannot
    send.  With a negative size [NewSMTPClient] panics.  With the size 0,
    which [Load] also gives for a [SMTP_POOL_SIZE] that is not a number,
    [NewSMTPClient] succeeds without dialing, and every [Send] on the
    client whose context is not done fails with the timeout of [Get]
    without a command to the server. *)
Theorem pool_size_zero_gives_a_client_that_cannot_send :
  forall (cfg : config.Config) (dials : nat -> infrastructure.DialEnv),
  config.PoolSize (config.SMTP cfg) <= 0 ->
  (config.PoolSize (config.SMTP cfg) < 0 /\
   infrastructure.NewSMTPClient (production.smtpConfig cfg) dials = None) \/
  (config.PoolSize (config.SMTP cfg) = 0 /\
   exists c,
     infrastructure.NewSMTPClient (production.smtpConfig cfg) dials = Some (inl c, []) /\
     infrastructure.connections (infrastructure.pool c) = [] /\
     forall BEncode env email,
       infrastructure.ctxDone (infrastructure.getEnv env) = None ->
       infrastructure.Send BEncode env c email
       = (Some get_timeout, c, [infrastructure.EvSelect])).
Proof.
intros cfg dials Hle.
unfold infrastructure.NewSMTPClient, infrastructure.NewConnectionPool, production.smtpConfig.
cbn [infrastructure.PoolSize].
destruct (Z.ltb_spec (config.PoolSize (config.SMTP cfg)) 0) as [Hneg|Hpos].
- left. split; [exact Hneg|reflexivity].
- right. assert (H0 : config.PoolSize (config.SMTP cfg) = 0) by lia.
  split; [exact H0|]. rewrite H0. cbn [Z.to_nat infrastructure.populate].
  eexists. split; [reflexivity|]. split; [reflexivity|].
  intros BEncode env email Hctx.
  now rewrite Send_empty_pool.
Qed.


(** The theorem at the configuration [Load] reads from an environment
    whose [SMTP_POOL_SIZE] is the word five. *)
Lemma pool_size_zero_gives_a_client_that_cannot_send_witness :
  exists cfg c,
    config.Load environ_pool_five = inl cfg /\
    config.PoolSize (config.SMTP cfg) = 0 /\
    infrastructure.NewSMTPClient (production.smtpConfig cfg) dial_ok = Some (inl c, []) /\
    infrastructure.Send (fun s => s) env_ok c stale_email
    = (Some get_timeout, c, [infrastructure.EvSelect]).
Proof.
eexists _, _. split; [reflexivity|]. split; [reflexivity|].
destruct (@pool_size_zero_gives_a_client_that_cannot_send
            (config.mkConfig (config.mkSMTPConfig (str "smtp.example.com") (str "587")
               (str "sender@example.com") (str "secret") 0)) dial_ok
            ltac:(cbn; lia)) as [[Hneg _]|(_ & c & Hnew & _ & Hsend)].
- cbn in Hneg. lia.
- split; [reflexivity|]. cbn in Hnew. injection Hnew as <-.
  apply Hsend. reflexivity.
Defined.

(* ================================================================== *)
(** * The default configuration at work *)

Lemma wait_delays_app (a b : list retry.Event) :
  wait_delays (a ++ b) = wait_delays a ++ wait_delays b.
Proof. apply flat_map_app. Qed.

Lemma wait_delays_retries (config : retry.Config) (errs : list error) (attempt : Z) :
  wait_delays (retries config attempt errs)
  = map (fun i => retry.calculateBackoff (attempt + Z.of_nat i) config)
        (seq 0 (length errs)).
Proof.
revert attempt. induction errs as [|e errs IH]; intros attempt; [reflexivity|].
cbn [retries retried app wait_delays flat_map length seq map].
fold (wait_delays (retries config (attempt + 1) errs)).
rewrite IH, Z.add_0_r, <- seq_shift, map_map. f_equal.
apply map_ext. intros i. f_equal. lia.
Qed.

Lemma wait_delays_ending (config : retry.Config) (k : Z) r ending :
  Ending config k r ending ->
  wait_delays ending = [] \/
  (k < retry.MaxAttempts config /\
   wait_delays ending = [retry.calculateBackoff k config]).
Proof. intros H. destruct H; cbn; auto. Qed.

(** X20: with the default configuration [Do] calls the operation at most
    five times and waits 1 s after the first failed attempt, 2 s after
    the second, 4 s after the third and 8 s after the fourth: the delays
    of its waits are the first of these, in this order, and it never
    waits after the fifth attempt. *)
Theorem Do_with_defaults_waits_1_2_4_8_seconds :
  forall (St : Type) (fn : St -> option error * St)
         (wait : option Z -> St -> option error * St) (st : St),
  exists r st' tr,
    retry.Do fn wait retry.DefaultConfig st = Some (r, st', tr) /\
    (1 <= retry.calls tr <= 5)%nat /\
    exists n,
      (n <= 4)%nat /\
      wait_delays tr
      = firstn n [Some (1 * retry.Second); Some (2 * retry.Second);
                  Some (4 * retry.Second); Some (8 * retry.Second)].
Proof.
intros St fn wait st.
destruct (Do_run fn wait retry.DefaultConfig st)
  as (r & st' & tr & Hdo & [(Hm & _)|(errs & ending & -> & _ & Hk & Hend)]).
{ exfalso. revert Hm. vm_compute. intros H. now apply H. }
exists r, st', (retries retry.DefaultConfig 1 errs ++ ending).
split; [exact Hdo|].
change (retry.MaxAttempts retry.DefaultConfig) with 5 in *.
destruct (retries_counts retry.DefaultConfig errs 1) as (Hc & _ & _).
pose proof (Ending_counts Hend) as (Hc' & _).
rewrite calls_app, Hc, Hc'. split; [lia|].
rewrite wait_delays_app, wait_delays_retries.
apply wait_delays_ending in Hend.
assert (Hlen : (length errs <= 4)%nat) by lia.
destruct errs as [|e1 [|e2 [|e3 [|e4 [|e5 errs]]]]]; cbn [length] in *; try lia;
  cbn [seq map Z.of_nat Pos.of_succ_nat Pos.succ Z.add Pos.add Pos.add_carry] in *;
  destruct Hend as [->|[Hlt ->]];
  change (retry.MaxAttempts retry.DefaultConfig) with 5 in *; try lia;
  first [ exists 0%nat; split; [lia|vm_compute; reflexivity]
        | exists 1%nat; split; [lia|vm_compute; reflexivity]
        | exists 2%nat; split; [lia|vm_compute; reflexivity]
        | exists 3%nat; split; [lia|vm_compute; reflexivity]
        | exists 4%nat; split; [lia|vm_compute; reflexivity] ].
Qed.

(** X21: a service made by [NewEmailService] calls the sender at least
    once and at most five times for an email that [Validate] accepts,
    and not at all for one it refuses; [Attempts] goes up by one per
    call. *)
Theorem SendEmail_makes_one_to_five_attempts :
  forall (Sender : Type)
         (sender_Send : domain.Email -> Sender -> option error * Sender)
         (wait : option Z -> Sender -> option error * Sender)
         (email : domain.Email) (sd : Sender),
  exists r email' sd' tr,
    application.SendEmail sender_Send wait application.NewEmailService email sd
    = Some (r, email', sd', tr) /\
    domain.Attempts email' = Nat.iter (retry.calls tr) incr (domain.Attempts email) /\
    match domain.Validate email with
    | Some _ => retry.calls tr = 0%nat
    | None => (1 <= retry.calls tr <= 5)%nat
    end.
Proof.
intros Sender sender_Send wait email sd.
unfold application.SendEmail.
destruct (domain.Validate email) as [verr|].
{ eexists _, _, _, _. split; [reflexivity|]. split; reflexivity. }
destruct (Do_run (application.attempt sender_Send) (application.wait_st wait)
            (application.retryConfig application.NewEmailService)
            (domain.set_Status email domain.StatusSending, sd))
  as (r & [e1 sd1] & tr & Hdo & Hrun).
rewrite Hdo.
apply Do_attempt_email in Hdo as (Ha & _).
assert (Hcalls : (1 <= retry.calls tr <= 5)%nat).
{ destruct Hrun as [(Hm & _)|(errs & ending & -> & _ & Hk & Hend)].
  - exfalso. revert Hm. vm_compute. intros H. now apply H.
  - change (retry.MaxAttempts (application.retryConfig application.NewEmailService))
      with 5 in Hk.
    destruct (retries_counts (application.retryConfig application.NewEmailService) errs 1)
      as (Hc & _ & _).
    pose proof (Ending_counts Hend) as (Hc' & _).
    rewrite calls_app, Hc, Hc'. lia. }
destruct r as [err|]; eexists _, _, _, _; (split; [reflexivity|]);
  (split; [exact Ha|exact Hcalls]).
Qed.
(* ================================================================== *)
(** * Package [config]: [Load] *)

Lemma parse_digits_None (s : gostring) (n : Z) :
  forallb regexp.digit s = false -> strconv.parse_digits n s = None.
Proof.
revert n. induction s as [|c s IH]; intros n; cbn [forallb strconv.parse_digits].
- discriminate.
- assert (Hd : regexp.digit c
               = (0 <=? Z.of_nat (nat_of_ascii c) - 48) && (Z.of_nat (nat_of_ascii c) - 48 <=? 9)).
  { unfold regexp.digit, regexp.in_range.
    destruct (Nat.leb_spec 48 (nat_of_ascii c)), (Nat.leb_spec (nat_of_ascii c) 57),
             (Z.leb_spec 0 (Z.of_nat (nat_of_ascii c) - 48)),
             (Z.leb_spec (Z.of_nat (nat_of_ascii c) - 48) 9); cbn; try reflexivity; lia. }
  rewrite <- Hd. destruct (regexp.digit c); cbn [andb]; [apply IH|reflexivity].
Qed.

(** A text that is not a numeral is a syntax error, and its value is 0. *)
Lemma Atoi_not_numeral (s : gostring) :
  numeral s = false -> strconv.Atoi s = (0, Some strconv.ErrSyntax).
Proof.
unfold numeral, strconv.Atoi.
set (split := match s with
              | "-"%char :: rest => (true, rest)
              | "+"%char :: rest => (false, rest)
              | _ => (false, s)
              end).
assert (Hs : snd split = match s with
                         | "-"%char :: rest => rest
                         | "+"%char :: rest => rest
                         | _ => s
                         end).
{ subst split. destruct s as [|c s]; [reflexivity|].
  destruct c as [[|] [|] [|] [|] [|] [|] [|] [|]]; reflexivity. }
rewrite <- Hs. destruct split as [neg digits]. cbn [snd].
destruct digits as [|c digits]; [reflexivity|].
cbn [gostr.eqb negb andb]. intros H.
now rewrite (parse_digits_None _ _ H).
Qed.

(** X22: [Load] fails exactly when [SMTP_HOST], [SMTP_FROM] or
    [SMTP_PASSWORD] is unset or empty, and names the first of them that
    is, in this order.  Otherwise the configuration holds the three
    values, the port of the environment or 587 when it gives none, and as
    pool size 5 when [SMTP_POOL_SIZE] is unset or empty and 0 when it is
    set to a text that is not a decimal numeral: the pool size never
    makes [Load] fail. *)
Theorem Load_requires_host_sender_and_password :
  forall (env : config.Environ),
  match config.Load env with
  | inr err =>
      (env (str "SMTP_HOST") = [] /\
       err = errorString (str "SMTP_HOST is required")) \/
      (env (str "SMTP_HOST") <> [] /\ env (str "SMTP_FROM") = [] /\
       err = errorString (str "SMTP_FROM is required")) \/
      (env (str "SMTP_HOST") <> [] /\ env (str "SMTP_FROM") <> [] /\
       env (str "SMTP_PASSWORD") = [] /\
       err = errorString (str "SMTP_PASSWORD is required"))
  | inl cfg =>
      env (str "SMTP_HOST") <> [] /\ env (str "SMTP_FROM") <> [] /\
      env (str "SMTP_PASSWORD") <> [] /\
      config.Host (config.SMTP cfg) = env (str "SMTP_HOST") /\
      config.Username (config.SMTP cfg) = env (str "SMTP_FROM") /\
      config.Password (config.SMTP cfg) = env (str "SMTP_PASSWORD") /\
      config.Port (config.SMTP cfg)
        = (if gostr.eqb (env (str "SMTP_PORT")) [] then str "587"
           else env (str "SMTP_PORT")) /\
      (env (str "SMTP_POOL_SIZE") = [] -> config.PoolSize (config.SMTP cfg) = 5) /\
      (env (str "SMTP_POOL_SIZE") <> [] -> numeral (env (str "SMTP_POOL_SIZE")) = false ->
       config.PoolSize (config.SMTP cfg) = 0)
  end.
Proof.
intros env. unfold config.Load.
assert (Hget : forall key, config.getEnv env key [] = env key).
{ intros key. unfold config.getEnv.
  destruct (gostr_eqb_spec (env key) []) as [->|_]; reflexivity. }
rewrite !Hget.
assert (Hpool : (env (str "SMTP_POOL_SIZE") = [] ->
                 fst (strconv.Atoi (config.getEnv env (str "SMTP_POOL_SIZE") (str "5"))) = 5) /\
                (env (str "SMTP_POOL_SIZE") <> [] ->
                 numeral (env (str "SMTP_POOL_SIZE")) = false ->
                 fst (strconv.Atoi (config.getEnv env (str "SMTP_POOL_SIZE") (str "5"))) = 0)).
{ unfold config.getEnv.
  destruct (gostr_eqb_spec (env (str "SMTP_POOL_SIZE")) []) as [E|E]; cbn [negb].
  - split; [intros _; reflexivity|]. intros H. contradiction.
  - split; [intros H; contradiction|]. intros _ Hn.
    now rewrite (Atoi_not_numeral _ Hn). }
destruct (strconv.Atoi _) as [poolSize aerr]. cbn [fst] in Hpool.
unfold config.Validate. cbn [config.SMTP config.Host config.Username config.Password].
destruct (gostr_eqb_spec (env (str "SMTP_HOST")) []) as [Eh|Eh]; [now left|].
destruct (gostr_eqb_spec (env (str "SMTP_FROM")) []) as [Ef|Ef]; [right; now left|].
destruct (gostr_eqb_spec (env (str "SMTP_PASSWORD")) []) as [Ep|Ep]; [right; right; auto|].
cbn [config.SMTP config.Host config.Username config.Password config.Port config.PoolSize].
destruct Hpool as [H5 H0]. repeat split; auto.
unfold config.getEnv.
destruct (gostr.eqb (env (str "SMTP_PORT")) []); reflexivity.
Qed.

(* ================================================================== *)
(** * [loadSMTPConfig] *)

(** X23: [loadSMTPConfig] succeeds exactly when the four variables are all
    set and not empty, and then returns their values; otherwise its
    error lists every variable that is missing, in the fixed order host,
    port, sender, password, separated by a comma and a space. *)
Theorem loadSMTPConfig_lists_every_missing_variable :
  forall (env : gostring -> gostring),
  let missing := filter (fun key => gostr.eqb (env key) []) required_variables in
  match htmlmail.loadSMTPConfig env with
  | inl cfg =>
      missing = [] /\
      cfg = htmlmail.mkSMTPConfig (env (str "SMTP_HOST")) (env (str "SMTP_PORT"))
              (env (str "SMTP_FROM")) (env (str "SMTP_PASSWORD"))
  | inr err =>
      missing <> [] /\
      err = errorString (str "missing environment variables: "
                         ++ Join missing (str ", "))
  end.
Proof.
intros env. unfold htmlmail.loadSMTPConfig, required_variables.
cbn [htmlmail.Host htmlmail.Port htmlmail.From htmlmail.Password filter].
destruct (gostr.eqb (env (str "SMTP_HOST")) []);
destruct (gostr.eqb (env (str "SMTP_PORT")) []);
destruct (gostr.eqb (env (str "SMTP_FROM")) []);
destruct (gostr.eqb (env (str "SMTP_PASSWORD")) []);
  cbn [app length Z.of_nat Z.gtb Z.compare Pos.of_succ_nat Pos.succ];
  split; try reflexivity; discriminate.
Qed.

(* ================================================================== *)
(** * [encodeAttachment] *)

Lemma encodeAttachment_loop_lines (fuel i : nat) (encoded result : gostring) :
  complete.encodeAttachment_loop fuel (Z.of_nat i) encoded result
  = result ++ concat (map (fun l => l ++ CRLF) (lines76 fuel (skipn i encoded))).
Proof.
rewrite <- write_lines_spec. revert i result.
induction fuel as [|fuel IH]; intros i result;
  cbn [complete.encodeAttachment_loop infrastructure.write_lines]; [reflexivity|].
destruct (Z.of_nat i <? len encoded); [|reflexivity].
unfold infrastructure.WriteString.
replace (Z.of_nat i + 76)%Z with (Z.of_nat (i + 76)) by lia.
apply IH.
Qed.

(** Every piece but the last one has 76 characters. *)
Lemma lines76_full (fuel : nat) (s : gostring) :
  (length s <= fuel)%nat ->
  Forall (fun l => length l = 76%nat) (removelast (lines76 fuel s)).
Proof.
revert s. induction fuel as [|fuel IH]; intros s Hs; [constructor|].
destruct s as [|c s]; [constructor|].
cbn [lines76].
assert (Hrest : (length (skipn 76 (c :: s)) <= fuel)%nat).
{ rewrite length_skipn. cbn [length] in *. lia. }
specialize (IH _ Hrest).
destruct (lines76 fuel (skipn 76 (c :: s))) as [|l ls] eqn:El.
- constructor.
- change (removelast (?a :: l :: ls)) with (a :: removelast (l :: ls)).
  constructor; [|exact IH].
  rewrite length_firstn. apply Nat.min_l.
  destruct (skipn 76 (c :: s)) as [|c' s'] eqn:Es.
  + destruct fuel; discriminate El.
  + apply (f_equal (@length _)) in Es. rewrite length_skipn in Es.
    cbn [length] in *. lia.
Qed.

Lemma without_eol_app (a b : gostring) : without_eol (a ++ b) = without_eol a ++ without_eol b.
Proof. apply filter_app. Qed.

Lemma without_eol_base64 (s : gostring) :
  forallb base64_char s = true -> without_eol s = s.
Proof.
induction s as [|c s IH]; cbn [forallb without_eol filter]; [reflexivity|].
intros H. apply andb_prop in H as [Hc Hs].
apply base64_char_plain in Hc as (-> & _). cbn [negb].
f_equal. now apply IH.
Qed.

Lemma without_eol_lines (lines : list gostring) :
  Forall (fun l => forallb base64_char l = true) lines ->
  without_eol (concat (map (fun l => l ++ CRLF) lines)) = concat lines.
Proof.
induction 1 as [|l lines Hl _ IH]; [reflexivity|].
cbn [map concat]. rewrite !without_eol_app, IH, (without_eol_base64 _ Hl).
change (without_eol CRLF) with (@nil ascii). now rewrite app_nil_r.
Qed.

(** X24: [encodeAttachment] returns the base64 text of the data cut into
    lines, each ended by CRLF: no line is empty, every line but the last
    has exactly 76 characters and the last has at most 76.  The text
    without its line ends decodes to the data, and no data gives the
    empty text. *)
Theorem encodeAttachment_round_trip :
  forall (data : list Byte.byte),
  exists lines,
    complete.encodeAttachment data = concat (map (fun l => l ++ CRLF) lines) /\
    Forall (fun l => (0 < length l <= 76)%nat) lines /\
    Forall (fun l => length l = 76%nat) (removelast lines) /\
    concat lines = base64.EncodeToString data /\
    base64.DecodeString (without_eol (complete.encodeAttachment data)) = Some data /\
    (data = [] -> complete.encodeAttachment data = []).
Proof.
intros data. exists (base64_lines data).
assert (He : complete.encodeAttachment data
             = concat (map (fun l => l ++ CRLF) (base64_lines data))).
{ unfold complete.encodeAttachment. change 0%Z with (Z.of_nat 0).
  rewrite encodeAttachment_loop_lines. reflexivity. }
assert (Hc : concat (base64_lines data) = base64.EncodeToString data)
  by (unfold base64_lines; apply lines76_concat; lia).
split; [exact He|]. split; [apply lines76_bounds|].
split; [apply lines76_full; lia|]. split; [exact Hc|]. split.
- rewrite He, without_eol_lines.
  + rewrite Hc. apply DecodeString_EncodeToString.
  + apply lines76_chars. apply EncodeToString_base64.
- intros ->. reflexivity.
Qed.

(* ================================================================== *)
(** * The builder of the client and the builder of the program with
      attachments *)

Lemma attachments_fold_write_attachment (outer : gostring)
  (atts : list domain.Attachment) (buf : gostring) :
  fold_left (attachments.write_attachment outer)
    (map (fun att => attachments.mkEmailAttachment (domain.Filename att)
                       (domain.ContentType att) (domain.Data att)) atts) buf
  = fold_left (infrastructure.write_attachment outer) atts buf.
Proof.
revert buf. induction atts as [|att atts IH]; intros buf; cbn [map fold_left];
  [reflexivity|].
rewrite IH. reflexivity.
Qed.

(** The message of the program with attachments is its five header
    fields followed by the wire form of the body. *)
Lemma Build_fields_then_body (BEncode : gostring -> gostring)
  (clock : infrastructure.Clock) (e : domain.Email) :
  domain.TextBody e <> [] ->
  domain.HTMLBody e <> [] ->
  domain.Attachments e <> [] ->
  attachments.Build BEncode (infrastructure.nowOuter clock)
    (infrastructure.nowInner clock) (infrastructure.nowDate clock)
    (as_EmailWithAttachments e)
  = ((str "From: " ++ domain.From e ++ CRLF)
     ++ (str "To: " ++ Join (domain.To e) (str ", ") ++ CRLF)
     ++ (str "Subject: " ++ BEncode (domain.Subject e) ++ CRLF)
     ++ (str "Date: " ++ infrastructure.nowDate clock ++ CRLF))
    ++ (str "MIME-Version: 1.0" ++ CRLF)
    ++ render (mime_of clock e).
Proof.
intros Ht Hhtml Ha.
unfold attachments.Build, as_EmailWithAttachments.
cbn [attachments.From attachments.To attachments.Subject attachments.TextBody
     attachments.HTMLBody attachments.Attachments].
rewrite attachments_fold_write_attachment, fold_write_attachment.
unfold mime_of, alternative_block, body_parts,
  infrastructure.outerBoundary, infrastructure.innerBoundary.
apply gostr_eqb_neq in Ht, Hhtml. rewrite Ht, Hhtml.
destruct (domain.Attachments e) as [|att atts]; [contradiction|].
remember (att :: atts) as l eqn:El. clear El.
cbn [render app map concat].
rewrite <- ?app_assoc. reflexivity.
Qed.

(** X25: for an email with a text body, an HTML body and at least one
    attachment, without Cc, custom headers or a priority, the message
    the client builds is the message the program with attachments builds
    from the same fields and the same readings of the clock, with one
    more header line, the message identifier, after the date. *)
Theorem buildMessage_agrees_with_EmailWithAttachments_Build :
  forall (BEncode : gostring -> gostring) (host : gostring)
         (clock : infrastructure.Clock) (e : domain.Email),
  domain.Cc e = [] ->
  domain.Headers e = [] ->
  domain.Priority_ e = domain.PriorityNormal ->
  domain.TextBody e <> [] ->
  domain.HTMLBody e <> [] ->
  domain.Attachments e <> [] ->
  exists fields after,
    attachments.Build BEncode (infrastructure.nowOuter clock)
      (infrastructure.nowInner clock) (infrastructure.nowDate clock)
      (as_EmailWithAttachments e)
    = (fields ++ str "Date: " ++ infrastructure.nowDate clock ++ CRLF) ++ after /\
    fst (infrastructure.buildMessage BEncode host clock e)
    = (fields ++ str "Date: " ++ infrastructure.nowDate clock ++ CRLF)
      ++ (str "Message-ID: <" ++ itoa (infrastructure.nowMessageID clock)
          ++ str "@" ++ host ++ str ">" ++ CRLF)
      ++ after.
Proof.
intros BEncode host clock e Hcc Hh Hp Ht Hhtml Ha.
rewrite Build_fields_then_body by assumption.
destruct (buildMessage_fields_then_body BEncode host clock e) as (fields & Hf & ->).
cbn [fst]. rewrite <- Hf.
unfold infrastructure.write_headers, infrastructure.WriteString.
rewrite Hcc, Hh, Hp. cbn [length Z.of_nat Z.ltb Z.compare fold_left app].
exists ((str "From: " ++ domain.From e ++ CRLF)
        ++ (str "To: " ++ Join (domain.To e) (str ", ") ++ CRLF)
        ++ (str "Subject: " ++ BEncode (domain.Subject e) ++ CRLF)),
       ((str "MIME-Version: 1.0" ++ CRLF) ++ render (mime_of clock e)).
split; rewrite <- ?app_assoc; reflexivity.
Qed.

(** The theorem at [email_with_attachment]. *)
Lemma buildMessage_agrees_with_EmailWithAttachments_Build_witness :
  exists fields after,
    attachments.Build (fun s => s) 1000 2000 (str "date")
      (as_EmailWithAttachments email_with_attachment)
    = (fields ++ str "Date: " ++ str "date" ++ CRLF) ++ after /\
    fst (infrastructure.buildMessage (fun s => s) (str "host") clock0 email_with_attachment)
    = (fields ++ str "Date: " ++ str "date" ++ CRLF)
      ++ (str "Message-ID: <" ++ itoa 3000 ++ str "@" ++ str "host" ++ str ">" ++ CRLF)
      ++ after.
Proof.
apply (@buildMessage_agrees_with_EmailWithAttachments_Build (fun s => s) (str "host")
         clock0 email_with_attachment eq_refl eq_refl eq_refl);
  discriminate.
Defined.

(* ================================================================== *)
(** * Boundaries *)

Lemma to_int_nonnil (z : Z) :
  Z.to_int z <> Decimal.Pos Decimal.Nil /\ Z.to_int z <> Decimal.Neg Decimal.Nil.
Proof.
destruct z as [|p|p]; cbn; split; try discriminate; intros H; injection H as H;
  now apply DecimalPos.Unsigned.to_uint_nonnil in H.
Qed.

(** The decimal form of an integer determines it. *)
Lemma itoa_inj (a b : Z) : itoa a = itoa b -> a = b.
Proof.
unfold itoa, str. intros H.
apply (f_equal string_of_list_ascii) in H.
rewrite !string_of_list_ascii_of_string in H.
apply (f_equal NilZero.int_of_string) in H.
destruct (to_int_nonnil a) as [Ha1 Ha2]. destruct (to_int_nonnil b) as [Hb1 Hb2].
rewrite !NilZero.isi in H by assumption.
injection H as H. apply (f_equal Z.of_int) in H.
now rewrite !DecimalZ.of_to in H.
Qed.

(** X26: two calls of [generateBoundary] return the same boundary exactly
    when the clock gave them the same reading, so the outer and the inner
    boundary of the program differ only if the clock moved between the
    two calls.  The two boundaries of the client differ whatever the
    clock reads: one starts with [outer_] and the other with [inner_]. *)
Theorem boundaries_differ_when_the_clock_moves :
  forall (now1 now2 : Z) (clock : infrastructure.Clock),
  (complete.generateBoundary now1 = complete.generateBoundary now2 <-> now1 = now2) /\
  infrastructure.outerBoundary clock <> infrastructure.innerBoundary clock.
Proof.
intros now1 now2 clock. split.
- split; [|now intros ->]. unfold complete.generateBoundary. intros H.
  apply app_inv_head in H. now apply itoa_inj.
- unfold infrastructure.outerBoundary, infrastructure.innerBoundary.
  intros H. discriminate H.
Qed.
